(** * A shallow embedding of the C-subset front end

    The development follows the three Python modules of the repository:
    [lexer.py] (tokenizer), [parser.py] (recursive-descent parser) and
    [Sementic_Analyzer.py] (scoped symbol tables and the semantic pass).

    Conventions of the embedding.
    - Python strings are [string]s whose characters are read as code points
      below 256.
    - A Python exception is a value of [exn]; a method that may raise returns
      an [outcome].  Stateful methods are functions from the object state to an
      outcome and the state left behind, so that a mutation performed before a
      [raise] stays visible, as it does in Python.
    - [SymbolTable] objects live in a store and are referred to by location;
      [parent] is a location, so the table a scope delegates to is the very
      object that later declarations mutate. *)

From Stdlib Require Import Ascii String.

From stdpp Require Import gmap strings list.

(* ===================================================================== *)
(** * Python built-ins used by the three modules                          *)
(* ===================================================================== *)

Module Py.

(** The exceptions that the modelled code can raise.  [SemanticError] is the
    class declared in [Sementic_Analyzer.py]; [Exception] is what [parser.py]
    raises; [AttributeError] and [IndexError] come from the interpreter
    (attribute access on [None], list index out of range);
    [RecursionError] from unbounded recursion.  [InvalidReference] and
    [OutOfFuel] have no Python counterpart: the first marks a location that
    is not in the store, the second a recursion bound of the model that was
    too small. *)
Inductive exn : Type :=
| Exception (msg : string)
| SemanticError (msg : string)
| AttributeError (msg : string)
| IndexError (msg : string)
| RecursionError
| InvalidReference
| OutOfFuel.

Inductive outcome (A : Type) : Type :=
| Return (a : A)
| Raise (e : exn).
Arguments Return {A} a.
Arguments Raise {A} e.

Definition is_Return {A} (o : outcome A) : bool :=
  match o with Return _ => true | Raise _ => false end.

#[global] Instance outcome_ret : MRet outcome := λ A a, Return a.

#[global] Instance outcome_bind : MBind outcome :=
  λ A B f o, match o with Return a => f a | Raise e => Raise e end.

Definition ascii_in (lo hi : nat) (c : ascii) : bool :=
  (lo <=? nat_of_ascii c)%nat && (nat_of_ascii c <=? hi)%nat.

(** [ch in s] for a one-character [ch]. *)
Fixpoint char_in (c : ascii) (s : string) : bool :=
  match s with
  | EmptyString => false
  | String a s' => Ascii.eqb c a || char_in c s'
  end.

(** [string.punctuation]: the 32 ASCII punctuation characters, which are
    the codes 33-47, 58-64, 91-96 and 123-126. *)
Definition string_punctuation : string :=
  String "!" (String (ascii_of_nat 34)
    "#$%&'()*+,-./:;<=>?@[\]^_`{|}~").

(** [ch.isspace()] on one character: the Unicode white space below 256. *)
Definition isspace (c : ascii) : bool :=
  ascii_in 9 13 c || ascii_in 28 32 c
  || (nat_of_ascii c =? 133)%nat || (nat_of_ascii c =? 160)%nat.

Definition isdigit (c : ascii) : bool := ascii_in 48 57 c.

(** [s.split(sep)] for a one-character separator: never empty. *)
Fixpoint split (sep : ascii) (s : string) : list string :=
  match s with
  | EmptyString => [EmptyString]
  | String c s' =>
      if Ascii.eqb c sep then EmptyString :: split sep s'
      else match split sep s' with
           | piece :: pieces => String c piece :: pieces
           | [] => [String c EmptyString]
           end
  end.

(** [s.strip(c)] for a one-character argument. *)
Fixpoint lstrip (c : ascii) (s : string) : string :=
  match s with
  | EmptyString => EmptyString
  | String a s' => if Ascii.eqb a c then lstrip c s' else s
  end.

Fixpoint rstrip (c : ascii) (s : string) : string :=
  match s with
  | EmptyString => EmptyString
  | String a s' =>
      match rstrip c s' with
      | EmptyString => if Ascii.eqb a c then EmptyString else String a EmptyString
      | r => String a r
      end
  end.

Definition strip (c : ascii) (s : string) : string := rstrip c (lstrip c s).

Definition startswith (s p : string) : bool := String.prefix p s.

(** [l[i]] on a list. *)
Definition item {A} (l : list A) (i : nat) : outcome A :=
  match l !! i with
  | Some x => Return x
  | None => Raise (IndexError "list index out of range")
  end.

(** ** Numeric literals accepted by [int(s)] and [float(s)]

    Both first strip the white space around the text (the codes 9-13 and 32,
    and the two spaces above 127, which the conversion to ASCII turns into
    blanks; the separators 28-31 are not stripped) and accept one sign.
    Digits may be grouped by single underscores that stand between two
    digits.  The limit on the number of digits that recent interpreters put
    on [int(s)] is a run-time setting and is not modelled. *)

Definition c_isspace (c : ascii) : bool :=
  ascii_in 9 13 c || (nat_of_ascii c =? 32)%nat
  || (nat_of_ascii c =? 133)%nat || (nat_of_ascii c =? 160)%nat.

Fixpoint skip_space (s : string) : string :=
  match s with
  | String a s' => if c_isspace a then skip_space s' else s
  | EmptyString => EmptyString
  end.

Fixpoint all_space (s : string) : bool :=
  match s with
  | EmptyString => true
  | String a s' => c_isspace a && all_space s'
  end.

Definition skip_sign (s : string) : string :=
  match s with
  | String a s' => if Ascii.eqb a "+" || Ascii.eqb a "-" then s' else s
  | EmptyString => EmptyString
  end.

(** [digits prev s]: the rest of [s] after its longest prefix of digits and
    inner underscores; [prev] tells whether the character before [s] was a
    digit.  [None] when an underscore is not between two digits. *)
Fixpoint digits (prev : bool) (s : string) : option string :=
  match s with
  | String a s' =>
      if isdigit a then digits true s'
      else if Ascii.eqb a "_" then
        match s' with
        | String b _ => if prev && isdigit b then digits false s' else None
        | EmptyString => None
        end
      else Some s
  | EmptyString => Some s
  end.

(** A run of at least one digit: the rest of the text after it. *)
Definition digitpart (s : string) : option string :=
  match s with
  | String a _ => if isdigit a then digits false s else None
  | EmptyString => None
  end.

(** [True] when [int(s)] returns, [False] when it raises [ValueError]. *)
Definition int_parses (s : string) : bool :=
  match digitpart (skip_sign (skip_space s)) with
  | Some rest => all_space rest
  | None => false
  end.

Definition lower (c : ascii) : ascii :=
  if ascii_in 65 90 c then ascii_of_nat (nat_of_ascii c + 32) else c.

Fixpoint lowercase (s : string) : string :=
  match s with
  | EmptyString => EmptyString
  | String a s' => String (lower a) (lowercase s')
  end.

(** The optional exponent of a float literal. *)
Definition exponent (s : string) : option string :=
  match s with
  | String a s' =>
      if Ascii.eqb a "e" || Ascii.eqb a "E" then digitpart (skip_sign s')
      else Some s
  | EmptyString => Some s
  end.

(** The fraction after the integer part: [.], then optional digits. *)
Definition fraction (s : string) : option string :=
  match s with
  | String a s' =>
      if Ascii.eqb a "." then
        match s' with
        | String b _ => if isdigit b then digitpart s' else
                          if Ascii.eqb b "_" then None else Some s'
        | EmptyString => Some s'
        end
      else Some s
  | EmptyString => Some s
  end.

Definition decimal_literal (s : string) : option string :=
  match s with
  | String a s' =>
      if isdigit a then
        match digitpart s with
        | Some r => match fraction r with
                    | Some r' => exponent r'
                    | None => None
                    end
        | None => None
        end
      else if Ascii.eqb a "." then
        match digitpart s' with
        | Some r => exponent r
        | None => None
        end
      else None
  | EmptyString => None
  end.

(** The rest of [s] after one of the special values, longest first. *)
Definition special_literal (s : string) : option string :=
  let l := lowercase s in
  if String.prefix "infinity" l then Some (String.substring 8 (String.length s - 8) s)
  else if String.prefix "inf" l then Some (String.substring 3 (String.length s - 3) s)
  else if String.prefix "nan" l then Some (String.substring 3 (String.length s - 3) s)
  else None.

(** [True] when [float(s)] returns, [False] when it raises [ValueError]. *)
Definition float_parses (s : string) : bool :=
  let body := skip_sign (skip_space s) in
  match decimal_literal body with
  | Some rest => all_space rest
  | None =>
      match special_literal body with
      | Some rest => all_space rest
      | None => false
      end
  end.

End Py.

Import Py.

(* ===================================================================== *)
(** * Methods with state: the monad of a Python object                    *)
(* ===================================================================== *)

(** A method of an object with state [S] that returns an [A] or raises.  The
    state is returned in both cases. *)
Definition M (S A : Type) : Type := S → outcome A * S.

#[global] Instance M_ret {S} : MRet (M S) :=
  λ A a s, (Return a, s).

#[global] Instance M_bind {S} : MBind (M S) :=
  λ A B f m s,
    match m s with
    | (Return a, s') => f a s'
    | (Raise e, s') => (Raise e, s')
    end.

Definition raise {S A} (e : exn) : M S A := λ s, (Raise e, s).

Definition get {S} : M S S := λ s, (Return s, s).

Definition put {S} (s : S) : M S unit := λ _, (Return tt, s).

(** A computation that does not touch the state. *)
Definition lift {S A} (o : outcome A) : M S A := λ s, (o, s).

(** [try: body except SemanticError as e: handler(e)]; other exceptions pass. *)
Definition try_except_SemanticError {S A}
    (body : M S A) (handler : string → M S A) : M S A :=
  λ s,
    match body s with
    | (Raise (SemanticError msg), s') => handler msg s'
    | r => r
    end.

(* ===================================================================== *)
(** * lexer.py                                                            *)
(* ===================================================================== *)

Record Token : Type := mkToken { token_type : string; value : string }.

(** [Token.__repr__] *)
Definition Token_repr (t : Token) : string :=
  value t +:+ " (" +:+ token_type t +:+ ")".

Definition is_punctuator (ch : ascii) : bool :=
  char_in ch string_punctuation || isspace ch.

(** [ch.isdigit()]: the decimal digits and the superscripts 1, 2, 3. *)
Definition str_isdigit (ch : ascii) : bool :=
  isdigit ch || ascii_in 178 179 ch || (nat_of_ascii ch =? 185)%nat.

Fixpoint all_not_punctuator (s : string) : bool :=
  match s with
  | EmptyString => true
  | String ch s' => negb (is_punctuator ch) && all_not_punctuator s'
  end.

Definition valid_identifier (s : string) : bool :=
  match s with
  | EmptyString => false
  | String c rest =>
      if str_isdigit c || is_punctuator c then false
      else all_not_punctuator rest
  end.

Definition is_operator (ch : ascii) : bool := char_in ch "+-*/><|&=".

Definition keywords : list string :=
  ["if"; "else"; "while"; "do"; "break"; "continue"; "int"; "double";
   "float"; "return"; "char"; "case"; "long"; "short"; "typedef"; "switch";
   "unsigned"; "void"; "static"; "struct"; "sizeof"; "volatile"; "enum";
   "const"; "union"; "extern"; "bool"].

Definition is_keyword (s : string) : bool := existsb (String.eqb s) keywords.

Definition is_number (s : string) : bool := float_parses s.

Definition char_str (c : ascii) : string := String c EmptyString.

(** The body of the [while] loop of [Lexer]; [fuel] bounds the iterations. *)
Fixpoint Lexer_loop (fuel : nat) (s : string) (left right : nat)
    (tokens : list Token) : outcome (list Token) :=
  let len := String.length s in
  if negb ((right <=? len)%nat && (left <=? right)%nat) then Return tokens
  else
    match fuel with
    | O => Raise OutOfFuel
    | S fuel' =>
        let punct := from_option is_punctuator false (String.get right s) in
        if (right <? len)%nat && negb punct then
          Lexer_loop fuel' s left (right + 1) tokens
        else if (right <? len)%nat && punct && (left =? right)%nat then
          let tokens' :=
            match String.get right s with
            | Some ch =>
                if is_operator ch then tokens ++ [mkToken "OPERATOR" (char_str ch)]
                else if char_in ch "(){};" then
                  tokens ++ [mkToken "DELIMITER" (char_str ch)]
                else tokens
            | None => tokens
            end in
          Lexer_loop fuel' s (right + 1) (right + 1) tokens'
        else if ((right =? len)%nat || punct) && negb (left =? right)%nat then
          let sub := String.substring left (right - left) s in
          let tokens' :=
            if is_keyword sub then tokens ++ [mkToken "KEYWORD" sub]
            else if is_number sub then tokens ++ [mkToken "NUMBER" sub]
            else if valid_identifier sub then tokens ++ [mkToken "IDENTIFIER" sub]
            else tokens ++ [mkToken "INVALID IDENTIFIER" sub] in
          Lexer_loop fuel' s right right tokens'
        else Lexer_loop fuel' s left (right + 1) tokens
    end.

(** Every iteration moves [right] forward or closes the open run, so twice the
    length of the text and three more iterations are enough: see
    [Lexer_total]. *)
Definition Lexer (s : string) : outcome (list Token) :=
  Lexer_loop (2 * String.length s + 3) s 0 0 [].

(* ===================================================================== *)
(** * parser.py                                                           *)
(* ===================================================================== *)

(** [ParseNode(name, children)]: a label and an ordered list of children. *)
#[local] Unset Elimination Schemes.
Inductive ParseNode : Type :=
| Node (name : string) (children : list ParseNode).
#[local] Set Elimination Schemes.

Definition name (n : ParseNode) : string :=
  match n with Node s _ => s end.

Definition children (n : ParseNode) : list ParseNode :=
  match n with Node _ cs => cs end.

(** [ParseNode(name)]: [children or []] is the empty list. *)
Definition Leaf (s : string) : ParseNode := Node s [].

Module Parser.

Section WithTokens.

(** [self.tokens] is never assigned after [__init__]; the state of a parser
    is [self.index]. *)
Variable tokens : list Token.

Definition current_token : M nat (option Token) :=
  λ index, (Return (tokens !! index), index).

(** The test [expected and actual != expected] of [consume]: [None] and the
    empty text are false. *)
Definition differs (expected : option string) (actual : string) : bool :=
  match expected with
  | Some e => negb (String.eqb e "") && negb (String.eqb actual e)
  | None => false
  end.

Definition consume (expected_type expected_value : option string)
    : M nat Token :=
  token ← current_token;
  match token with
  | None => raise (Exception "Unexpected end of input")
  | Some token =>
      if differs expected_type (token_type token) then
        raise (Exception ("Expected " +:+ default "" expected_type
                          +:+ ", got " +:+ token_type token))
      else if differs expected_value (value token) then
        raise (Exception ("Expected '" +:+ default "" expected_value
                          +:+ "', got '" +:+ value token +:+ "'"))
      else
        index ← get;
        put (index + 1);;
        mret token
  end.

Definition parse_type : M nat ParseNode :=
  token ← consume (Some "KEYWORD") None;
  if existsb (String.eqb (value token)) ["int"; "float"; "double"; "char"]
  then mret (Leaf ("Type(" +:+ value token +:+ ")"))
  else raise (Exception ("Unexpected type " +:+ value token)).

(** [self.current_token() and self.current_token().value == v] *)
Definition current_value_is (v : string) : M nat bool :=
  token ← current_token;
  mret (from_option (λ t, String.eqb (value t) v) false token).

(** [self.current_token() and self.current_token().value != v] *)
Definition current_value_is_not (v : string) : M nat bool :=
  token ← current_token;
  mret (from_option (λ t, negb (String.eqb (value t) v)) false token).

Definition NoneType_has_no (attr : string) : exn :=
  AttributeError ("'NoneType' object has no attribute '" +:+ attr +:+ "'").

(** The productions call each other; [fuel] bounds the depth of the calls
    and of the [while] loops, which are the [_loop] functions. *)
Fixpoint parse_expression (fuel : nat) : M nat ParseNode :=
  match fuel with
  | O => raise OutOfFuel
  | S fuel =>
      token ← current_token;
      match token with
      | None => raise (NoneType_has_no "token_type")
      | Some token =>
          if String.eqb (token_type token) "NUMBER" then
            consume (Some "NUMBER") None;;
            mret (Leaf ("Number(" +:+ value token +:+ ")"))
          else if String.eqb (token_type token) "IDENTIFIER" then
            let id_node := Leaf ("Identifier(" +:+ value token +:+ ")") in
            consume (Some "IDENTIFIER") None;;
            is_call ← current_value_is "(";
            if is_call : bool then parse_function_call fuel id_node
            else mret id_node
          else
            raise (Exception ("Unexpected token in expression: "
                              +:+ Token_repr token))
      end
  end

with parse_function_call (fuel : nat) (id_node : ParseNode)
    : M nat ParseNode :=
  match fuel with
  | O => raise OutOfFuel
  | S fuel =>
      consume (Some "DELIMITER") (Some "(");;
      args_node ← parse_argument_list fuel;
      consume (Some "DELIMITER") (Some ")");;
      mret (Node "FunctionCall" ([id_node] ++ args_node))
  end

with parse_argument_list (fuel : nat) : M nat (list ParseNode) :=
  match fuel with
  | O => raise OutOfFuel
  | S fuel =>
      nonempty ← current_value_is_not ")";
      if nonempty : bool then
        arg ← parse_expression fuel;
        parse_argument_list_loop fuel ([] ++ [arg])
      else mret []
  end

with parse_argument_list_loop (fuel : nat) (args : list ParseNode)
    : M nat (list ParseNode) :=
  match fuel with
  | O => raise OutOfFuel
  | S fuel =>
      continue ← current_value_is ",";
      if continue : bool then
        consume (Some "DELIMITER") (Some ",");;
        arg ← parse_expression fuel;
        parse_argument_list_loop fuel (args ++ [arg])
      else mret args
  end.

Fixpoint parse_declaration (fuel : nat) : M nat ParseNode :=
  match fuel with
  | O => raise OutOfFuel
  | S fuel =>
      token ← current_token;
      match token with
      | None => raise (NoneType_has_no "token_type")
      | Some token =>
          if String.eqb (token_type token) "KEYWORD" then
            type_node ← parse_type;
            id_token ← consume (Some "IDENTIFIER") None;
            let id_node := Leaf ("Identifier(" +:+ value id_token +:+ ")") in
            is_function ← current_value_is "(";
            if is_function : bool then parse_function fuel type_node id_node
            else
              is_initialized ← current_value_is "=";
              if is_initialized : bool then
                consume (Some "OPERATOR") None;;
                expr_node ← parse_expression fuel;
                consume (Some "DELIMITER") None;;
                mret (Node "VariableDeclaration" [type_node; id_node; expr_node])
              else
                consume (Some "DELIMITER") None;;
                mret (Node "VariableDeclaration" [type_node; id_node])
          else
            expr_node ← parse_expression fuel;
            consume (Some "DELIMITER") None;;
            mret (Node "ExpressionStatement" [expr_node])
      end
  end

with parse_function (fuel : nat) (type_node id_node : ParseNode)
    : M nat ParseNode :=
  match fuel with
  | O => raise OutOfFuel
  | S fuel =>
      consume (Some "DELIMITER") (Some "(");;
      consume (Some "DELIMITER") (Some ")");;
      consume (Some "DELIMITER") (Some "{");;
      body_node ← parse_declaration_list fuel;
      consume (Some "DELIMITER") (Some "}");;
      mret (Node "Function" [type_node; id_node; body_node])
  end

with parse_declaration_list (fuel : nat) : M nat ParseNode :=
  match fuel with
  | O => raise OutOfFuel
  | S fuel =>
      children ← parse_declaration_list_loop fuel [];
      mret (Node "DeclarationList" children)
  end

with parse_declaration_list_loop (fuel : nat) (children : list ParseNode)
    : M nat (list ParseNode) :=
  match fuel with
  | O => raise OutOfFuel
  | S fuel =>
      continue ← current_value_is_not "}";
      if continue : bool then
        child ← parse_declaration fuel;
        parse_declaration_list_loop fuel (children ++ [child])
      else mret children
  end.

(** The [while] loop of [parse_program]. *)
Fixpoint parse_program_loop (fuel : nat) (children : list ParseNode)
    : M nat (list ParseNode) :=
  match fuel with
  | O => raise OutOfFuel
  | S fuel =>
      index ← get;
      if (index <? length tokens)%nat then
        child ← parse_declaration fuel;
        parse_program_loop fuel (children ++ [child])
      else mret children
  end.

Definition parse_program_fuel (fuel : nat) : M nat ParseNode :=
  children ← parse_program_loop fuel [];
  mret (Node "Program" children).

End WithTokens.

(** [Parser(tokens).parse_program()]: the parser starts at index 0.  Every
  call and every iteration that does not raise takes a token, and two
  levels of calls per token and three more are enough: see
  [parse_program_total]. *)
Definition parse_program (tokens : list Token) : outcome ParseNode :=
(parse_program_fuel tokens (2 * length tokens + 3) 0).1.

End Parser.

Definition example_source : string := "int main() { int x = 5; printf(x); }".

Definition example_body : ParseNode :=
  Node "DeclarationList"
    [Node "VariableDeclaration"
       [Leaf "Type(int)"; Leaf "Identifier(x)"; Leaf "Number(5)"];
     Node "ExpressionStatement"
       [Node "FunctionCall" [Leaf "Identifier(printf)"; Leaf "Identifier(x)"]]].

Definition example_function : ParseNode :=
  Node "Function" [Leaf "Type(int)"; Leaf "Identifier(main)"; example_body].

Definition example_tree : ParseNode := Node "Program" [example_function].

(* ===================================================================== *)
(** * Sementic_Analyzer.py                                                *)
(* ===================================================================== *)

(** The dictionary [{'type': ..., 'is_function': ...}] stored per name. *)
Record Symbol : Type := mkSymbol { type : string; is_function : bool }.

(** A location of the store of [SymbolTable] objects. *)
Abbreviation loc := nat (only parsing).

(** A [SymbolTable] object: [self.symbols] and [self.parent]. *)
Record SymbolTable : Type :=
  mkSymbolTable { symbols : gmap string Symbol; parent : option loc }.

Definition with_symbols (m : gmap string Symbol) (t : SymbolTable) : SymbolTable :=
  mkSymbolTable m (parent t).

Module SymbolTable.

(** [SymbolTable(parent)]: a fresh object at the end of the store. *)
Definition __init__ (parent : option loc) : M (list SymbolTable) loc :=
  λ heap, (Return (length heap), heap ++ [mkSymbolTable ∅ parent]).

Definition declare (self : loc) (name type_name : string) (is_function : bool)
    : M (list SymbolTable) unit :=
  λ heap,
    match heap !! self with
    | None => (Raise InvalidReference, heap)
    | Some table =>
        match symbols table !! name with
        | Some _ =>
            (Raise (SemanticError ("Symbol '" +:+ name
                                   +:+ "' already declared in this scope")),
             heap)
        | None =>
            (Return tt,
             <[self := with_symbols
                         (<[name := mkSymbol type_name is_function]>
                            (symbols table)) table]> heap)
        end
    end.

(** [lookup] calls itself on [self.parent]; [fuel] bounds the calls. *)
Fixpoint lookup_rec (fuel : nat) (heap : list SymbolTable) (self : loc)
    (name : string) : outcome Symbol :=
  match heap !! self with
  | None => Raise InvalidReference
  | Some table =>
      match symbols table !! name with
      | Some symbol => Return symbol
      | None =>
          match parent table with
          | Some p =>
              match fuel with
              | O => Raise RecursionError
              | S fuel => lookup_rec fuel heap p name
              end
          | None => Raise (SemanticError ("Undeclared symbol '" +:+ name +:+ "'"))
          end
      end
  end.

(** A chain of parents that does not end visits some object twice, and no
    chain without a repetition is longer than the store: the bound is
    reached only where the Python recursion would not end. *)
Definition lookup (self : loc) (name : string) : M (list SymbolTable) Symbol :=
  λ heap, (lookup_rec (length heap) heap self name, heap).

End SymbolTable.

(** A [SemanticAnalyzer] object, with the store of the tables it created. *)
Record SemanticAnalyzer : Type := mkSemanticAnalyzer {
  heap : list SymbolTable;
  global_symbol_table : loc;
  current_symbol_table : loc
}.

Module SemanticAnalyzer.

(** A call of a [SymbolTable] method from the analyzer. *)
Definition on_heap {A} (m : M (list SymbolTable) A) : M SemanticAnalyzer A :=
  λ self,
    match m (heap self) with
    | (r, heap') =>
        (r, mkSemanticAnalyzer heap' (global_symbol_table self)
              (current_symbol_table self))
    end.

(** [self.current_symbol_table = table] *)
Definition set_current_symbol_table (table : loc) : M SemanticAnalyzer unit :=
  λ self,
    (Return tt, mkSemanticAnalyzer (heap self) (global_symbol_table self) table).

Definition get_current_symbol_table : M SemanticAnalyzer loc :=
  λ self, (Return (current_symbol_table self), self).

Definition default_functions : list (string * Symbol) :=
  [("printf", mkSymbol "int" true);
   ("puts", mkSymbol "int" true);
   ("getchar", mkSymbol "int" true);
   ("scanf", mkSymbol "int" true)].

(** [for x in xs: body(x)] *)
Section ForEach.
Context {S A : Type} (body : A → M S unit).
Fixpoint for_each (xs : list A) : M S unit :=
  match xs with
  | [] => mret tt
  | x :: xs' => body x;; for_each xs'
  end.
End ForEach.

(** [predefined_functions or default_functions]: [None] and the empty
    dictionary are false.  A dictionary is the list of its items in
    insertion order. *)
Definition or_default (predefined_functions : option (list (string * Symbol)))
    : list (string * Symbol) :=
  match predefined_functions with
  | Some (item :: items) => item :: items
  | Some [] | None => default_functions
  end.

(** [SemanticAnalyzer(predefined_functions)]: the outcome of the constructor
    and the object it leaves.  The global table is the first object of the
    store; both fields refer to it. *)
Definition __init__ (predefined_functions : option (list (string * Symbol)))
    : outcome unit * SemanticAnalyzer :=
  let self := mkSemanticAnalyzer [mkSymbolTable ∅ None] 0 0 in
  for_each
    (λ '(name, info),
       on_heap (SymbolTable.declare (global_symbol_table self) name
                  (type info) (is_function info)))
    (or_default predefined_functions) self.

(** [label.split('(')[1].strip(')')]: the text between the brackets of a
    label such as [Identifier(main)]. *)
Definition payload (label : string) : outcome string :=
  piece ← item (split "(" label) 1;
  mret (strip ")" piece).

(** [node.children[i].name.split('(')[1].strip(')')] *)
Definition child_payload (node : ParseNode) (i : nat) : outcome string :=
  child ← item (children node) i;
  payload (name child).

Definition compatible_types : list (string * list string) :=
  [("int", ["int"]);
   ("float", ["int"; "float"]);
   ("double", ["int"; "float"; "double"]);
   ("char", ["char"])].

(** [d.get(key, default)] on a dictionary given by its items. *)
Fixpoint dict_get {V} (d : list (string * V)) (key : string) (default : V) : V :=
  match d with
  | [] => default
  | (k, v) :: d' => if String.eqb key k then v else dict_get d' key default
  end.

Definition _is_compatible_type (type1 type2 : string) : bool :=
  existsb (String.eqb type2) (dict_get compatible_types type1 []).

Definition _infer_number_type (number_node : ParseNode) : outcome string :=
  value ← payload (name number_node);
  if int_parses value then mret "int"
  else if float_parses value then mret "double"
  else Raise (SemanticError ("Invalid number: " +:+ value)).

Definition _type_check_assignment (expected_type : string)
    (value_node : ParseNode) : M SemanticAnalyzer unit :=
  if startswith (name value_node) "Number" then
    value_type ← lift (_infer_number_type value_node);
    if negb (_is_compatible_type expected_type value_type) then
      raise (SemanticError ("Type mismatch: cannot assign " +:+ value_type
                            +:+ " to " +:+ expected_type))
    else mret tt
  else if startswith (name value_node) "Identifier" then
    var_name ← lift (payload (name value_node));
    try_except_SemanticError
      (table ← get_current_symbol_table;
       var_info ← on_heap (SymbolTable.lookup table var_name);
       if negb (_is_compatible_type expected_type (type var_info)) then
         raise (SemanticError ("Type mismatch: cannot assign "
                               +:+ type var_info +:+ " to " +:+ expected_type))
       else mret tt)
      (λ e, raise (SemanticError ("Assignment error: " +:+ e)))
  else mret tt.

Definition _analyze_variable_declaration (node : ParseNode)
    : M SemanticAnalyzer unit :=
  var_type ← lift (child_payload node 0);
  var_name ← lift (child_payload node 1);
  (if (2 <? length (children node))%nat then
     init_node ← lift (item (children node) 2);
     _type_check_assignment var_type init_node
   else mret tt);;
  table ← get_current_symbol_table;
  on_heap (SymbolTable.declare table var_name var_type false).

Definition _analyze_function_call (node : ParseNode) : M SemanticAnalyzer unit :=
  func_name ← lift (child_payload node 0);
  try_except_SemanticError
    (table ← get_current_symbol_table;
     func_info ← on_heap (SymbolTable.lookup table func_name);
     if negb (is_function func_info) then
       raise (SemanticError ("'" +:+ func_name +:+ "' is not a function"))
     else mret tt)
    (λ e, raise (SemanticError ("Function call error: " +:+ e))).

(** The methods that call [self._analyze_node] take it as [analyze_node]. *)
Section Methods.
Variable analyze_node : ParseNode → M SemanticAnalyzer unit.

Definition _default_analysis (node : ParseNode) : M SemanticAnalyzer unit :=
  for_each analyze_node (children node).

Definition _analyze_program (node : ParseNode) : M SemanticAnalyzer unit :=
  for_each analyze_node (children node).

Definition _analyze_expression_statement (node : ParseNode)
    : M SemanticAnalyzer unit :=
  for_each analyze_node (children node).

Definition _analyze_function (node : ParseNode) : M SemanticAnalyzer unit :=
  return_type ← lift (child_payload node 0);
  func_name ← lift (child_payload node 1);
  prev_symbol_table ← get_current_symbol_table;
  local ← on_heap (SymbolTable.__init__ (Some prev_symbol_table));
  set_current_symbol_table local;;
  on_heap (SymbolTable.declare prev_symbol_table func_name return_type true);;
  match children node with
  | _ :: _ :: body :: _ => analyze_node body
  | _ => raise (IndexError "list index out of range")
  end;;
  set_current_symbol_table prev_symbol_table.

(** The dictionary [analysis_methods] and its default. *)
Definition analysis_method (kind : string)
    : ParseNode → M SemanticAnalyzer unit :=
  if String.eqb kind "Program" then _analyze_program
  else if String.eqb kind "Function" then _analyze_function
  else if String.eqb kind "VariableDeclaration" then
    _analyze_variable_declaration
  else if String.eqb kind "FunctionCall" then _analyze_function_call
  else if String.eqb kind "ExpressionStatement" then
    _analyze_expression_statement
  else _default_analysis.
End Methods.

Fixpoint _analyze_node (node : ParseNode) {struct node}
    : M SemanticAnalyzer unit :=
  kind ← lift (item (split "(" (name node)) 0);
  analysis_method _analyze_node kind node.

Definition analyze (parse_tree : ParseNode) : M SemanticAnalyzer loc :=
  _analyze_node parse_tree;;
  self ← get;
  mret (global_symbol_table self).

End SemanticAnalyzer.

(* ===================================================================== *)
(** * The vocabulary of the properties                                    *)
(* ===================================================================== *)

Definition no_bracket (s : string) : bool :=
  negb (char_in "(" s) && negb (char_in ")" s).

(** A store is well formed when every table was created after its parent:
    the analyzer only ever passes an existing table to [SymbolTable(parent)]. *)
Fixpoint wf_from (l : loc) (tables : list SymbolTable) : bool :=
  match tables with
  | [] => true
  | table :: tables' =>
      from_option (λ p, p <? l)%nat true (parent table) && wf_from (S l) tables'
  end.

Definition wf_heap (heap : list SymbolTable) : Prop := wf_from 0 heap = true.

(** The tables reached from [l] through [parent], innermost first. *)
Fixpoint chain_rec (fuel : nat) (heap : list SymbolTable) (l : loc)
    : list SymbolTable :=
  match heap !! l with
  | None => []
  | Some table =>
      table ::
        match parent table, fuel with
        | Some p, S fuel => chain_rec fuel heap p
        | _, _ => []
        end
  end.

Definition scope_chain (heap : list SymbolTable) (l : loc) : list SymbolTable :=
  chain_rec (length heap) heap l.

(** The entry of [name] in the first table of a chain that has one. *)
Fixpoint resolve (chain : list SymbolTable) (name : string) : option Symbol :=
  match chain with
  | [] => None
  | table :: chain' =>
      match symbols table !! name with
      | Some symbol => Some symbol
      | None => resolve chain' name
      end
  end.

(** The state of an analyzer whose two references point into a well-formed
    store. *)
Definition wf_analyzer (self : SemanticAnalyzer) : Prop :=
  wf_heap (heap self)
  ∧ current_symbol_table self < length (heap self)
  ∧ global_symbol_table self < length (heap self).

Definition Undeclared (name : string) : exn :=
  SemanticError ("Undeclared symbol '" +:+ name +:+ "'").

(** Unfolds the plumbing of a method down to matches on outcomes. *)
Ltac unfold_method :=
  unfold mbind, M_bind, mret, M_ret, outcome_bind, outcome_ret, raise, lift,
    try_except_SemanticError, SemanticAnalyzer.on_heap,
    SemanticAnalyzer.get_current_symbol_table,
    SemanticAnalyzer.set_current_symbol_table, get, put in *.

Definition AlreadyDeclared (name : string) : exn :=
  SemanticError ("Symbol '" +:+ name +:+ "' already declared in this scope").

(** The node of a declaration [T id;] as the parser builds it. *)
Definition plain_declaration (T id : string) : ParseNode :=
  Node "VariableDeclaration"
    [Leaf ("Type(" +:+ T +:+ ")"); Leaf ("Identifier(" +:+ id +:+ ")")].

Definition type_names : list string := ["int"; "float"; "double"; "char"].

(** A global table that declares [x] and an empty function scope below it. *)
Definition shadowing_heap : list SymbolTable :=
  [mkSymbolTable {[ "x" := mkSymbol "int" false ]} None; mkSymbolTable ∅ (Some 0)].

Definition NotAFunction (name : string) : exn :=
  SemanticError ("Function call error: '" +:+ name +:+ "' is not a function").

Definition CallOfUndeclared (name : string) : exn :=
  SemanticError ("Function call error: Undeclared symbol '" +:+ name +:+ "'").

(** The scopes visible from the current table of an analyzer. *)
Definition visible (self : SemanticAnalyzer) : list SymbolTable :=
  scope_chain (heap self) (current_symbol_table self).

(** A global scope with the function [printf] and the variable [x], and the
    empty scope of a function body as the current one. *)
Definition sample_analyzer : SemanticAnalyzer :=
  mkSemanticAnalyzer
    [mkSymbolTable {[ "printf" := mkSymbol "int" true;
                      "x" := mkSymbol "int" false ]} None;
     mkSymbolTable ∅ (Some 0)]
    0 1.

(** [printf(nowhere, missing(x))]: neither argument could be analyzed. *)
Definition call_with_bad_arguments : ParseNode :=
  Node "FunctionCall"
    [Leaf "Identifier(printf)"; Leaf "Identifier(nowhere)";
     Node "FunctionCall" [Leaf "Identifier(missing)"; Leaf "Identifier(x)"]].

(** The acceptability relation of the specification: which value types a
    declared type takes. *)
Inductive accepts : string → string → Prop :=
| int_accepts_int : accepts "int" "int"
| float_accepts_int : accepts "float" "int"
| float_accepts_float : accepts "float" "float"
| double_accepts_int : accepts "double" "int"
| double_accepts_float : accepts "double" "float"
| double_accepts_double : accepts "double" "double"
| char_accepts_char : accepts "char" "char".

Definition TypeMismatch (value_type expected_type : string) : string :=
  "Type mismatch: cannot assign " +:+ value_type +:+ " to " +:+ expected_type.

(** The node of [T id = init;] as the parser builds it. *)
Definition initialized_declaration (T id : string) (init : ParseNode) : ParseNode :=
  Node "VariableDeclaration"
    [Leaf ("Type(" +:+ T +:+ ")"); Leaf ("Identifier(" +:+ id +:+ ")"); init].

(** The analyzer that [SemanticAnalyzer()] builds. *)
Definition initial_analyzer : SemanticAnalyzer := (SemanticAnalyzer.__init__ None).2.

(** [Parser(Lexer(source)).parse_program()] *)
Definition parse_source (source : string) : outcome ParseNode :=
  tokens ← Lexer source;
  Parser.parse_program tokens.

(** [SemanticAnalyzer().analyze(Parser(Lexer(source)).parse_program())], as
    in [main]. *)
Definition analyze_source (source : string) : outcome loc :=
  tree ← parse_source source;
  (SemanticAnalyzer.analyze tree initial_analyzer).1.

Definition default_global_scope : SymbolTable :=
  mkSymbolTable
    {[ "printf" := mkSymbol "int" true; "puts" := mkSymbol "int" true;
       "getchar" := mkSymbol "int" true; "scanf" := mkSymbol "int" true ]}
    None.

(** Induction on parse trees, with the hypothesis for every child. *)
Section ParseNodeInduction.
Variable P : ParseNode → Prop.
Hypothesis HNode : ∀ name children, Forall P children → P (Node name children).

Fixpoint ParseNode_ind (node : ParseNode) : P node :=
  match node with
  | Node name children =>
      HNode name children
        ((fix all (cs : list ParseNode) : Forall P cs :=
            match cs with
            | [] => @List.Forall_nil _ P
            | c :: cs' => @List.Forall_cons _ P c cs' (ParseNode_ind c) (all cs')
            end) children)
  end.

End ParseNodeInduction.

(** What an analysis that starts in [self] may have done when it is in
    [self']: tables were added at the end of the store, and of the tables
    that existed only the current one was touched, which kept its parent and
    all its entries. *)
Record frame (self self' : SemanticAnalyzer) : Prop := mkFrame {
  frame_wf : wf_analyzer self';
  frame_global : global_symbol_table self' = global_symbol_table self;
  frame_length : length (heap self) ≤ length (heap self');
  frame_others :
    ∀ l, l < length (heap self) → l ≠ current_symbol_table self →
         heap self' !! l = heap self !! l;
  frame_current :
    ∀ table, heap self !! current_symbol_table self = Some table →
      ∃ table', heap self' !! current_symbol_table self = Some table'
                ∧ parent table' = parent table
                ∧ symbols table ⊆ symbols table'
}.

(** A method that stays inside the frame and, when it returns, has put the
    current scope back. *)
Definition framed (m : M SemanticAnalyzer unit) : Prop :=
  ∀ self o self',
    wf_analyzer self → m self = (o, self') →
    frame self self'
    ∧ (o = Return tt → current_symbol_table self' = current_symbol_table self).

(** The analyzer on entry to a function body: a fresh empty table whose
    parent is the table that was current, made the current one. *)
Definition enter (self : SemanticAnalyzer) : SemanticAnalyzer :=
  mkSemanticAnalyzer
    (heap self ++ [mkSymbolTable ∅ (Some (current_symbol_table self))])
    (global_symbol_table self)
    (length (heap self)).

(** [self.current_symbol_table = table] as a state. *)
Definition leave (table : loc) (self : SemanticAnalyzer) : SemanticAnalyzer :=
  mkSemanticAnalyzer (heap self) (global_symbol_table self) table.

(** The table after [declare] has stored an entry. *)
Definition declared (name type_name : string) (is_function : bool)
    (table : SymbolTable) : SymbolTable :=
  with_symbols (<[name := mkSymbol type_name is_function]> (symbols table)) table.

(** What [self.current_symbol_table.lookup(name)] gives in a state of the
    analyzer. *)
Definition sees (self : SemanticAnalyzer) (name : string) : outcome Symbol :=
  (SymbolTable.lookup (current_symbol_table self) name (heap self)).1.

(** The analyzer at the first statement of a function body: the function is
    declared in the table that was current, and the fresh table of [enter]
    is the current one. *)
Definition body_entry (self : SemanticAnalyzer) (func_name return_type : string)
    (table : SymbolTable) : SemanticAnalyzer :=
  mkSemanticAnalyzer
    (<[current_symbol_table self := declared func_name return_type true table]>
       (heap (enter self)))
    (global_symbol_table self) (length (heap self)).

(** The scopes that enclose the one of [table]. *)
Definition enclosing (heap : list SymbolTable) (table : SymbolTable)
    : list SymbolTable :=
  match parent table with
  | Some p => scope_chain heap p
  | None => []
  end.

(** The analyzer after the function of the example program, which declares
    [x] in its body. *)
Definition after_example_function : SemanticAnalyzer :=
  (SemanticAnalyzer._analyze_function SemanticAnalyzer._analyze_node
     example_function initial_analyzer).2.

(** The two ways in which a parse ends without a tree: an [Exception] that
    the parser raises, or the interpreter's error for [token_type] read from
    [None]. *)
Definition raised_by_parser (e : exn) : Prop :=
  (∃ msg, e = Exception msg) ∨ e = Parser.NoneType_has_no "token_type".

(** [advances tokens m index k]: run at an index inside the tokens, the
    parser method [m] raises nothing but the errors of [raised_by_parser]
    (so it does not run out of fuel), leaves an index inside the tokens, and
    has taken at least [k] tokens when it returns. *)
Definition advances {A} (tokens : list Token) (m : M nat A) (index k : nat) : Prop :=
  index ≤ length tokens →
  (∀ e, (m index).1 = Raise e → raised_by_parser e)
  ∧ (m index).2 ≤ length tokens
  ∧ (is_Return (m index).1 = true → index + k ≤ (m index).2).

(** The classification of a run of characters in [Lexer]. *)
Definition classify (sub : string) : string :=
  if is_keyword sub then "KEYWORD"
  else if is_number sub then "NUMBER"
  else if valid_identifier sub then "IDENTIFIER"
  else "INVALID IDENTIFIER".

(** A token made of one separator: an operator or a delimiter. *)
Definition separator_token (t : Token) : bool :=
  match value t with
  | String ch EmptyString =>
      (is_operator ch && String.eqb (token_type t) "OPERATOR")
      || (negb (is_operator ch) && char_in ch "(){};"
          && String.eqb (token_type t) "DELIMITER")
  | _ => false
  end.

(** A token made of a run: not empty, without separators, and of the kind
    that its text decides. *)
Definition run_token (t : Token) : bool :=
  negb (String.eqb (value t) "") && all_not_punctuator (value t)
  && String.eqb (token_type t) (classify (value t)).

Definition lexical_token (t : Token) : bool := separator_token t || run_token t.

(** The characters of [s] from [left] up to [right] are not separators. *)
Definition open_run (s : string) (left right : nat) : Prop :=
  ∀ i c, left ≤ i → i < right → String.get i s = Some c → is_punctuator c = false.

(** The trees of the grammar, as the parser builds them.  The text of an
    identifier or a number is the value of its token, whatever it is. *)
#[local] Unset Elimination Schemes.
Inductive expression : ParseNode → Prop :=
| expression_number v : expression (Leaf ("Number(" +:+ v +:+ ")"))
| expression_identifier v : expression (Leaf ("Identifier(" +:+ v +:+ ")"))
| expression_call v args :
    Forall expression args →
    expression (Node "FunctionCall" (Leaf ("Identifier(" +:+ v +:+ ")") :: args)).

Inductive declaration : ParseNode → Prop :=
| declaration_plain T v :
    T ∈ type_names → declaration (plain_declaration T v)
| declaration_initialized T v init :
    T ∈ type_names → expression init →
    declaration (initialized_declaration T v init)
| declaration_function T v body :
    T ∈ type_names → Forall declaration body →
    declaration
      (Node "Function"
         [Leaf ("Type(" +:+ T +:+ ")"); Leaf ("Identifier(" +:+ v +:+ ")");
          Node "DeclarationList" body])
| declaration_statement e :
    expression e → declaration (Node "ExpressionStatement" [e]).
#[local] Set Elimination Schemes.

Definition program (tree : ParseNode) : Prop :=
  ∃ declarations, tree = Node "Program" declarations
                  ∧ Forall declaration declarations.


(** [returns_only m P]: whatever the parser method [m] returns has [P]. *)
Definition returns_only {A} (m : M nat A) (P : A → Prop) : Prop :=
  ∀ index a index', m index = (Return a, index') → P a.


(** The node of [T f() { f(); }]: a function whose body calls it. *)
Definition recursive_function (T f : string) : ParseNode :=
  Node "Function"
    [Leaf ("Type(" +:+ T +:+ ")"); Leaf ("Identifier(" +:+ f +:+ ")");
     Node "DeclarationList"
       [Node "ExpressionStatement"
          [Node "FunctionCall" [Leaf ("Identifier(" +:+ f +:+ ")")]]]].


(** A method that never assigns [self.current_symbol_table]. *)
Definition keeps_scope {A} (m : M SemanticAnalyzer A) : Prop :=
  ∀ self, current_symbol_table (m self).2 = current_symbol_table self.

(** After the method the current scope is the one it started in, or a table
    that the method created. *)
Definition stays_or_enters (m : M SemanticAnalyzer unit) : Prop :=
  ∀ self o self',
    wf_analyzer self → m self = (o, self') →
    current_symbol_table self' = current_symbol_table self
    ∨ length (heap self) ≤ current_symbol_table self'.

(** [s[0].isdigit()] for a text that is not empty. *)
Definition starts_with_digit (s : string) : bool :=
  match s with
  | String c _ => str_isdigit c
  | EmptyString => false
  end.

(** The tokens of one separator: an operator, a delimiter, or none. *)
Definition separator (ch : ascii) : list Token :=
  if is_operator ch then [mkToken "OPERATOR" (char_str ch)]
  else if char_in ch "(){};" then [mkToken "DELIMITER" (char_str ch)]
  else [].

(** The token of a run that ends; the empty run gives none. *)
Definition close (run : string) : list Token :=
  match run with
  | EmptyString => []
  | String _ _ => [mkToken (classify run) run]
  end.

(** The tokens of a text in one pass from left to right, without indices:
    [run] holds the characters read since the last separator. *)
Fixpoint scan (s run : string) : list Token :=
  match s with
  | EmptyString => close run
  | String ch s' =>
      if is_punctuator ch then close run ++ separator ch ++ scan s' ""
      else scan s' (run +:+ char_str ch)
  end.

(** Programs as syntax, to print them as tokens.  An expression is a number,
    an identifier or a call; a declaration is a variable with or without an
    initializer, a function without parameters, or an expression statement. *)
#[local] Unset Elimination Schemes.

#[local] Set Elimination Schemes.









(** [self.current_token() and self.current_token().value == v] for the
    tokens [rest] that are left. *)
Definition next_is (v : string) (rest : list Token) : bool :=
  from_option (λ t, String.eqb (value t) v) false (head rest).




(** The statement [e;] and the call [f(args)] as trees. *)
Definition statement (e : ParseNode) : ParseNode := Node "ExpressionStatement" [e].

Definition call (f : string) (args : list ParseNode) : ParseNode :=
  Node "FunctionCall" (Leaf ("Identifier(" +:+ f +:+ ")") :: args).

(** The error of [consume("DELIMITER", ")")] at the token [t]. *)
Definition expected_closing_bracket (t : Token) : exn :=
  if String.eqb (token_type t) "DELIMITER"
  then Exception ("Expected ')', got '" +:+ value t +:+ "'")
  else Exception ("Expected DELIMITER, got " +:+ token_type t).

(** The object that [SemanticAnalyzer(functions)] builds when the global
    table takes every item of the mapping. *)
Definition analyzer_with (functions : list (string * Symbol)) : SemanticAnalyzer :=
  mkSemanticAnalyzer [mkSymbolTable (list_to_map functions) None] 0 0.

(* ===================================================================== *)
(** * Evaluation of the model                                             *)
(* ===================================================================== *)

Example split_label : split "(" "Identifier(main)" = ["Identifier"; "main)"].
Proof. reflexivity. Qed.

Example split_plain : split "(" "FunctionCall" = ["FunctionCall"].
Proof. reflexivity. Qed.

Example strip_payload : strip ")" "main)" = "main".
Proof. reflexivity. Qed.

Example punctuation_size : String.length string_punctuation = 32.
Proof. reflexivity. Qed.

Example int_parses_examples :
  map int_parses ["5"; "5.0"; "1e5"; " -42 "; "1_000"; "1__0"; ""; "x"; "+"]
  = [true; false; false; true; true; false; false; false; false].
Proof. reflexivity. Qed.

Example float_parses_examples :
  map float_parses ["5"; "5.0"; "1e5"; ".5"; "5."; "."; "1e"; "inf"; "NaN";
                    "Infinity"; "infin"; "1_0.2_5e1_0"; "1_.5"; "x"; ""; "5.0.0"]
  = [true; true; true; true; true; false; false; true; true;
     true; false; true; false; false; false; false].
Proof. reflexivity. Qed.

Example Lexer_declaration :
  Lexer "int x = 5;"
  = Return [mkToken "KEYWORD" "int"; mkToken "IDENTIFIER" "x";
            mkToken "OPERATOR" "="; mkToken "NUMBER" "5";
            mkToken "DELIMITER" ";"].
Proof. reflexivity. Qed.

Example Lexer_fraction_is_two_numbers :
  Lexer "5.0" = Return [mkToken "NUMBER" "5"; mkToken "NUMBER" "0"].
Proof. reflexivity. Qed.

Example parse_example : parse_source example_source = Return example_tree.
Proof. reflexivity. Qed.

(** The tokenizer ends a run at the point of [5.0]: the text of a fraction
    reaches the parser as two numbers and is refused there. *)
Example parse_fraction :
  parse_source "int x = 5.0;" = Raise (Exception "Expected DELIMITER, got NUMBER").
Proof. reflexivity. Qed.

Example parse_initialized_declarations :
  parse_source "int x = 5;"
  = Return (Node "Program" [initialized_declaration "int" "x" (Leaf "Number(5)")])
  ∧ parse_source "double y = 5;"
    = Return (Node "Program"
                [initialized_declaration "double" "y" (Leaf "Number(5)")])
  ∧ parse_source "int x = 1e5;"
    = Return (Node "Program"
                [initialized_declaration "int" "x" (Leaf "Number(1e5)")]).
Proof. repeat split. Qed.

(* ===================================================================== *)
(** * Labels and their payload                                            *)
(* ===================================================================== *)

(** The parser writes the labels [Type(t)], [Identifier(x)] and [Number(n)];
    the analyzer reads [t], [x] and [n] back with [payload].  The round trip
    is the identity on texts without brackets, which is what the tokenizer
    produces: both brackets are punctuators and end a run. *)

Section Labels.

Import SemanticAnalyzer.

Lemma split_no_sep (sep : ascii) (s : string) :
  char_in sep s = false → split sep s = [s].
Proof.
  induction s as [|c s IH]; simpl; [done|].
  rewrite Ascii.eqb_sym.
  destruct (Ascii.eqb c sep); simpl; [done|].
  intros H. by rewrite IH.
Qed.

Lemma split_app_sep (sep : ascii) (a b : string) :
  char_in sep a = false →
  split sep (a +:+ String sep b) = a :: split sep b.
Proof.
  induction a as [|c a IH]; simpl.
  - intros _. by rewrite Ascii.eqb_refl.
  - rewrite Ascii.eqb_sym.
    destruct (Ascii.eqb c sep); simpl; [done|].
    intros H. by rewrite IH.
Qed.

Lemma rstrip_app (c : ascii) (s : string) :
  char_in c s = false → rstrip c (s +:+ String c EmptyString) = s.
Proof.
  induction s as [|a s IH]; simpl.
  - by rewrite Ascii.eqb_refl.
  - rewrite Ascii.eqb_sym.
    destruct (Ascii.eqb a c) eqn:Hac; simpl; [done|].
    intros H. rewrite (IH H).
    by destruct s.
Qed.

Lemma lstrip_app (c : ascii) (s : string) :
  char_in c s = false →
  lstrip c (s +:+ String c EmptyString)
  = match s with EmptyString => EmptyString | _ => s +:+ String c EmptyString end.
Proof.
  destruct s as [|a s]; simpl.
  - by rewrite Ascii.eqb_refl.
  - rewrite Ascii.eqb_sym. by destruct (Ascii.eqb a c).
Qed.

Lemma strip_app (c : ascii) (s : string) :
  char_in c s = false → strip c (s +:+ String c EmptyString) = s.
Proof.
  intros H. unfold strip. rewrite (lstrip_app _ _ H).
  destruct s; [done|]. by apply rstrip_app.
Qed.

Lemma payload_label (kind text : string) :
  char_in "(" kind = false → no_bracket text = true →
  payload (kind +:+ "(" +:+ text +:+ ")") = Return text.
Proof.
  unfold no_bracket. intros Hk [Ho Hc]%andb_true_iff.
  apply negb_true_iff in Ho, Hc.
  unfold payload.
  change (kind +:+ "(" +:+ text +:+ ")")
    with (kind +:+ String "(" (text +:+ String ")" EmptyString)).
  rewrite (split_app_sep "(" kind _ Hk).
  rewrite split_no_sep.
  - simpl. f_equal. by apply strip_app.
  - clear Hc. induction text as [|a t IH]; simpl in *; [done|].
    apply orb_false_iff in Ho as [-> Ho]. by apply IH.
Qed.

End Labels.

(* ===================================================================== *)
(** * Scope chains                                                        *)
(* ===================================================================== *)

Section ScopeChains.

Import SymbolTable.

Lemma wf_from_lookup (k : nat) (tables : list SymbolTable) :
  wf_from k tables = true ↔
  ∀ i table p, tables !! i = Some table → parent table = Some p → p < k + i.
Proof.
  revert k. induction tables as [|t ts IH]; intros k; simpl.
  - split; [intros _ i table p H; by destruct i | done].
  - rewrite andb_true_iff, IH. split.
    + intros [Ht Hts] [|i] table p Hi Hp; simpl in Hi.
      * injection Hi as <-. rewrite Hp in Ht. simpl in Ht.
        apply Nat.ltb_lt in Ht. lia.
      * specialize (Hts i table p Hi Hp). lia.
    + intros H. split.
      * destruct (parent t) as [p|] eqn:Hp; simpl; [|done].
        apply Nat.ltb_lt. specialize (H 0 t p eq_refl Hp). lia.
      * intros i table p Hi Hp. specialize (H (S i) table p Hi Hp). lia.
Qed.

Lemma wf_heap_parent (heap : list SymbolTable) (l p : loc) (table : SymbolTable) :
  wf_heap heap → heap !! l = Some table → parent table = Some p → p < l.
Proof. intros Hwf. by apply (proj1 (wf_from_lookup 0 heap) Hwf). Qed.

Lemma wf_heap_intro (heap : list SymbolTable) :
  (∀ l table p, heap !! l = Some table → parent table = Some p → p < l) →
  wf_heap heap.
Proof. intros H. by apply (wf_from_lookup 0 heap). Qed.

(** On a well-formed store the bound of [lookup] is never reached, and the
    recursion computes [resolve] on the chain. *)
Lemma lookup_rec_chain (heap : list SymbolTable) (name : string) :
  wf_heap heap →
  ∀ fuel l, l ≤ fuel → l < length heap →
    lookup_rec fuel heap l name
    = match resolve (chain_rec fuel heap l) name with
      | Some symbol => Return symbol
      | None => Raise (Undeclared name)
      end.
Proof.
  intros Hwf fuel. induction fuel as [|fuel IH]; intros l Hl Hlen.
  - destruct (lookup_lt_is_Some_2 heap l Hlen) as [table Ht].
    cbn [lookup_rec chain_rec]. rewrite Ht. cbn [resolve].
    destruct (symbols table !! name); [done|].
    destruct (parent table) as [p|] eqn:Hp; [|done].
    pose proof (wf_heap_parent _ _ _ _ Hwf Ht Hp). lia.
  - destruct (lookup_lt_is_Some_2 heap l Hlen) as [table Ht].
    cbn [lookup_rec chain_rec]. rewrite Ht. cbn [resolve].
    destruct (symbols table !! name); [done|].
    destruct (parent table) as [p|] eqn:Hp; [|done].
    pose proof (wf_heap_parent _ _ _ _ Hwf Ht Hp).
    apply IH; lia.
Qed.

(** Tables at or below [l] decide a lookup from [l]: neither the bound nor
    the objects created later matter. *)
Lemma lookup_rec_agree (heap heap' : list SymbolTable) (name : string) :
  wf_heap heap →
  ∀ fuel fuel' l, l ≤ fuel → l ≤ fuel' → l < length heap →
    (∀ r, r ≤ l → heap' !! r = heap !! r) →
    lookup_rec fuel' heap' l name = lookup_rec fuel heap l name.
Proof.
  intros Hwf fuel. induction fuel as [|fuel IH]; intros fuel' l Hl Hl' Hlen Hsame.
  - destruct (lookup_lt_is_Some_2 heap l Hlen) as [table Ht].
    assert (l = 0) as -> by lia.
    destruct fuel'; cbn [lookup_rec chain_rec]; rewrite (Hsame 0), Ht by lia;
      destruct (symbols table !! name); try done;
      destruct (parent table) as [p|] eqn:Hp; try done;
      pose proof (wf_heap_parent _ _ _ _ Hwf Ht Hp); lia.
  - destruct (lookup_lt_is_Some_2 heap l Hlen) as [table Ht].
    destruct fuel'; cbn [lookup_rec chain_rec]; rewrite (Hsame l), Ht by lia;
      destruct (symbols table !! name); try done;
      destruct (parent table) as [p|] eqn:Hp; try done;
      pose proof (wf_heap_parent _ _ _ _ Hwf Ht Hp); [lia|].
    apply IH; try lia. intros r Hr. apply Hsame. lia.
Qed.

Lemma chain_rec_agree (heap heap' : list SymbolTable) :
  wf_heap heap →
  ∀ fuel fuel' l, l ≤ fuel → l ≤ fuel' → l < length heap →
    (∀ r, r ≤ l → heap' !! r = heap !! r) →
    chain_rec fuel' heap' l = chain_rec fuel heap l.
Proof.
  intros Hwf fuel. induction fuel as [|fuel IH]; intros fuel' l Hl Hl' Hlen Hsame.
  - destruct (lookup_lt_is_Some_2 heap l Hlen) as [table Ht].
    assert (l = 0) as -> by lia.
    destruct fuel'; cbn [lookup_rec chain_rec]; rewrite (Hsame 0), Ht by lia;
      destruct (parent table) as [p|] eqn:Hp; try done;
      pose proof (wf_heap_parent _ _ _ _ Hwf Ht Hp); lia.
  - destruct (lookup_lt_is_Some_2 heap l Hlen) as [table Ht].
    destruct fuel'; cbn [lookup_rec chain_rec]; rewrite (Hsame l), Ht by lia;
      destruct (parent table) as [p|] eqn:Hp; try done;
      pose proof (wf_heap_parent _ _ _ _ Hwf Ht Hp); [lia|].
    f_equal. apply IH; try lia. intros r Hr. apply Hsame. lia.
Qed.

Lemma lookup_scope_chain (heap : list SymbolTable) (l : loc) (name : string) :
  wf_heap heap → l < length heap →
  lookup l name heap
  = (match resolve (scope_chain heap l) name with
     | Some symbol => Return symbol
     | None => Raise (Undeclared name)
     end, heap).
Proof.
  intros Hwf Hl. unfold lookup, scope_chain.
  rewrite lookup_rec_chain by (done || lia). done.
Qed.

End ScopeChains.

(* ===================================================================== *)
(** * Reasoning about methods                                             *)
(* ===================================================================== *)

Section MonadLaws.

Context {S A B : Type}.

Lemma bind_inv (m : M S A) (f : A → M S B) (s s'' : S) (r : outcome B) :
  (m ≫= f) s = (r, s'') →
  (∃ a s', m s = (Return a, s') ∧ f a s' = (r, s''))
  ∨ (∃ e, m s = (Raise e, s'') ∧ r = Raise e).
Proof.
  unfold mbind, M_bind. destruct (m s) as [[a|e] s'].
  - intros H. left. by exists a, s'.
  - intros [= <- <-]. right. by exists e.
Qed.

End MonadLaws.

(* ===================================================================== *)
(** * SymbolTable: declare and lookup                                     *)
(* ===================================================================== *)

(** C6. [declare] raises the duplicate-symbol error exactly when the name is
    a key of the mapping of the table it is called on, whatever the types
    and whatever the parent tables hold; otherwise it stores the entry
    [{type, is_function}] under the name in that table and returns [None].
    In particular a name of an enclosing scope may be declared again in an
    inner scope. *)
Theorem declare_duplicate_iff_own_key
    (heap : list SymbolTable) (self : loc) (table : SymbolTable)
    (name type_name : string) (is_function : bool) :
  heap !! self = Some table →
  (is_Some (symbols table !! name) →
     SymbolTable.declare self name type_name is_function heap
     = (Raise (AlreadyDeclared name), heap))
  ∧ (symbols table !! name = None →
     SymbolTable.declare self name type_name is_function heap
     = (Return tt,
        <[self := with_symbols
                    (<[name := mkSymbol type_name is_function]> (symbols table))
                    table]> heap))
  ∧ ((∃ e, (SymbolTable.declare self name type_name is_function heap).1 = Raise e)
     ↔ is_Some (symbols table !! name))
  ∧ (∀ p outer, parent table = Some p → heap !! p = Some outer →
       is_Some (symbols outer !! name) → symbols table !! name = None →
       (SymbolTable.declare self name type_name is_function heap).1 = Return tt).
Proof.
  intros Hself. unfold SymbolTable.declare. rewrite Hself.
  destruct (symbols table !! name) as [symbol|] eqn:Hname.
  - repeat split; try done; eauto.
  - repeat split; try done.
    all: by intros [? [=]].
Qed.

Lemma declare_duplicate_iff_own_key_witness :
  (SymbolTable.declare 1 "x" "char" false shadowing_heap).1 = Return tt
  ∧ (SymbolTable.declare 0 "x" "char" false shadowing_heap).1
    = Raise (AlreadyDeclared "x").
Proof.
  split.
  - apply (declare_duplicate_iff_own_key shadowing_heap 1
             (mkSymbolTable ∅ (Some 0)) "x" "char" false eq_refl)
      with (p := 0) (outer := mkSymbolTable {[ "x" := mkSymbol "int" false ]} None);
      try reflexivity.
    exists (mkSymbol "int" false). reflexivity.
  - pose proof (declare_duplicate_iff_own_key shadowing_heap 0
                  (mkSymbolTable {[ "x" := mkSymbol "int" false ]} None)
                  "x" "char" false eq_refl) as [H _].
    rewrite H; [reflexivity|].
    exists (mkSymbol "int" false). reflexivity.
Defined.

(** C7. On a well-formed analyzer state, [lookup] from any table returns the
    entry of the name in the innermost table of the chain of parents that has
    one, and raises the undeclared-symbol error when no table of the chain
    has one.  After the analysis of a declaration [T id;], a lookup of [id]
    from the current table returns exactly [{type: T, is_function: false}]. *)
Theorem lookup_innermost_then_outward (self : SemanticAnalyzer) :
  wf_analyzer self →
  (∀ l name, l < length (heap self) →
     SymbolTable.lookup l name (heap self)
     = (match resolve (scope_chain (heap self) l) name with
        | Some symbol => Return symbol
        | None => Raise (Undeclared name)
        end, heap self))
  ∧ (∀ T id table,
       T ∈ type_names → no_bracket id = true →
       heap self !! current_symbol_table self = Some table →
       symbols table !! id = None →
       ∃ self',
         SemanticAnalyzer._analyze_node (plain_declaration T id) self
         = (Return tt, self')
         ∧ SymbolTable.lookup (current_symbol_table self') id (heap self')
           = (Return (mkSymbol T false), heap self')).
Proof.
  intros (Hwf & Hcur & Hglob). split.
  - intros l name Hl. by apply lookup_scope_chain.
  - intros T id table HT Hid Htable Hfresh.
    assert (SemanticAnalyzer.payload ("Type(" +:+ T +:+ ")") = Return T) as HpT.
    { unfold type_names in HT.
      repeat (apply elem_of_cons in HT as [->|HT]; [reflexivity|]).
      by apply elem_of_nil in HT. }
    assert (SemanticAnalyzer.payload ("Identifier(" +:+ id +:+ ")") = Return id)
      as Hpid by exact (payload_label "Identifier" id eq_refl Hid).
    eexists. split.
    + unfold plain_declaration. cbn [SemanticAnalyzer._analyze_node name].
      change (item (split "(" "VariableDeclaration") 0)
        with (Return (A:=string) "VariableDeclaration").
      unfold lift at 1. unfold mbind at 1, M_bind at 1.
      change (SemanticAnalyzer.analysis_method SemanticAnalyzer._analyze_node
                "VariableDeclaration")
        with SemanticAnalyzer._analyze_variable_declaration.
      unfold SemanticAnalyzer._analyze_variable_declaration,
        SemanticAnalyzer.child_payload.
      cbn [children item Leaf name lookup list_lookup length Nat.ltb Nat.leb].
      unfold_method. cbn [name Leaf]. rewrite HpT, Hpid.
      unfold SymbolTable.declare. cbn [heap current_symbol_table].
      rewrite Htable, Hfresh. reflexivity.
    + cbn [heap current_symbol_table global_symbol_table].
      unfold SymbolTable.lookup. f_equal.
      rewrite length_insert.
      destruct (length (heap self)) as [|n] eqn:Hn; [lia|].
      cbn [SymbolTable.lookup_rec].
      rewrite list_lookup_insert_eq by lia.
      cbn [symbols with_symbols]. by rewrite lookup_insert_eq.
Qed.

Lemma lookup_innermost_then_outward_witness :
  SymbolTable.lookup 1 "x" shadowing_heap
  = (Return (mkSymbol "int" false), shadowing_heap)
  ∧ SymbolTable.lookup 1 "y" shadowing_heap = (Raise (Undeclared "y"), shadowing_heap)
  ∧ ∃ self',
      SemanticAnalyzer._analyze_node (plain_declaration "char" "x")
        (mkSemanticAnalyzer shadowing_heap 0 1) = (Return tt, self')
      ∧ SymbolTable.lookup (current_symbol_table self') "x" (heap self')
        = (Return (mkSymbol "char" false), heap self').
Proof.
  assert (wf_analyzer (mkSemanticAnalyzer shadowing_heap 0 1)) as Hwf.
  { repeat split; simpl; lia. }
  destruct (lookup_innermost_then_outward _ Hwf) as [Hlookup Hdeclared].
  split; [|split].
  - apply (Hlookup 1 "x"). simpl. lia.
  - apply (Hlookup 1 "y"). simpl. lia.
  - apply (Hdeclared "char" "x" (mkSymbolTable ∅ (Some 0))).
    + unfold type_names. repeat constructor.
    + reflexivity.
    + reflexivity.
    + reflexivity.
Defined.

(* ===================================================================== *)
(** * Function calls                                                      *)
(* ===================================================================== *)

Section FunctionCalls.

Import SemanticAnalyzer.

Lemma resolve_None (chain : list SymbolTable) (name : string) :
  resolve chain name = None ↔ Forall (λ t, symbols t !! name = None) chain.
Proof.
  induction chain as [|t chain IH]; simpl.
  - split; [constructor | done].
  - destruct (symbols t !! name) eqn:Ht.
    + split; [done|]. intros H. inversion H; congruence.
    + rewrite IH. split; [by constructor | by inversion 1].
Qed.

Lemma analyze_node_FunctionCall (callee : ParseNode) (args : list ParseNode) :
  _analyze_node (Node "FunctionCall" (callee :: args))
  = _analyze_function_call (Node "FunctionCall" (callee :: args)).
Proof. reflexivity. Qed.

(** What a call does, read off the code: only the label of the first child
    and the tables of the store take part. *)
Lemma analyze_function_call_unfold
    (label : string) (callee : ParseNode) (args : list ParseNode)
    (self : SemanticAnalyzer) :
  _analyze_function_call (Node label (callee :: args)) self
  = match payload (name callee) with
    | Raise e => (Raise e, self)
    | Return func_name =>
        match SymbolTable.lookup_rec (length (heap self)) (heap self)
                (current_symbol_table self) func_name with
        | Return func_info =>
            if is_function func_info then (Return tt, self)
            else (Raise (NotAFunction func_name), self)
        | Raise (SemanticError e) =>
            (Raise (SemanticError ("Function call error: " +:+ e)), self)
        | Raise e => (Raise e, self)
        end
    end.
Proof.
  destruct self as [h g c].
  unfold _analyze_function_call, child_payload, SymbolTable.lookup.
  unfold_method. cbn [children item lookup list_lookup name heap
                      current_symbol_table global_symbol_table].
  destruct (payload (name callee)) as [func_name|e]; [|done].
  destruct (SymbolTable.lookup_rec (length h) h c func_name) as [info|e].
  - by destruct (is_function info).
  - by destruct e.
Qed.

End FunctionCalls.

(** C5. The analysis of a call whose callee is in no table of the chain of
    the current scope fails with the undeclared-symbol error; when the callee
    resolves to an entry with [is_function] false it fails with the
    not-a-function error; when it resolves to a function entry it raises
    nothing and leaves the analyzer as it was. *)
Theorem function_call_errors
    (self : SemanticAnalyzer) (callee : ParseNode) (args : list ParseNode)
    (func_name : string) :
  wf_analyzer self →
  SemanticAnalyzer.payload (name callee) = Return func_name →
  let call := Node "FunctionCall" (callee :: args) in
  (Forall (λ t, symbols t !! func_name = None) (visible self) →
   SemanticAnalyzer._analyze_node call self
   = (Raise (CallOfUndeclared func_name), self))
  ∧ (∀ info, resolve (visible self) func_name = Some info →
       is_function info = false →
       SemanticAnalyzer._analyze_node call self
       = (Raise (NotAFunction func_name), self))
  ∧ (∀ info, resolve (visible self) func_name = Some info →
       is_function info = true →
       SemanticAnalyzer._analyze_node call self = (Return tt, self)).
Proof.
  intros (Hwf & Hcur & _) Hname call. subst call.
  rewrite analyze_node_FunctionCall, analyze_function_call_unfold, Hname.
  rewrite lookup_rec_chain by (done || lia).
  fold (scope_chain (heap self) (current_symbol_table self)). fold (visible self).
  split; [|split].
  - intros Habsent. apply resolve_None in Habsent. by rewrite Habsent.
  - intros info -> Hinfo. by rewrite Hinfo.
  - intros info -> Hinfo. by rewrite Hinfo.
Qed.

Lemma sample_analyzer_wf : wf_analyzer sample_analyzer.
Proof. repeat split; simpl; lia. Defined.

Lemma function_call_errors_witness :
  SemanticAnalyzer._analyze_node
    (Node "FunctionCall" [Leaf "Identifier(y)"]) sample_analyzer
  = (Raise (CallOfUndeclared "y"), sample_analyzer)
  ∧ SemanticAnalyzer._analyze_node
      (Node "FunctionCall" [Leaf "Identifier(x)"]) sample_analyzer
    = (Raise (NotAFunction "x"), sample_analyzer)
  ∧ SemanticAnalyzer._analyze_node
      (Node "FunctionCall" [Leaf "Identifier(printf)"; Leaf "Identifier(x)"])
      sample_analyzer
    = (Return tt, sample_analyzer).
Proof.
  split; [|split].
  - apply (function_call_errors sample_analyzer (Leaf "Identifier(y)") [] "y"
             sample_analyzer_wf eq_refl).
    vm_compute. repeat constructor.
  - apply (function_call_errors sample_analyzer (Leaf "Identifier(x)") [] "x"
             sample_analyzer_wf eq_refl) with (info := mkSymbol "int" false);
      reflexivity.
  - apply (function_call_errors sample_analyzer (Leaf "Identifier(printf)")
             [Leaf "Identifier(x)"] "printf" sample_analyzer_wf eq_refl)
      with (info := mkSymbol "int" true); reflexivity.
Defined.

(** C9. The analysis of a call reads its first child only: two calls with the
    same callee and any two argument lists have the same outcome and leave
    the same state.  So a call whose callee resolves to a function entry
    succeeds and leaves the analyzer unchanged whatever its arguments are,
    undeclared identifiers and erroneous nested calls included. *)
Theorem function_call_arguments_not_analyzed
    (self : SemanticAnalyzer) (callee : ParseNode) (args args' : list ParseNode) :
  SemanticAnalyzer._analyze_node (Node "FunctionCall" (callee :: args)) self
  = SemanticAnalyzer._analyze_node (Node "FunctionCall" (callee :: args')) self
  ∧ (∀ func_name info,
       wf_analyzer self →
       SemanticAnalyzer.payload (name callee) = Return func_name →
       resolve (visible self) func_name = Some info →
       is_function info = true →
       SemanticAnalyzer._analyze_node (Node "FunctionCall" (callee :: args)) self
       = (Return tt, self)).
Proof.
  split.
  - by rewrite !analyze_node_FunctionCall, !analyze_function_call_unfold.
  - intros func_name info (Hwf & Hcur & _) Hname Hinfo Hfun.
    rewrite analyze_node_FunctionCall, analyze_function_call_unfold, Hname.
    rewrite lookup_rec_chain by (done || lia).
    fold (scope_chain (heap self) (current_symbol_table self)).
    fold (visible self). by rewrite Hinfo, Hfun.
Qed.

Lemma function_call_arguments_not_analyzed_witness :
  SemanticAnalyzer._analyze_node call_with_bad_arguments sample_analyzer
  = (Return tt, sample_analyzer)
  ∧ (SemanticAnalyzer._analyze_node
       (Node "FunctionCall" [Leaf "Identifier(missing)"; Leaf "Identifier(x)"])
       sample_analyzer).1
    = Raise (CallOfUndeclared "missing").
Proof.
  split.
  - apply (function_call_arguments_not_analyzed sample_analyzer
             (Leaf "Identifier(printf)")
             [Leaf "Identifier(nowhere)";
              Node "FunctionCall" [Leaf "Identifier(missing)"; Leaf "Identifier(x)"]]
             [])
      with (func_name := "printf") (info := mkSymbol "int" true);
      try reflexivity.
    exact sample_analyzer_wf.
  - reflexivity.
Defined.

(* ===================================================================== *)
(** * Initializers                                                        *)
(* ===================================================================== *)

Section Initializers.

Import SemanticAnalyzer.

Lemma is_compatible_type_accepts (type1 type2 : string) :
  _is_compatible_type type1 type2 = true ↔ accepts type1 type2.
Proof.
  split.
  - unfold _is_compatible_type, compatible_types. cbn [dict_get].
    repeat match goal with
           | |- context [String.eqb type1 ?t] =>
               destruct (String.eqb_spec type1 t) as [->|_]
           end;
      cbn [existsb orb];
      repeat match goal with
             | |- context [String.eqb type2 ?t] =>
                 destruct (String.eqb_spec type2 t) as [->|_]
             end;
      (done || (intros _; constructor)).
  - by destruct 1.
Qed.

Lemma is_compatible_type_rejects (type1 type2 : string) :
  _is_compatible_type type1 type2 = false ↔ ¬ accepts type1 type2.
Proof.
  rewrite <- is_compatible_type_accepts. by destruct (_is_compatible_type _ _).
Qed.

(** What the check of an initializer does, read off the code.  It never
    changes the analyzer. *)
Lemma type_check_assignment_unfold
    (expected_type : string) (value_node : ParseNode) (self : SemanticAnalyzer) :
  _type_check_assignment expected_type value_node self
  = if startswith (name value_node) "Number" then
      match _infer_number_type value_node with
      | Return value_type =>
          if _is_compatible_type expected_type value_type then (Return tt, self)
          else (Raise (SemanticError (TypeMismatch value_type expected_type)), self)
      | Raise e => (Raise e, self)
      end
    else if startswith (name value_node) "Identifier" then
      match payload (name value_node) with
      | Return var_name =>
          match SymbolTable.lookup_rec (length (heap self)) (heap self)
                  (current_symbol_table self) var_name with
          | Return var_info =>
              if _is_compatible_type expected_type (type var_info)
              then (Return tt, self)
              else (Raise (SemanticError
                             ("Assignment error: "
                              +:+ TypeMismatch (type var_info) expected_type)),
                    self)
          | Raise (SemanticError e) =>
              (Raise (SemanticError ("Assignment error: " +:+ e)), self)
          | Raise e => (Raise e, self)
          end
      | Raise e => (Raise e, self)
      end
    else (Return tt, self).
Proof.
  destruct self as [h g c]. unfold _type_check_assignment.
  destruct (startswith (name value_node) "Number").
  { unfold_method. destruct (_infer_number_type value_node) as [vt|e]; [|done].
    by destruct (_is_compatible_type expected_type vt). }
  destruct (startswith (name value_node) "Identifier"); [|done].
  unfold SymbolTable.lookup. unfold_method.
  cbn [heap current_symbol_table global_symbol_table].
  destruct (payload (name value_node)) as [var_name|e]; [|done].
  destruct (SymbolTable.lookup_rec (length h) h c var_name) as [info|e].
  - by destruct (_is_compatible_type expected_type (type info)).
  - by destruct e.
Qed.

Lemma type_check_assignment_state
    (expected_type : string) (value_node : ParseNode) (self : SemanticAnalyzer) :
  (_type_check_assignment expected_type value_node self).2 = self.
Proof.
  rewrite type_check_assignment_unfold.
  repeat match goal with
         | |- context [match ?x with _ => _ end] => destruct x
         end; done.
Qed.

(** A declaration with an initializer runs the check first and declares
    the name only when the check returned. *)
Lemma analyze_variable_declaration_unfold
    (node init_node : ParseNode) (var_type var_name : string)
    (self : SemanticAnalyzer) :
  child_payload node 0 = Return var_type →
  child_payload node 1 = Return var_name →
  children node !! 2 = Some init_node →
  _analyze_variable_declaration node self
  = match (_type_check_assignment var_type init_node self).1 with
    | Return _ =>
        on_heap (SymbolTable.declare (current_symbol_table self)
                   var_name var_type false) self
    | Raise e => (Raise e, self)
    end.
Proof.
  intros Htype Hname Hinit.
  pose proof (type_check_assignment_state var_type init_node self) as Hstate.
  assert ((2 <? length (children node))%nat = true) as Hlen.
  { apply Nat.ltb_lt. by apply lookup_lt_Some in Hinit. }
  unfold _analyze_variable_declaration.
  rewrite Htype, Hname, Hlen. unfold item. rewrite Hinit.
  unfold_method.
  destruct (_type_check_assignment var_type init_node self) as [[[]|e] self'];
    simpl in Hstate; by subst self'.
Qed.

End Initializers.

(** C2. Compatibility is the fixed relation [accepts]: [int] takes [int];
    [float] takes [int] and [float]; [double] takes [int], [float] and
    [double]; [char] takes [char]; nothing else is compatible.  The check of
    an initializer returns when the declared type accepts the type of the
    value (the inferred type of a number, the declared type of an
    identifier) and fails with the type-mismatch error otherwise.  So the
    texts [int x = 5;] and [double y = 5;] pass the analysis, and an [int]
    initialized with a double literal fails with the type mismatch: the
    text [int x = 1e5;], and the declaration whose initializer is the node
    [Number(5.0)]. *)
Theorem initializer_compatibility
    (self : SemanticAnalyzer) (expected_type : string) (value_node : ParseNode) :
  (∀ type1 type2,
     SemanticAnalyzer._is_compatible_type type1 type2 = true ↔ accepts type1 type2)
  ∧ (∀ value_type,
       startswith (name value_node) "Number" = true →
       SemanticAnalyzer._infer_number_type value_node = Return value_type →
       (accepts expected_type value_type →
        SemanticAnalyzer._type_check_assignment expected_type value_node self
        = (Return tt, self))
       ∧ (¬ accepts expected_type value_type →
          SemanticAnalyzer._type_check_assignment expected_type value_node self
          = (Raise (SemanticError (TypeMismatch value_type expected_type)), self)))
  ∧ (∀ var_name var_info,
       wf_analyzer self →
       startswith (name value_node) "Number" = false →
       startswith (name value_node) "Identifier" = true →
       SemanticAnalyzer.payload (name value_node) = Return var_name →
       resolve (visible self) var_name = Some var_info →
       (accepts expected_type (type var_info) →
        SemanticAnalyzer._type_check_assignment expected_type value_node self
        = (Return tt, self))
       ∧ (¬ accepts expected_type (type var_info) →
          SemanticAnalyzer._type_check_assignment expected_type value_node self
          = (Raise (SemanticError
                      ("Assignment error: "
                       +:+ TypeMismatch (type var_info) expected_type)), self)))
  ∧ analyze_source "int x = 5;" = Return (global_symbol_table initial_analyzer)
  ∧ analyze_source "double y = 5;" = Return (global_symbol_table initial_analyzer)
  ∧ analyze_source "int x = 1e5;"
    = Raise (SemanticError (TypeMismatch "double" "int"))
  ∧ SemanticAnalyzer._analyze_node
      (initialized_declaration "int" "x" (Leaf "Number(5.0)")) initial_analyzer
    = (Raise (SemanticError (TypeMismatch "double" "int")), initial_analyzer).
Proof.
  split; [apply is_compatible_type_accepts|].
  split; [|split; [|by vm_compute]].
  - intros value_type Hnumber Hinfer.
    rewrite type_check_assignment_unfold, Hnumber, Hinfer.
    split.
    + intros H%is_compatible_type_accepts. by rewrite H.
    + intros H%is_compatible_type_rejects. by rewrite H.
  - intros var_name var_info (Hwf & Hcur & _) Hnumber Hident Hname Hinfo.
    rewrite type_check_assignment_unfold, Hnumber, Hident, Hname.
    rewrite lookup_rec_chain by (done || lia).
    fold (scope_chain (heap self) (current_symbol_table self)).
    fold (visible self). rewrite Hinfo.
    split.
    + intros H%is_compatible_type_accepts. by rewrite H.
    + intros H%is_compatible_type_rejects. by rewrite H.
Qed.

Lemma initializer_compatibility_witness :
  SemanticAnalyzer._type_check_assignment "int" (Leaf "Number(5.0)") sample_analyzer
  = (Raise (SemanticError (TypeMismatch "double" "int")), sample_analyzer)
  ∧ SemanticAnalyzer._type_check_assignment "float" (Leaf "Number(5)") sample_analyzer
    = (Return tt, sample_analyzer)
  ∧ SemanticAnalyzer._type_check_assignment "double" (Leaf "Identifier(x)")
      sample_analyzer
    = (Return tt, sample_analyzer)
  ∧ SemanticAnalyzer._type_check_assignment "char" (Leaf "Identifier(x)")
      sample_analyzer
    = (Raise (SemanticError ("Assignment error: " +:+ TypeMismatch "int" "char")),
       sample_analyzer).
Proof.
  split; [|split; [|split]].
  - destruct (initializer_compatibility sample_analyzer "int" (Leaf "Number(5.0)"))
      as (_ & Hnumber & _).
    apply (Hnumber "double" eq_refl eq_refl). inversion 1.
  - destruct (initializer_compatibility sample_analyzer "float" (Leaf "Number(5)"))
      as (_ & Hnumber & _).
    apply (Hnumber "int" eq_refl eq_refl). constructor.
  - destruct (initializer_compatibility sample_analyzer "double"
                (Leaf "Identifier(x)")) as (_ & _ & Hident & _).
    apply (Hident "x" (mkSymbol "int" false) sample_analyzer_wf
             eq_refl eq_refl eq_refl eq_refl).
    constructor.
  - destruct (initializer_compatibility sample_analyzer "char"
                (Leaf "Identifier(x)")) as (_ & _ & Hident & _).
    apply (Hident "x" (mkSymbol "int" false) sample_analyzer_wf
             eq_refl eq_refl eq_refl eq_refl).
    inversion 1.
Defined.

(** C3. In the analysis of a declaration with an initializer the check of
    the initializer runs first: when it raises, the declaration raises the
    same error and nothing is declared; the name is declared in the current
    table only after the check has returned.  So [T x = x;], where no visible
    scope declares [x], fails with the undeclared-symbol error and leaves the
    analyzer as it was; the text [int x = x;] fails in this way. *)
Theorem initializer_checked_before_declaration (self : SemanticAnalyzer) :
  (∀ node init_node var_type var_name,
     SemanticAnalyzer.child_payload node 0 = Return var_type →
     SemanticAnalyzer.child_payload node 1 = Return var_name →
     children node !! 2 = Some init_node →
     (∀ e, (SemanticAnalyzer._type_check_assignment var_type init_node self).1
           = Raise e →
           SemanticAnalyzer._analyze_variable_declaration node self
           = (Raise e, self))
     ∧ ((SemanticAnalyzer._type_check_assignment var_type init_node self).1
        = Return tt →
        SemanticAnalyzer._analyze_variable_declaration node self
        = SemanticAnalyzer.on_heap
            (SymbolTable.declare (current_symbol_table self) var_name var_type false)
            self))
  ∧ (∀ T x,
       wf_analyzer self → no_bracket T = true → no_bracket x = true →
       Forall (λ t, symbols t !! x = None) (visible self) →
       SemanticAnalyzer._analyze_node
         (initialized_declaration T x (Leaf ("Identifier(" +:+ x +:+ ")"))) self
       = (Raise (SemanticError ("Assignment error: Undeclared symbol '"
                                +:+ x +:+ "'")), self))
  ∧ analyze_source "int x = x;"
    = Raise (SemanticError "Assignment error: Undeclared symbol 'x'").
Proof.
  split; [|split; [|reflexivity]].
  - intros node init_node var_type var_name Htype Hname Hinit.
    rewrite (analyze_variable_declaration_unfold _ _ _ _ _ Htype Hname Hinit).
    split.
    + by intros e ->.
    + by intros ->.
  - intros T x (Hwf & Hcur & _) HT Hx Habsent.
    pose proof (payload_label "Type" T eq_refl HT) as HpT.
    pose proof (payload_label "Identifier" x eq_refl Hx) as Hpx.
    change (SemanticAnalyzer._analyze_node (initialized_declaration T x
              (Leaf ("Identifier(" +:+ x +:+ ")"))))
      with (SemanticAnalyzer._analyze_variable_declaration
              (initialized_declaration T x (Leaf ("Identifier(" +:+ x +:+ ")")))).
    rewrite (analyze_variable_declaration_unfold _
               (Leaf ("Identifier(" +:+ x +:+ ")")) T x);
      [| exact HpT | exact Hpx | reflexivity].
    rewrite type_check_assignment_unfold.
    change (startswith (name (Leaf ("Identifier(" +:+ x +:+ ")"))) "Number")
      with false.
    change (startswith (name (Leaf ("Identifier(" +:+ x +:+ ")"))) "Identifier")
      with true.
    cbn [name Leaf]. cbv iota.
    change (SemanticAnalyzer.payload ("Identifier(" +:+ x +:+ ")"))
      with (SemanticAnalyzer.payload ("Identifier" +:+ "(" +:+ x +:+ ")")).
    rewrite Hpx. rewrite lookup_rec_chain by (done || lia).
    apply resolve_None in Habsent. unfold visible, scope_chain in Habsent.
    by rewrite Habsent.
Qed.

Lemma initializer_checked_before_declaration_witness :
  SemanticAnalyzer._analyze_node
    (initialized_declaration "int" "y" (Leaf "Identifier(y)")) sample_analyzer
  = (Raise (SemanticError "Assignment error: Undeclared symbol 'y'"),
     sample_analyzer)
  ∧ SemanticAnalyzer._analyze_variable_declaration
      (initialized_declaration "char" "c" (Leaf "Number(5)")) sample_analyzer
    = (Raise (SemanticError (TypeMismatch "int" "char")), sample_analyzer)
  ∧ (SemanticAnalyzer._analyze_variable_declaration
       (initialized_declaration "int" "y" (Leaf "Identifier(x)")) sample_analyzer).1
    = Return tt.
Proof.
  destruct (initializer_checked_before_declaration sample_analyzer)
    as (Hfirst & Hself & _).
  split; [|split].
  - apply (Hself "int" "y" sample_analyzer_wf eq_refl eq_refl).
    vm_compute. repeat constructor.
  - destruct (Hfirst (initialized_declaration "char" "c" (Leaf "Number(5)"))
                (Leaf "Number(5)") "char" "c" eq_refl eq_refl eq_refl)
      as [Hraise _].
    apply Hraise. reflexivity.
  - destruct (Hfirst (initialized_declaration "int" "y" (Leaf "Identifier(x)"))
                (Leaf "Identifier(x)") "int" "y" eq_refl eq_refl eq_refl)
      as [_ Hreturn].
    rewrite Hreturn; reflexivity.
Defined.

(* ===================================================================== *)
(** * The constructor and the whole pipeline                              *)
(* ===================================================================== *)

(** C10. [SemanticAnalyzer({})] builds the same object as
    [SemanticAnalyzer()]: the empty mapping is false in [or], so the default
    functions are declared, and the global scope holds [printf], [puts],
    [getchar] and [scanf], each [{type: int, is_function: true}], and
    nothing else.  A mapping with an item is taken as it is. *)
Theorem empty_predefined_functions_fall_back_to_default :
  SemanticAnalyzer.__init__ (Some []) = SemanticAnalyzer.__init__ None
  ∧ SemanticAnalyzer.__init__ (Some [])
    = (Return tt, mkSemanticAnalyzer [default_global_scope] 0 0)
  ∧ map (λ name, symbols default_global_scope !! name)
      ["printf"; "puts"; "getchar"; "scanf"; "main"]
    = [Some (mkSymbol "int" true); Some (mkSymbol "int" true);
       Some (mkSymbol "int" true); Some (mkSymbol "int" true); None]
  ∧ ∀ item items,
      SemanticAnalyzer.or_default (Some (item :: items)) = item :: items.
Proof.
  split; [reflexivity|]. split; [by vm_compute|]. split; [by vm_compute|].
  reflexivity.
Qed.

(** C1. The text [int main() { int x = 5; printf(x); }] is tokenized,
    parsed and analyzed with the default predefined functions without an
    error; the table returned is the global one, which is the predefined
    table with [main] added: [main] is [{type: int, is_function: true}],
    [printf] is still the predefined [{type: int, is_function: true}], and
    [x] is absent. *)
Theorem example_program_analysis :
  ∃ tokens tree self self' global table,
    Lexer example_source = Return tokens
    ∧ Parser.parse_program tokens = Return tree
    ∧ SemanticAnalyzer.__init__ None = (Return tt, self)
    ∧ SemanticAnalyzer.analyze tree self = (Return global, self')
    ∧ global = global_symbol_table self
    ∧ heap self' !! global = Some table
    ∧ table = declared "main" "int" true default_global_scope
    ∧ symbols table !! "main" = Some (mkSymbol "int" true)
    ∧ symbols table !! "printf" = Some (mkSymbol "int" true)
    ∧ symbols table !! "x" = None.
Proof.
  eexists _, example_tree, _, _, _, _.
  split; [by vm_compute|]. split; [by vm_compute|].
  split; [by vm_compute|]. split; [by vm_compute|].
  split; [reflexivity|]. split; [by vm_compute|]. split; [reflexivity|].
  split; [by vm_compute|]. split; by vm_compute.
Qed.

(* ===================================================================== *)
(** * The frame of an analysis                                            *)
(* ===================================================================== *)

Section Frame.

Import SemanticAnalyzer.

Lemma frame_refl (self : SemanticAnalyzer) : wf_analyzer self → frame self self.
Proof.
  intros Hwf. split; try done.
  intros table Ht. by exists table.
Qed.

Lemma frame_trans (a b c : SemanticAnalyzer) :
  frame a b → current_symbol_table b = current_symbol_table a →
  frame b c → frame a c.
Proof.
  intros [Hwf Hg Hlen Hothers Hcur] Hsame [Hwf' Hg' Hlen' Hothers' Hcur'].
  split.
  - done.
  - congruence.
  - lia.
  - intros l Hl Hne. rewrite Hothers' by (lia || congruence). by apply Hothers.
  - intros table Ht.
    destruct (Hcur table Ht) as (tb & Htb & Hp & Hsub).
    rewrite <- Hsame in Htb.
    destruct (Hcur' tb Htb) as (tc & Htc & Hp' & Hsub').
    rewrite Hsame in Htc. exists tc. split; [done|]. split; [congruence|].
    by transitivity (symbols tb).
Qed.

Lemma framed_ret : framed (mret tt).
Proof. intros self o self' Hwf [= <- <-]. split; [by apply frame_refl | done]. Qed.

Lemma framed_raise (e : exn) : framed (raise e).
Proof. intros self o self' Hwf [= <- <-]. split; [by apply frame_refl | done]. Qed.

Lemma framed_lift_bind {A} (o : outcome A) (f : A → M SemanticAnalyzer unit) :
  (∀ a, framed (f a)) → framed (lift o ≫= f).
Proof.
  intros Hf. destruct o as [a|e].
  - apply Hf.
  - apply (framed_raise e).
Qed.

Lemma framed_seq (m k : M SemanticAnalyzer unit) :
  framed m → framed k → framed (m ;; k).
Proof.
  intros Hm Hk self o self'' Hwf Hrun.
  apply bind_inv in Hrun as [(a & self' & Hrun & Hrun')|(e & Hrun & ->)].
  - destruct a. destruct (Hm _ _ _ Hwf Hrun) as [Hframe Hcur].
    specialize (Hcur eq_refl).
    destruct (Hk _ _ _ (frame_wf _ _ Hframe) Hrun') as [Hframe' Hcur'].
    split; [by eapply frame_trans|]. intros Ho. rewrite Hcur' by done. done.
  - destruct (Hm _ _ _ Hwf Hrun) as [Hframe _]. by split.
Qed.

Lemma framed_for_each (f : ParseNode → M SemanticAnalyzer unit)
    (nodes : list ParseNode) :
  Forall (λ node, framed (f node)) nodes → framed (for_each f nodes).
Proof.
  induction 1 as [|node nodes Hnode _ IH]; cbn [for_each].
  - apply framed_ret.
  - by apply framed_seq.
Qed.

Lemma framed_unchanged (m : M SemanticAnalyzer unit) :
  (∀ self, (m self).2 = self) → framed m.
Proof.
  intros Hm self o self' Hwf Hrun.
  pose proof (Hm self) as Hstate. rewrite Hrun in Hstate. simpl in Hstate.
  subst self'. split; [by apply frame_refl | done].
Qed.

End Frame.

Section FrameOfMethods.

Import SemanticAnalyzer.

Lemma wf_heap_insert (heap : list SymbolTable) (l : loc) (table table' : SymbolTable) :
  wf_heap heap → heap !! l = Some table → parent table' = parent table →
  wf_heap (<[l := table']> heap).
Proof.
  intros Hwf Hl Hparent. apply wf_heap_intro. intros k t p Hk Hp.
  destruct (decide (k = l)) as [->|Hne].
  - rewrite list_lookup_insert_eq in Hk by (by eapply lookup_lt_Some).
    injection Hk as <-. rewrite Hparent in Hp.
    by eapply wf_heap_parent.
  - rewrite list_lookup_insert_ne in Hk by done. by eapply wf_heap_parent.
Qed.

Lemma wf_heap_app (heap : list SymbolTable) (m : gmap string Symbol) (p : loc) :
  wf_heap heap → p < length heap →
  wf_heap (heap ++ [mkSymbolTable m (Some p)]).
Proof.
  intros Hwf Hp. apply wf_heap_intro. intros k t q Hk Hq.
  destruct (decide (k < length heap)) as [Hlt|Hge].
  - rewrite lookup_app_l in Hk by done. by eapply wf_heap_parent.
  - rewrite lookup_app_r in Hk by lia.
    destruct (k - length heap) as [|n] eqn:Hn; simpl in Hk; [|by destruct n].
    injection Hk as <-. simpl in Hq. injection Hq as <-. lia.
Qed.

Lemma declare_unfold (self : loc) (name type_name : string) (is_function : bool)
    (heap : list SymbolTable) (table : SymbolTable) :
  heap !! self = Some table →
  SymbolTable.declare self name type_name is_function heap
  = match symbols table !! name with
    | Some _ => (Raise (AlreadyDeclared name), heap)
    | None => (Return tt, <[self := declared name type_name is_function table]> heap)
    end.
Proof. intros Hself. unfold SymbolTable.declare. by rewrite Hself. Qed.

Lemma framed_declare_current (name type_name : string) (is_function : bool) :
  framed (table ← get_current_symbol_table;
          on_heap (SymbolTable.declare table name type_name is_function)).
Proof.
  intros [h g c] o self' (Hwf & Hcur & Hglob) Hrun.
  cbn [heap current_symbol_table global_symbol_table] in *.
  destruct (lookup_lt_is_Some_2 h c Hcur) as [table Ht].
  unfold_method. cbn [heap current_symbol_table global_symbol_table] in Hrun.
  rewrite (declare_unfold _ _ _ _ _ _ Ht) in Hrun.
  destruct (symbols table !! name) eqn:Hname; injection Hrun as <- <-.
  - split; [|done]. by apply frame_refl.
  - split; [|done]. split; cbn [heap current_symbol_table global_symbol_table].
    + repeat split; cbn [heap current_symbol_table global_symbol_table];
        rewrite ?length_insert; try done.
      by eapply wf_heap_insert.
    + done.
    + by rewrite length_insert.
    + intros l _ Hne. by rewrite list_lookup_insert_ne.
    + intros t Ht'. assert (t = table) as -> by congruence.
      exists (declared name type_name is_function table).
      rewrite list_lookup_insert_eq by done. split; [done|]. split; [done|].
      by apply insert_subseteq.
Qed.

Lemma analyze_function_call_state (node : ParseNode) (self : SemanticAnalyzer) :
  (_analyze_function_call node self).2 = self.
Proof.
  destruct node as [label [|callee args]].
  - by destruct self.
  - rewrite analyze_function_call_unfold.
    repeat match goal with
           | |- context [match ?x with _ => _ end] => destruct x
           end; done.
Qed.

Lemma framed_analyze_variable_declaration (node : ParseNode) :
  framed (_analyze_variable_declaration node).
Proof.
  unfold _analyze_variable_declaration.
  apply framed_lift_bind. intros var_type.
  apply framed_lift_bind. intros var_name.
  apply framed_seq; [|apply framed_declare_current].
  destruct (2 <? length (children node))%nat; [|apply framed_ret].
  apply framed_lift_bind. intros init_node.
  apply framed_unchanged. intros self. apply type_check_assignment_state.
Qed.

Lemma frame_enter (self : SemanticAnalyzer) :
  wf_analyzer self → frame self (enter self).
Proof.
  intros (Hwf & Hcur & Hglob). split; unfold enter;
    cbn [heap current_symbol_table global_symbol_table].
  - repeat split; cbn [heap current_symbol_table global_symbol_table];
      rewrite ?length_app; simpl; try lia.
    by apply wf_heap_app.
  - done.
  - rewrite length_app. lia.
  - intros l Hl _. by rewrite lookup_app_l.
  - intros table Ht. exists table. by rewrite lookup_app_l.
Qed.

(** Work in a scope created after [self] leaves the tables of [self]
    alone. *)
Lemma frame_into_scope (self inner self' : SemanticAnalyzer) :
  frame self inner → length (heap self) ≤ current_symbol_table inner →
  frame inner self' → frame self self'.
Proof.
  intros [Hwf Hg Hlen Hothers Hcur] Hnew [Hwf' Hg' Hlen' Hothers' Hcur'].
  split.
  - done.
  - congruence.
  - lia.
  - intros l Hl Hne. rewrite Hothers' by lia. by apply Hothers.
  - intros table Ht. pose proof (lookup_lt_Some _ _ _ Ht) as Hlt.
    destruct (Hcur table Ht) as (table' & Ht' & Hp & Hsub).
    exists table'. by rewrite Hothers' by lia.
Qed.

Lemma frame_leave (self self' : SemanticAnalyzer) (table : loc) :
  frame self self' → table < length (heap self') → frame self (leave table self').
Proof.
  intros [(Hwf & Hc & Hg) Hglob Hlen Hothers Hcur] Htable.
  by split.
Qed.

End FrameOfMethods.

Section FrameOfFunctions.

Import SemanticAnalyzer.

(** The steps of [_analyze_function], read off the code. *)
Lemma analyze_function_unfold
    (analyze_node : ParseNode → M SemanticAnalyzer unit)
    (node : ParseNode) (self : SemanticAnalyzer) :
  _analyze_function analyze_node node self
  = match child_payload node 0 with
    | Raise e => (Raise e, self)
    | Return return_type =>
        match child_payload node 1 with
        | Raise e => (Raise e, self)
        | Return func_name =>
            match on_heap (SymbolTable.declare (current_symbol_table self)
                             func_name return_type true) (enter self) with
            | (Raise e, inside) => (Raise e, inside)
            | (Return _, inside) =>
                match children node with
                | _ :: _ :: body :: _ =>
                    match analyze_node body inside with
                    | (Return _, inside') =>
                        (Return tt, leave (current_symbol_table self) inside')
                    | (Raise e, inside') => (Raise e, inside')
                    end
                | _ => (Raise (IndexError "list index out of range"), inside)
                end
            end
        end
    end.
Proof.
  destruct self as [h g c]. unfold _analyze_function, SymbolTable.__init__, enter.
  unfold_method. cbn [heap current_symbol_table global_symbol_table].
  destruct (child_payload node 0) as [return_type|e]; [|done].
  destruct (child_payload node 1) as [func_name|e]; [|done].
  destruct (SymbolTable.declare c func_name return_type true _) as [[[]|e] h'];
    [|done].
  by destruct (children node) as [|c0 [|c1 [|body rest]]].
Qed.

(** The state in which the body is analyzed, when the declaration of the
    function returned. *)
Lemma declare_on_entry (self : SemanticAnalyzer) (table : SymbolTable)
    (func_name return_type : string) :
  heap self !! current_symbol_table self = Some table →
  on_heap (SymbolTable.declare (current_symbol_table self)
             func_name return_type true) (enter self)
  = match symbols table !! func_name with
    | Some _ => (Raise (AlreadyDeclared func_name), enter self)
    | None =>
        (Return tt,
         mkSemanticAnalyzer
           (<[current_symbol_table self
              := declared func_name return_type true table]>
              (heap (enter self)))
           (global_symbol_table self) (length (heap self)))
    end.
Proof.
  intros Ht. unfold on_heap.
  rewrite (declare_unfold _ _ _ _ _ table).
  - by destruct (symbols table !! func_name).
  - unfold enter. cbn [heap]. rewrite lookup_app_l; [done|].
    by eapply lookup_lt_Some.
Qed.

Lemma frame_declare_on_entry (self : SemanticAnalyzer) (table : SymbolTable)
    (func_name return_type : string) :
  wf_analyzer self →
  heap self !! current_symbol_table self = Some table →
  symbols table !! func_name = None →
  frame self
    (mkSemanticAnalyzer
       (<[current_symbol_table self := declared func_name return_type true table]>
          (heap (enter self)))
       (global_symbol_table self) (length (heap self))).
Proof.
  intros Hwf Ht Hfresh. pose proof (frame_enter self Hwf) as [Hwf' _ _ _ _].
  destruct Hwf as (Hwf & Hcur & Hglob). destruct Hwf' as (Hwf' & Hcur' & Hglob').
  unfold enter in *. cbn [heap current_symbol_table global_symbol_table] in *.
  assert ((heap self ++ [mkSymbolTable ∅ (Some (current_symbol_table self))])
            !! current_symbol_table self = Some table) as Ht'
    by (by rewrite lookup_app_l).
  split; cbn [heap current_symbol_table global_symbol_table].
  - repeat split; cbn [heap current_symbol_table global_symbol_table];
      rewrite ?length_insert; try done.
    by eapply wf_heap_insert.
  - done.
  - rewrite length_insert, length_app. lia.
  - intros l Hl Hne. rewrite list_lookup_insert_ne by done. by rewrite lookup_app_l.
  - intros t Ht''. assert (t = table) as -> by congruence.
    exists (declared func_name return_type true table).
    rewrite list_lookup_insert_eq by (rewrite length_app; lia).
    split; [done|]. split; [done|]. by apply insert_subseteq.
Qed.

Lemma framed_analyze_function
    (analyze_node : ParseNode → M SemanticAnalyzer unit) (node : ParseNode) :
  (∀ body, children node !! 2 = Some body → framed (analyze_node body)) →
  framed (_analyze_function analyze_node node).
Proof.
  intros Hbody self o self' Hwf Hrun.
  rewrite analyze_function_unfold in Hrun.
  destruct (child_payload node 0) as [return_type|e];
    [|injection Hrun as <- <-; split; [by apply frame_refl | done]].
  destruct (child_payload node 1) as [func_name|e];
    [|injection Hrun as <- <-; split; [by apply frame_refl | done]].
  pose proof Hwf as (_ & Hcur & _).
  destruct (lookup_lt_is_Some_2 _ _ Hcur) as [table Ht].
  rewrite (declare_on_entry _ _ _ _ Ht) in Hrun.
  destruct (symbols table !! func_name) eqn:Hfresh.
  { injection Hrun as <- <-. split; [by apply frame_enter | done]. }
  pose proof (frame_declare_on_entry _ _ func_name return_type Hwf Ht Hfresh)
    as Hinside.
  destruct (children node) as [|c0 [|c1 [|body rest]]] eqn:Hchildren;
    try (injection Hrun as <- <-; by split).
  specialize (Hbody body eq_refl).
  destruct (analyze_node body _) as [[[]|e] inside'] eqn:Hbodyrun;
    injection Hrun as <- <-;
    destruct (Hbody _ _ _ (frame_wf _ _ Hinside) Hbodyrun) as [Hframe Hrestored].
  - split; [|done]. apply frame_leave.
    + eapply frame_into_scope; [exact Hinside | | exact Hframe]. done.
    + pose proof (frame_length _ _ Hframe) as Hlen.
      cbn [heap] in Hlen. rewrite length_insert in Hlen.
      unfold enter in Hlen. cbn [heap] in Hlen. rewrite length_app in Hlen. lia.
  - split; [|done].
    eapply frame_into_scope; [exact Hinside | | exact Hframe]. done.
Qed.

(** Every analysis stays inside the frame. *)
Lemma analyze_node_framed (node : ParseNode) : framed (_analyze_node node).
Proof.
  induction node as [label nodes IH] using ParseNode_ind.
  cbn [_analyze_node]. apply framed_lift_bind. intros kind.
  unfold analysis_method.
  repeat match goal with
         | |- context [String.eqb kind ?k] => destruct (String.eqb kind k)
         end.
  - by apply framed_for_each.
  - apply framed_analyze_function. intros body Hbody.
    cbn [children] in Hbody.
    by eapply (proj1 (Forall_lookup _ _)) in IH.
  - apply framed_analyze_variable_declaration.
  - apply framed_unchanged. intros self. apply analyze_function_call_state.
  - by apply framed_for_each.
  - by apply framed_for_each.
Qed.

End FrameOfFunctions.

Section VisibleScopes.

Lemma scope_chain_agree (heap heap' : list SymbolTable) (l : loc) :
  wf_heap heap → l < length heap →
  (∀ r, r ≤ l → heap' !! r = heap !! r) →
  scope_chain heap' l = scope_chain heap l.
Proof.
  intros Hwf Hl Hsame. unfold scope_chain.
  apply chain_rec_agree; try done; try lia.
  assert (is_Some (heap' !! l)) as Hsome.
  { rewrite Hsame by done. by apply lookup_lt_is_Some_2. }
  apply lookup_lt_is_Some_1 in Hsome. lia.
Qed.

Lemma scope_chain_unfold (heap : list SymbolTable) (l : loc) (table : SymbolTable) :
  wf_heap heap → heap !! l = Some table →
  scope_chain heap l
  = table :: match parent table with
             | Some p => scope_chain heap p
             | None => []
             end.
Proof.
  intros Hwf Ht. pose proof (lookup_lt_Some _ _ _ Ht) as Hl.
  destruct (parent table) as [p|] eqn:Hp.
  - pose proof (wf_heap_parent _ _ _ _ Hwf Ht Hp).
    unfold scope_chain at 1. destruct (length heap) as [|n] eqn:Hfuel; [lia|].
    cbn [chain_rec]. rewrite Ht, Hp.
    f_equal. unfold scope_chain. apply chain_rec_agree; try done; lia.
  - unfold scope_chain. destruct (length heap); cbn [chain_rec];
      by rewrite Ht, Hp.
Qed.

End VisibleScopes.

Lemma sees_resolve (self : SemanticAnalyzer) (name : string) :
  wf_analyzer self →
  sees self name
  = match resolve (visible self) name with
    | Some symbol => Return symbol
    | None => Raise (Undeclared name)
    end.
Proof.
  intros (Hwf & Hcur & _). unfold sees.
  by rewrite lookup_scope_chain.
Qed.

Section FunctionScopes.

Import SemanticAnalyzer.

Lemma scope_chain_framed (a b : SemanticAnalyzer) (l : loc) :
  wf_analyzer a → frame a b → l < current_symbol_table a → l < length (heap a) →
  scope_chain (heap b) l = scope_chain (heap a) l.
Proof.
  intros (Hwf & _ & _) Hframe Hl Hlen.
  apply scope_chain_agree; try done.
  intros r Hr. apply (frame_others _ _ Hframe); lia.
Qed.

Lemma visible_body_entry (self : SemanticAnalyzer) (table : SymbolTable)
    (func_name return_type : string) :
  wf_analyzer self →
  heap self !! current_symbol_table self = Some table →
  symbols table !! func_name = None →
  visible self = table :: enclosing (heap self) table
  ∧ visible (body_entry self func_name return_type table)
    = mkSymbolTable ∅ (Some (current_symbol_table self))
      :: declared func_name return_type true table
      :: enclosing (heap self) table.
Proof.
  intros Hwf Ht Hfresh.
  pose proof (frame_declare_on_entry _ _ func_name return_type Hwf Ht Hfresh)
    as Hframe.
  fold (body_entry self func_name return_type table) in Hframe.
  pose proof (frame_wf _ _ Hframe) as (Hwf' & _ & _).
  pose proof Hwf as (Hwfh & Hcur & _).
  split; [by apply scope_chain_unfold|].
  unfold visible.
  assert (heap (body_entry self func_name return_type table)
            !! length (heap self)
          = Some (mkSymbolTable ∅ (Some (current_symbol_table self)))) as Hlocal.
  { unfold body_entry, enter. cbn [heap].
    rewrite list_lookup_insert_ne by lia.
    rewrite lookup_app_r by lia. by rewrite Nat.sub_diag. }
  assert (heap (body_entry self func_name return_type table)
            !! current_symbol_table self
          = Some (declared func_name return_type true table)) as Hdeclared.
  { unfold body_entry, enter. cbn [heap].
    rewrite list_lookup_insert_eq; [done|]. rewrite length_app. lia. }
  change (current_symbol_table (body_entry self func_name return_type table))
    with (length (heap self)).
  rewrite (scope_chain_unfold _ _ _ Hwf' Hlocal). cbn [parent].
  rewrite (scope_chain_unfold _ _ _ Hwf' Hdeclared).
  do 2 f_equal. unfold enclosing, declared, with_symbols. cbn [parent].
  destruct (parent table) as [p|] eqn:Hp; [|done].
  pose proof (wf_heap_parent _ _ _ _ Hwfh Ht Hp) as Hlt.
  apply (scope_chain_framed self); try done. lia.
Qed.

End FunctionScopes.

(** C8. When the analysis of a function node returns:
    - the body was analyzed in a fresh scope from which the function's own
      name resolves to its entry and every other name resolves as it did in
      the enclosing scope, and whatever was visible at the first statement
      of the body is still visible at its end;
    - the current scope is again the one that was current before the call;
    - every table that existed before the call holds what it held, except
      that the table that was current has the function's entry added; the
      table of the body is none of them, so what the body declared is in no
      scope that can still be reached: every name other than the function's
      resolves exactly as before the call. *)
Theorem function_scope_is_discarded
    (self self' : SemanticAnalyzer) (node body : ParseNode)
    (return_type func_name : string) :
  wf_analyzer self →
  SemanticAnalyzer.child_payload node 0 = Return return_type →
  SemanticAnalyzer.child_payload node 1 = Return func_name →
  children node !! 2 = Some body →
  SemanticAnalyzer._analyze_function SemanticAnalyzer._analyze_node node self
  = (Return tt, self') →
  ∃ table inside',
    let inside := body_entry self func_name return_type table in
    heap self !! current_symbol_table self = Some table
    ∧ symbols table !! func_name = None
    ∧ SemanticAnalyzer._analyze_node body inside = (Return tt, inside')
    ∧ sees inside func_name = Return (mkSymbol return_type true)
    ∧ (∀ name, name ≠ func_name → sees inside name = sees self name)
    ∧ (∀ name, is_Return (sees inside name) = true →
         is_Return (sees inside' name) = true)
    ∧ self' = leave (current_symbol_table self) inside'
    ∧ current_symbol_table self' = current_symbol_table self
    ∧ global_symbol_table self' = global_symbol_table self
    ∧ take (length (heap self)) (heap self')
      = <[current_symbol_table self := declared func_name return_type true table]>
          (heap self)
    ∧ visible self'
      = declared func_name return_type true table :: enclosing (heap self) table
    ∧ (∀ name, name ≠ func_name → sees self' name = sees self name).
Proof.
  intros Hwf Htype Hname Hbody Hrun.
  rewrite analyze_function_unfold, Htype, Hname in Hrun.
  pose proof Hwf as (Hwfh & Hcur & Hglob).
  destruct (lookup_lt_is_Some_2 _ _ Hcur) as [table Ht].
  rewrite (declare_on_entry _ _ _ _ Ht) in Hrun.
  destruct (symbols table !! func_name) eqn:Hfresh; [done|].
  fold (body_entry self func_name return_type table) in Hrun.
  destruct (children node) as [|c0 [|c1 [|body' rest]]] eqn:Hchildren; try done.
  injection Hbody as ->.
  destruct (SemanticAnalyzer._analyze_node body _) as [[[]|e] inside'] eqn:Hbodyrun;
    [|done].
  injection Hrun as <-.
  exists table, inside'. cbn zeta.
  set (inside := body_entry self func_name return_type table) in *.
  pose proof (frame_declare_on_entry _ _ func_name return_type Hwf Ht Hfresh)
    as Hinside.
  fold (body_entry self func_name return_type table) in Hinside. fold inside in Hinside.
  destruct (analyze_node_framed body _ _ _ (frame_wf _ _ Hinside) Hbodyrun)
    as [Hframe Hrestored]. specialize (Hrestored eq_refl).
  destruct (visible_body_entry _ _ func_name return_type Hwf Ht Hfresh)
    as [Hvisible Hvisible_inside]. fold inside in Hvisible_inside.
  pose proof (frame_wf _ _ Hinside) as (Hwfi & Hcuri & _).
  pose proof (frame_wf _ _ Hframe) as (Hwfi' & Hcuri' & _).
  assert (heap inside !! current_symbol_table self
          = Some (declared func_name return_type true table)) as Hdeclared.
  { unfold inside, body_entry, enter. cbn [heap].
    rewrite list_lookup_insert_eq; [done|]. rewrite length_app. lia. }
  assert (heap inside' !! current_symbol_table self
          = Some (declared func_name return_type true table)) as Hdeclared'.
  { rewrite (frame_others _ _ Hframe); [done | by eapply lookup_lt_Some |].
    unfold inside, body_entry. cbn [current_symbol_table]. lia. }
  assert (scope_chain (heap inside') (current_symbol_table self)
          = declared func_name return_type true table :: enclosing (heap self) table)
    as Hafter.
  { rewrite (scope_chain_framed inside inside'); try done.
    - unfold visible in Hvisible_inside.
      change (current_symbol_table inside) with (length (heap self))
        in Hvisible_inside.
      assert (heap inside !! length (heap self)
              = Some (mkSymbolTable ∅ (Some (current_symbol_table self)))) as Hlocal.
      { unfold inside, body_entry, enter. cbn [heap].
        rewrite list_lookup_insert_ne by lia.
        rewrite lookup_app_r by lia. by rewrite Nat.sub_diag. }
      rewrite (scope_chain_unfold _ _ _ Hwfi Hlocal) in Hvisible_inside.
      cbn [parent] in Hvisible_inside. by injection Hvisible_inside.
    - by apply frame_wf in Hinside.
    - apply (lookup_lt_Some _ _ _ Hdeclared). }
  assert (∀ name, name ≠ func_name →
            resolve (declared func_name return_type true table
                     :: enclosing (heap self) table) name
            = resolve (visible self) name) as Hother.
  { intros name Hne. rewrite Hvisible. cbn [resolve declared with_symbols symbols].
    by rewrite lookup_insert_ne. }
  assert (wf_analyzer (leave (current_symbol_table self) inside')) as Hwf'.
  { repeat split; cbn [leave heap current_symbol_table global_symbol_table].
    - done.
    - apply (lookup_lt_Some _ _ _ Hdeclared').
    - by destruct (frame_wf _ _ Hframe) as (_ & _ & ?). }
  split; [done|]. split; [done|]. split; [done|].
  split.
  { rewrite sees_resolve by apply (frame_wf _ _ Hinside).
    rewrite Hvisible_inside. cbn [resolve declared with_symbols symbols].
    by rewrite lookup_empty, lookup_insert_eq. }
  split.
  { intros name Hne.
    rewrite !sees_resolve by (done || apply (frame_wf _ _ Hinside)).
    rewrite Hvisible_inside.
    rewrite <- (Hother name Hne). cbn [resolve symbols]. by rewrite lookup_empty. }
  split.
  { intros name.
    rewrite !sees_resolve
      by (apply (frame_wf _ _ Hinside) || apply (frame_wf _ _ Hframe)).
    intros Hsome.
    assert (is_Some (resolve (visible inside) name)) as Hsome'
      by (by destruct (resolve (visible inside) name)).
    clear Hsome. rename Hsome' into Hsome.
    cut (is_Some (resolve (visible inside') name));
      [by intros [? ->]|].
    destruct (frame_current _ _ Hframe (mkSymbolTable ∅ (Some (current_symbol_table self))))
      as (local & Hlocal & Hparent & _).
    { unfold inside, body_entry, enter. cbn [heap current_symbol_table].
      rewrite list_lookup_insert_ne by lia.
      rewrite lookup_app_r by lia. by rewrite Nat.sub_diag. }
    change (current_symbol_table inside) with (length (heap self)) in Hlocal.
    unfold visible at 1. rewrite Hrestored.
    change (current_symbol_table inside) with (length (heap self)).
    rewrite (scope_chain_unfold _ _ _ Hwfi' Hlocal), Hparent. cbn [parent].
    rewrite Hafter. rewrite Hvisible_inside in Hsome.
    cbn [resolve symbols] in Hsome. rewrite lookup_empty in Hsome.
    cbn [resolve]. by destruct (symbols local !! name). }
  split; [done|]. split; [done|].
  split; [apply (frame_global _ _ (frame_into_scope _ _ _ Hinside
                   (Nat.le_refl _) Hframe))|].
  split.
  { cbn [leave heap]. apply list_eq. intros i.
    destruct (decide (i < length (heap self))) as [Hi|Hi].
    - rewrite lookup_take_lt by done.
      rewrite (frame_others _ _ Hframe).
      + unfold inside, body_entry, enter. cbn [heap].
        destruct (decide (i = current_symbol_table self)) as [->|Hne].
        * rewrite !list_lookup_insert_eq; rewrite ?length_app; (done || lia).
        * rewrite !list_lookup_insert_ne by done. by rewrite lookup_app_l.
      + by pose proof (lookup_lt_Some _ _ _ Hdeclared); unfold inside, body_entry,
          enter in *; cbn [heap] in *; rewrite length_insert, length_app in *; lia.
      + unfold inside, body_entry. cbn [current_symbol_table]. lia.
    - rewrite lookup_take_ge by lia.
      symmetry. apply lookup_ge_None. rewrite length_insert. lia. }
  split; [exact Hafter|].
  intros name Hne. rewrite !sees_resolve by done.
  unfold visible at 1. cbn [leave heap current_symbol_table].
  rewrite Hafter. by rewrite Hother.
Qed.

Lemma initial_analyzer_wf : wf_analyzer initial_analyzer.
Proof. vm_compute. repeat constructor. Defined.

Lemma function_scope_is_discarded_witness :
  current_symbol_table after_example_function
  = current_symbol_table initial_analyzer
  ∧ sees after_example_function "x" = Raise (Undeclared "x")
  ∧ take 1 (heap after_example_function)
    = [declared "main" "int" true default_global_scope].
Proof.
  assert (SemanticAnalyzer._analyze_function SemanticAnalyzer._analyze_node
            example_function initial_analyzer
          = (Return tt, after_example_function)) as Hrun by (by vm_compute).
  destruct (function_scope_is_discarded initial_analyzer after_example_function
              example_function example_body "int" "main"
              initial_analyzer_wf eq_refl eq_refl eq_refl Hrun)
    as (table & inside' & Htable & _ & _ & _ & _ & _ & _ & Hcurrent & _
        & Htake & _ & Hother).
  assert (table = default_global_scope) as -> by (by vm_compute in Htable; injection Htable).
  split; [exact Hcurrent|]. split.
  - rewrite (Hother "x"); [by vm_compute | discriminate].
  - exact Htake.
Defined.

(* ===================================================================== *)
(** * The bounds of the model are never reached                           *)
(* ===================================================================== *)

Section ParserTotal.

Import Parser.

Variable tokens : list Token.

Lemma advances_ret {A} (a : A) (index : nat) : advances tokens (mret a) index 0.
Proof. intros Hi. cbn. repeat split; (done || lia). Qed.

Lemma advances_raise {A} (e : exn) (index k : nat) :
  raised_by_parser e → advances tokens (raise (A:=A) e) index k.
Proof. intros He Hi. cbn. repeat split; try done. by intros ? [= <-]. Qed.

Lemma Exception_raised_by_parser (msg : string) : raised_by_parser (Exception msg).
Proof. left. by exists msg. Qed.

Lemma NoneType_raised_by_parser : raised_by_parser (NoneType_has_no "token_type").
Proof. by right. Qed.

Lemma advances_weaken {A} (m : M nat A) (index k k' : nat) :
  k' ≤ k → advances tokens m index k → advances tokens m index k'.
Proof.
  intros Hk Hm Hi. destruct (Hm Hi) as (H1 & H2 & H3).
  repeat split; try done. intros Hr. specialize (H3 Hr). lia.
Qed.

Lemma advances_bind {A B} (m : M nat A) (f : A → M nat B) (index k k' : nat) :
  advances tokens m index k →
  (∀ a index', m index = (Return a, index') → index + k ≤ index' →
               advances tokens (f a) index' k') →
  advances tokens (m ≫= f) index (k + k').
Proof.
  intros Hm Hf Hi. destruct (Hm Hi) as (H1 & H2 & H3).
  unfold mbind, M_bind. destruct (m index) as [[a|e] index'] eqn:Hrun;
    cbn [fst snd] in *.
  - specialize (H3 eq_refl).
    destruct (Hf a index' eq_refl H3 H2) as (H1' & H2' & H3').
    repeat split; try done. intros Hr. specialize (H3' Hr). lia.
  - repeat split; try done. intros e' [= ->]. by apply H1.
Qed.

Lemma current_token_run (index : nat) :
  current_token tokens index = (Return (tokens !! index), index).
Proof. done. Qed.

Lemma consume_Return (expected_type expected_value : option string)
    (index index' : nat) (token : Token) :
  consume tokens expected_type expected_value index = (Return token, index') →
  tokens !! index = Some token ∧ index' = index + 1.
Proof.
  unfold consume. unfold_method. rewrite current_token_run.
  destruct (tokens !! index) as [t|]; [|done].
  destruct (differs expected_type (token_type t)); [done|].
  destruct (differs expected_value (value t)); [done|].
  by intros [= <- <-].
Qed.

Lemma advances_consume (expected_type expected_value : option string) (index : nat) :
  advances tokens (consume tokens expected_type expected_value) index 1.
Proof.
  intros Hi.
  destruct (consume tokens expected_type expected_value index) as [[t|e] index']
    eqn:Hrun; cbn [fst snd].
  - apply consume_Return in Hrun as [Ht ->].
    apply lookup_lt_Some in Ht. repeat split; (done || lia).
  - assert (raised_by_parser e) as He.
    { revert Hrun. unfold consume. unfold_method. rewrite current_token_run.
      destruct (tokens !! index) as [t|];
        [|intros [= <- <-]; apply Exception_raised_by_parser].
      destruct (differs expected_type (token_type t));
        [intros [= <- <-]; apply Exception_raised_by_parser|].
      destruct (differs expected_value (value t));
        [intros [= <- <-]; apply Exception_raised_by_parser|].
      done. }
    assert (index' ≤ length tokens).
    { revert Hrun. unfold consume. unfold_method. rewrite current_token_run.
      destruct (tokens !! index) as [t|]; [|by intros [= <- <-]].
      destruct (differs expected_type (token_type t)); [by intros [= <- <-]|].
      destruct (differs expected_value (value t)); [by intros [= <- <-]|].
      done. }
    repeat split; try done. by intros ? [= <-].
Qed.

Lemma advances_parse_type (index : nat) : advances tokens (parse_type tokens) index 1.
Proof.
  unfold parse_type. change 1 with (1 + 0).
  apply advances_bind; [apply advances_consume|].
  intros token index' _ _.
  destruct (existsb _ _); [apply advances_ret | apply advances_raise; auto using Exception_raised_by_parser, NoneType_raised_by_parser].
Qed.

Lemma current_value_is_run (v : string) (index : nat) :
  ∃ b, current_value_is tokens v index = (Return b, index)
       ∧ (b = true → index < length tokens).
Proof.
  unfold current_value_is. unfold_method. rewrite current_token_run.
  eexists. split; [done|].
  destruct (tokens !! index) eqn:Ht; [|done].
  intros _. by eapply lookup_lt_Some.
Qed.

Lemma current_value_is_not_run (v : string) (index : nat) :
  ∃ b, current_value_is_not tokens v index = (Return b, index)
       ∧ (b = true → index < length tokens).
Proof.
  unfold current_value_is_not. unfold_method. rewrite current_token_run.
  eexists. split; [done|].
  destruct (tokens !! index) eqn:Ht; [|done].
  intros _. by eapply lookup_lt_Some.
Qed.

Lemma advances_current_token {A} (f : option Token → M nat A) (index k : nat) :
  advances tokens (f (tokens !! index)) index k →
  advances tokens (current_token tokens ≫= f) index k.
Proof. done. Qed.

Lemma advances_current_value_is {A} (v : string) (f : bool → M nat A)
    (index k : nat) :
  (∀ b, (b = true → index < length tokens) → advances tokens (f b) index k) →
  advances tokens (current_value_is tokens v ≫= f) index k.
Proof.
  intros Hf. destruct (current_value_is_run v index) as (b & Hrun & Hb).
  unfold advances, mbind, M_bind. rewrite Hrun. by apply Hf.
Qed.

Lemma advances_current_value_is_not {A} (v : string) (f : bool → M nat A)
    (index k : nat) :
  (∀ b, (b = true → index < length tokens) → advances tokens (f b) index k) →
  advances tokens (current_value_is_not tokens v ≫= f) index k.
Proof.
  intros Hf. destruct (current_value_is_not_run v index) as (b & Hrun & Hb).
  unfold advances, mbind, M_bind. rewrite Hrun. by apply Hf.
Qed.

(** The expressions: two levels of calls for every token that is left. *)
Lemma expressions_advance (fuel : nat) :
  (∀ index, 2 * (length tokens - index) + 1 ≤ fuel →
     advances tokens (parse_expression tokens fuel) index 1)
  ∧ (∀ index id_node, 2 * (length tokens - index) + 2 ≤ fuel →
       advances tokens (parse_function_call tokens fuel id_node) index 0)
  ∧ (∀ index, 2 * (length tokens - index) + 3 ≤ fuel →
       advances tokens (parse_argument_list tokens fuel) index 0)
  ∧ (∀ index args, 2 * (length tokens - index) + 1 ≤ fuel →
       advances tokens (parse_argument_list_loop tokens fuel args) index 0).
Proof.
  induction fuel as [|fuel (IHe & IHc & IHa & IHl)].
  { repeat split; intros; lia. }
  split; [|split; [|split]].
  - intros index Hfuel. cbn [parse_expression].
    apply advances_current_token.
    destruct (tokens !! index) as [token|]; [|apply advances_raise; auto using Exception_raised_by_parser, NoneType_raised_by_parser].
    destruct (String.eqb (token_type token) "NUMBER").
    { apply (advances_bind _ _ _ 1 0); [apply advances_consume|].
      intros. apply advances_ret. }
    destruct (String.eqb (token_type token) "IDENTIFIER");
      [|apply advances_raise; auto using Exception_raised_by_parser, NoneType_raised_by_parser].
    apply (advances_bind _ _ _ 1 0); [apply advances_consume|].
    intros _ index' _ Hindex'.
    apply advances_current_value_is. intros [] Hcall; [|apply advances_ret].
    specialize (Hcall eq_refl). apply IHc. lia.
  - intros index id_node Hfuel. cbn [parse_function_call].
    apply (advances_bind _ _ _ 0 0);
      [eapply advances_weaken; [|apply advances_consume]; lia|].
    intros _ index1 [_ ->]%consume_Return _.
    apply (advances_bind _ _ _ 0 0).
    { intros Hlen. apply IHa; [lia | done]. }
    intros args index2 _ _.
    apply (advances_bind _ _ _ 0 0);
      [eapply advances_weaken; [|apply advances_consume]; lia|].
    intros. apply advances_ret.
  - intros index Hfuel. cbn [parse_argument_list].
    apply advances_current_value_is_not. intros [] _; [|apply advances_ret].
    apply (advances_weaken _ _ 1); [lia|].
    apply (advances_bind _ _ _ 1 0); [apply IHe; lia|].
    intros arg index' _ Hindex'.
    intros Hlen. apply IHl; [lia | done].
  - intros index args Hfuel. cbn [parse_argument_list_loop].
    apply advances_current_value_is. intros [] Hmore; [|apply advances_ret].
    specialize (Hmore eq_refl).
    apply (advances_bind _ _ _ 0 0);
      [eapply advances_weaken; [|apply advances_consume]; lia|].
    intros _ index1 [_ ->]%consume_Return _.
    apply (advances_weaken _ _ 1); [lia|].
    apply (advances_bind _ _ _ 1 0); [apply IHe; lia|].
    intros arg index2 _ Hindex2.
    intros Hlen. apply IHl; [lia | done].
Qed.

(** The declarations, on top of the expressions. *)
Lemma declarations_advance (fuel : nat) :
  (∀ index, 2 * (length tokens - index) + 2 ≤ fuel →
     advances tokens (parse_declaration tokens fuel) index 1)
  ∧ (∀ index type_node id_node, 2 * (length tokens - index) + 1 ≤ fuel →
       advances tokens (parse_function tokens fuel type_node id_node) index 0)
  ∧ (∀ index, 2 * (length tokens - index) + 4 ≤ fuel →
       advances tokens (parse_declaration_list tokens fuel) index 0)
  ∧ (∀ index children, 2 * (length tokens - index) + 3 ≤ fuel →
       advances tokens (parse_declaration_list_loop tokens fuel children) index 0).
Proof.
  induction fuel as [|fuel (IHd & IHf & IHl & IHll)].
  { repeat split; intros; lia. }
  destruct (expressions_advance fuel) as (He & _).
  split; [|split; [|split]].
  - intros index Hfuel. cbn [parse_declaration].
    apply advances_current_token.
    destruct (tokens !! index) as [token|]; [|apply advances_raise; auto using Exception_raised_by_parser, NoneType_raised_by_parser].
    destruct (String.eqb (token_type token) "KEYWORD").
    + apply (advances_bind _ _ _ 1 0); [apply advances_parse_type|].
      intros type_node index1 _ Hindex1.
      apply (advances_bind _ _ _ 0 0);
        [eapply advances_weaken; [|apply advances_consume]; lia|].
      intros id_token index2 [_ ->]%consume_Return _.
      apply advances_current_value_is. intros [] Hfun.
      { specialize (Hfun eq_refl). apply IHf. lia. }
      apply advances_current_value_is. intros [] _.
      * apply (advances_bind _ _ _ 0 0);
          [eapply advances_weaken; [|apply advances_consume]; lia|].
        intros _ index3 [_ ->]%consume_Return _.
        apply (advances_bind _ _ _ 0 0).
        { intros Hlen. apply (advances_weaken _ _ 1 0); [lia | apply He; lia | done]. }
        intros expr_node index4 _ _.
        apply (advances_bind _ _ _ 0 0);
          [eapply advances_weaken; [|apply advances_consume]; lia|].
        intros. apply advances_ret.
      * apply (advances_bind _ _ _ 0 0);
          [eapply advances_weaken; [|apply advances_consume]; lia|].
        intros. apply advances_ret.
    + apply (advances_bind _ _ _ 1 0); [apply He; lia|].
      intros expr_node index1 _ _.
      apply (advances_bind _ _ _ 0 0);
        [eapply advances_weaken; [|apply advances_consume]; lia|].
      intros. apply advances_ret.
  - intros index type_node id_node Hfuel. cbn [parse_function].
    apply (advances_bind _ _ _ 0 0);
      [eapply advances_weaken; [|apply advances_consume]; lia|].
    intros _ index1 [_ ->]%consume_Return _.
    apply (advances_bind _ _ _ 0 0);
      [eapply advances_weaken; [|apply advances_consume]; lia|].
    intros _ index2 [_ ->]%consume_Return _.
    apply (advances_bind _ _ _ 0 0);
      [eapply advances_weaken; [|apply advances_consume]; lia|].
    intros _ index3 [_ ->]%consume_Return _.
    apply (advances_bind _ _ _ 0 0).
    { intros Hlen. apply IHl; [lia | done]. }
    intros body_node index4 _ _.
    apply (advances_bind _ _ _ 0 0);
      [eapply advances_weaken; [|apply advances_consume]; lia|].
    intros. apply advances_ret.
  - intros index Hfuel. cbn [parse_declaration_list].
    apply (advances_bind _ _ _ 0 0); [apply IHll; lia|].
    intros. apply advances_ret.
  - intros index children Hfuel. cbn [parse_declaration_list_loop].
    apply advances_current_value_is_not. intros [] _; [|apply advances_ret].
    apply (advances_weaken _ _ 1); [lia|].
    apply (advances_bind _ _ _ 1 0); [apply IHd; lia|].
    intros child index' _ Hindex'.
    intros Hlen. apply IHll; [lia | done].
Qed.

Lemma program_loop_advances (fuel : nat) :
  ∀ index children, 2 * (length tokens - index) + 3 ≤ fuel →
    advances tokens (parse_program_loop tokens fuel children) index 0.
Proof.
  induction fuel as [|fuel IH]; intros index children Hfuel; [lia|].
  destruct (declarations_advance fuel) as (Hd & _).
  cbn [parse_program_loop].
  change (advances tokens
            ((if (index <? length tokens)%nat then
                child ← parse_declaration tokens fuel;
                parse_program_loop tokens fuel (children ++ [child])
              else mret children) : M nat (list ParseNode)) index 0).
  destruct (index <? length tokens)%nat; [|apply advances_ret].
  apply (advances_weaken _ _ 1); [lia|].
  apply (advances_bind _ _ _ 1 0); [apply Hd; lia|].
  intros child index' _ Hindex'.
  intros Hlen. apply IH; [lia | done].
Qed.

End ParserTotal.

(** The parser is total: on every list of tokens [parse_program] returns a
    tree, raises an [Exception] of its own, or ends in the [AttributeError]
    of [parse_expression]; the bound on the depth of the calls is never
    reached. *)
Lemma parse_program_total (tokens : list Token) :
  (∃ tree, Parser.parse_program tokens = Return tree)
  ∨ (∃ e, Parser.parse_program tokens = Raise e ∧ raised_by_parser e).
Proof.
  unfold Parser.parse_program, Parser.parse_program_fuel.
  destruct (program_loop_advances tokens (2 * length tokens + 3) 0 [])
    as (Hraise & _); [lia | lia |].
  unfold mbind, M_bind.
  destruct (Parser.parse_program_loop tokens _ [] 0) as [[children|e] index];
    cbn [fst] in *.
  - left. by eexists.
  - right. exists e. split; [done|]. by apply Hraise.
Qed.

(** The tokenizer is total: the loop ends within the bound of [Lexer], and it
    never raises. *)
Lemma Lexer_loop_returns (s : string) (fuel : nat) :
  ∀ left right tokens,
    left ≤ right →
    2 * (S (String.length s) - right) + (if (left =? right)%nat then 0 else 1) < fuel →
    ∃ result, Lexer_loop fuel s left right tokens = Return result.
Proof.
  induction fuel as [|fuel IH]; intros left right tokens Hle Hfuel; [lia|].
  cbn [Lexer_loop]. cbv zeta.
  destruct (Nat.leb_spec right (String.length s)) as [Hin|Hout];
    [|cbn; by eexists].
  destruct (Nat.leb_spec left right) as [_|?]; [|lia].
  cbn [andb negb].
  destruct (Nat.ltb_spec right (String.length s)) as [Hlt|Hge];
    destruct (from_option is_punctuator false (String.get right s));
    destruct (Nat.eqb_spec left right) as [->|Hne];
    destruct (Nat.eqb_spec right (String.length s)) as [Hend|Hnend];
    cbn [andb orb negb]; try lia;
    apply IH; try lia;
    repeat match goal with
           | |- context [(?a =? ?b)%nat] => destruct (Nat.eqb_spec a b)
           end; lia.
Qed.

Lemma Lexer_total (s : string) : ∃ tokens, Lexer s = Return tokens.
Proof.
  apply Lexer_loop_returns; [done|]. cbn [Nat.eqb]. lia.
Qed.

(** C4. Every parse returns a tree, raises an [Exception] of the parser, or
    ends in an [AttributeError] of the interpreter, and the last case
    occurs: at the end of the input [consume] raises the error of the
    parser, but [parse_expression] reads [token_type] of the missing token,
    so for the tokens of [int x =] the parse ends in the [AttributeError]
    and not in an error raised by the parser. *)
Theorem parse_expression_at_end_of_input :
  Lexer "int x ="
  = Return [mkToken "KEYWORD" "int"; mkToken "IDENTIFIER" "x";
            mkToken "OPERATOR" "="]
  ∧ Parser.parse_program
      [mkToken "KEYWORD" "int"; mkToken "IDENTIFIER" "x"; mkToken "OPERATOR" "="]
    = Raise (AttributeError "'NoneType' object has no attribute 'token_type'")
  ∧ (∀ tokens fuel beyond,
       Parser.parse_expression tokens (S fuel) (length tokens + beyond)
       = (Raise (AttributeError "'NoneType' object has no attribute 'token_type'"),
          length tokens + beyond)
       ∧ Parser.consume tokens (Some "DELIMITER") None (length tokens + beyond)
         = (Raise (Exception "Unexpected end of input"), length tokens + beyond))
  ∧ (∀ tokens,
       (∃ tree, Parser.parse_program tokens = Return tree)
       ∨ (∃ msg, Parser.parse_program tokens = Raise (Exception msg))
       ∨ Parser.parse_program tokens
         = Raise (AttributeError "'NoneType' object has no attribute 'token_type'")).
Proof.
  split; [by vm_compute|]. split; [by vm_compute|]. split.
  - intros tokens fuel beyond.
    assert (tokens !! (length tokens + beyond) = None) as Hend
      by (apply lookup_ge_None; lia).
    unfold Parser.consume. cbn [Parser.parse_expression].
    unfold Parser.current_token. unfold_method. by rewrite Hend.
  - intros tokens.
    destruct (parse_program_total tokens) as [Htree|(e & -> & [[msg ->]| ->])].
    + by left.
    + right. left. by exists msg.
    + right. by right.
Qed.

(* ===================================================================== *)
(** * The tokens of the tokenizer                                         *)
(* ===================================================================== *)

Section LexerTokens.

Lemma get_lt (s : string) (i : nat) :
  i < String.length s → ∃ c, String.get i s = Some c.
Proof.
  revert i. induction s as [|a s IH]; intros i Hi; simpl in *; [lia|].
  destruct i as [|i]; [by eexists|]. apply IH. lia.
Qed.

Lemma all_not_punctuator_get (s : string) :
  (∀ i c, String.get i s = Some c → is_punctuator c = false) →
  all_not_punctuator s = true.
Proof.
  induction s as [|a s IH]; intros H; simpl; [done|].
  rewrite (H 0 a eq_refl). simpl. apply IH.
  intros i c Hi. by apply (H (S i)).
Qed.

Lemma substring_open_run (s : string) (left right : nat) :
  open_run s left right →
  all_not_punctuator (String.substring left (right - left) s) = true.
Proof.
  intros Hrun. apply all_not_punctuator_get. intros i c Hi.
  destruct (decide (i < right - left)) as [Hlt|Hge].
  - rewrite String.substring_correct1 in Hi by done.
    apply (Hrun (i + left) c); (lia || done).
  - rewrite String.substring_correct2 in Hi by lia. done.
Qed.

Lemma substring_not_empty (s : string) (left right : nat) :
  left < right → right ≤ String.length s →
  String.eqb (String.substring left (right - left) s) "" = false.
Proof.
  intros Hlt Hlen.
  destruct (get_lt s left) as [c Hc]; [lia|].
  pose proof (String.substring_correct1 s left (right - left) 0) as Hget.
  cbn [Nat.add] in Hget. rewrite Hc in Hget. specialize (Hget ltac:(lia)).
  by destruct (String.substring left (right - left) s).
Qed.

Lemma run_token_classify (sub : string) :
  String.eqb sub "" = false → all_not_punctuator sub = true →
  run_token (mkToken (classify sub) sub) = true.
Proof.
  intros Hne Hrun. unfold run_token. cbn [value token_type].
  by rewrite Hne, Hrun, String.eqb_refl.
Qed.

Lemma Forall_lexical_run (tokens : list Token) (sub : string) :
  Forall (λ t, lexical_token t = true) tokens →
  String.eqb sub "" = false → all_not_punctuator sub = true →
  Forall (λ t, lexical_token t = true)
    (if is_keyword sub then tokens ++ [mkToken "KEYWORD" sub]
     else if is_number sub then tokens ++ [mkToken "NUMBER" sub]
     else if valid_identifier sub then tokens ++ [mkToken "IDENTIFIER" sub]
     else tokens ++ [mkToken "INVALID IDENTIFIER" sub]).
Proof.
  intros Htokens Hne Hrun.
  pose proof (run_token_classify sub Hne Hrun) as Hrt. unfold classify in Hrt.
  destruct (is_keyword sub); [|destruct (is_number sub);
                               [|destruct (valid_identifier sub)]];
    (apply Forall_app; split; [done|]; repeat constructor;
     unfold lexical_token; apply orb_true_iff; by right).
Qed.

(** The invariant of the loop of [Lexer]. *)
Lemma Lexer_loop_lexical (s : string) (fuel : nat) :
  ∀ left right tokens result,
    left ≤ right → open_run s left (Nat.min right (String.length s)) →
    Forall (λ t, lexical_token t = true) tokens →
    Lexer_loop fuel s left right tokens = Return result →
    Forall (λ t, lexical_token t = true) result.
Proof.
  induction fuel as [|fuel IH]; intros left right tokens result Hle Hrun Htokens.
  - cbn [Lexer_loop]. cbv zeta.
    destruct (negb _); [by intros [= <-] | done].
  - cbn [Lexer_loop]. cbv zeta.
    destruct (Nat.leb_spec right (String.length s)) as [Hin|Hout];
      [|cbn; by intros [= <-]].
    destruct (Nat.leb_spec left right) as [_|?]; [|lia].
    cbn [andb negb].
    destruct (Nat.ltb_spec right (String.length s)) as [Hlt|Hge].
    + destruct (get_lt s right Hlt) as [ch Hch]. rewrite Hch.
      cbn [from_option andb].
      destruct (is_punctuator ch) eqn:Hpunct; cbn [negb andb orb].
      * destruct (Nat.eqb_spec left right) as [->|Hne]; cbn [negb andb].
        -- apply IH; [lia | intros i c ? ?; lia |].
           destruct (is_operator ch) eqn:Hop.
           { apply Forall_app. split; [done|]. repeat constructor.
             unfold lexical_token, separator_token. cbn [value token_type char_str].
             by rewrite Hop. }
           destruct (char_in ch "(){};") eqn:Hdel; [|done].
           apply Forall_app. split; [done|]. repeat constructor.
           unfold lexical_token, separator_token. cbn [value token_type char_str].
           by rewrite Hop, Hdel.
        -- rewrite Nat.min_l in Hrun by lia.
           rewrite orb_true_r. cbn [andb].
           apply IH; [lia | intros i c ? ?; lia |].
           apply Forall_lexical_run;
             [done | apply substring_not_empty; lia | by apply substring_open_run].
      * apply IH; [lia | | done].
        intros i c Hi Hi' Hc.
        destruct (decide (i = right)) as [->|Hne]; [congruence|].
        apply (Hrun i c); (lia || done).
    + assert (right = String.length s) as -> by lia.
      rewrite Nat.min_id in Hrun.
      replace (from_option is_punctuator false
                 (String.get (String.length s) s)) with false.
      2:{ destruct (String.get (String.length s) s) eqn:Hget; [|done].
          exfalso. clear -Hget. revert Hget.
          induction s; simpl; [done | auto]. }
      cbn [negb andb orb]. rewrite Nat.eqb_refl. cbn [orb andb].
      destruct (Nat.eqb_spec left (String.length s)) as [->|Hne]; cbn [negb].
      * apply IH; [lia | intros i c ? ?; lia | done].
      * apply IH; [lia | intros i c ? ?; lia |].
        apply Forall_lexical_run;
          [done | apply substring_not_empty; lia | by apply substring_open_run].
Qed.

End LexerTokens.

(** X1. Every token of the tokenizer is either one operator or delimiter
    character under its own kind, or a run that is not empty, holds no
    separator, and has the kind that [classify] gives to its text: keyword,
    then number, then identifier, else invalid identifier. *)
Theorem Lexer_tokens_lexical (s : string) (tokens : list Token) :
  Lexer s = Return tokens → Forall (λ t, lexical_token t = true) tokens.
Proof.
  apply Lexer_loop_lexical; [done | intros i c ? ?; lia | constructor].
Qed.

Lemma Lexer_tokens_lexical_witness :
  Forall (λ t, lexical_token t = true)
    [mkToken "KEYWORD" "int"; mkToken "IDENTIFIER" "x"; mkToken "OPERATOR" "=";
     mkToken "NUMBER" "5"; mkToken "DELIMITER" ";"].
Proof. apply (Lexer_tokens_lexical "int x = 5;"). reflexivity. Defined.

Lemma lexical_token_not_comma (t : Token) :
  lexical_token t = true → String.eqb (value t) "," = false.
Proof.
  unfold lexical_token, separator_token, run_token.
  destruct (String.eqb_spec (value t) ",") as [->|]; [|done].
  intros H. by vm_compute in H.
Qed.

(** X2. The tokenizer drops the comma, so in the tokens of a text the list
    of arguments of a call never goes past its first expression: it has at
    most one element. *)
Theorem argument_list_of_text_has_at_most_one
    (s : string) (tokens : list Token) (fuel index index' : nat)
    (args : list ParseNode) :
  Lexer s = Return tokens →
  Parser.parse_argument_list tokens fuel index = (Return args, index') →
  length args ≤ 1.
Proof.
  intros Hlex.
  assert (Forall (λ t, lexical_token t = true) tokens) as Hlexical.
  { revert Hlex. apply Lexer_loop_lexical;
      [done | intros i c ? ?; lia | constructor]. }
  destruct fuel as [|fuel]; [done|].
  cbn [Parser.parse_argument_list]. intros Hrun.
  apply bind_inv in Hrun as [(nonempty & i0 & _ & Hrun)|(e & _ & [=])].
  destruct nonempty; [|by injection Hrun as <- _; simpl; lia].
  apply bind_inv in Hrun as [(arg & i1 & _ & Hrun)|(e & _ & [=])].
  destruct fuel as [|fuel]; [done|].
  cbn [Parser.parse_argument_list_loop] in Hrun.
  apply bind_inv in Hrun as [(continue & i2 & Hcontinue & Hrun)|(e & _ & [=])].
  assert (continue = false) as ->.
  { revert Hcontinue. unfold Parser.current_value_is. unfold_method.
    rewrite current_token_run.
    destruct (tokens !! i1) as [t|] eqn:Ht; [|by intros [= <- _]].
    intros [= <- _]. cbn [from_option].
    apply lexical_token_not_comma.
    by eapply (proj1 (Forall_lookup _ _)) in Hlexical. }
  by injection Hrun as <- _.
Qed.

Lemma argument_list_of_text_has_at_most_one_witness :
  length [Leaf "Identifier(a)"] ≤ 1
  ∧ parse_source "f(a, b);" = Raise (Exception "Expected DELIMITER, got IDENTIFIER").
Proof.
  split; [|reflexivity].
  apply (argument_list_of_text_has_at_most_one "f(a, b);"
           [mkToken "IDENTIFIER" "f"; mkToken "DELIMITER" "(";
            mkToken "IDENTIFIER" "a"; mkToken "IDENTIFIER" "b";
            mkToken "DELIMITER" ")"; mkToken "DELIMITER" ";"] 5 2 3);
    reflexivity.
Defined.

(* ===================================================================== *)
(** * The trees of the parser                                             *)
(* ===================================================================== *)

Section ParserTrees.
Import Parser.
Variable tokens : list Token.

Lemma returns_only_ret {A} (a : A) (P : A → Prop) :
  P a → returns_only (mret a : M nat A) P.
Proof. by intros Ha index a' index' [= <- _]. Qed.

Lemma returns_only_raise {A} (e : exn) (P : A → Prop) :
  returns_only (raise e : M nat A) P.
Proof. by intros index a index'. Qed.

Lemma returns_only_bind {A B} (m : M nat A) (f : A → M nat B)
    (Q : A → Prop) (P : B → Prop) :
  returns_only m Q → (∀ a, Q a → returns_only (f a) P) →
  returns_only (m ≫= f) P.
Proof.
  intros Hm Hf index b index'' Hrun.
  apply bind_inv in Hrun as [(a & index' & Hrun & Hrun')|(e & _ & [=])].
  eapply Hf; [by eapply Hm | done].
Qed.

Lemma returns_only_any {A} (m : M nat A) : returns_only m (λ _, True).
Proof. by intros index a index' _. Qed.

Lemma returns_only_parse_type :
  returns_only (parse_type tokens)
    (λ n, ∃ T, T ∈ type_names ∧ n = Leaf ("Type(" +:+ T +:+ ")")).
Proof.
  unfold parse_type.
  eapply returns_only_bind; [apply returns_only_any|]. intros token _.
  destruct (existsb _ _) eqn:Htype; [|apply returns_only_raise].
  apply returns_only_ret. exists (value token). split; [|done].
  apply existsb_exists in Htype as (T & HT & ->%String.eqb_eq).
  by apply list_elem_of_In.
Qed.

Lemma expressions_grammatical (fuel : nat) :
  returns_only (parse_expression tokens fuel) expression
  ∧ (∀ v, returns_only
            (parse_function_call tokens fuel (Leaf ("Identifier(" +:+ v +:+ ")")))
            expression)
  ∧ returns_only (parse_argument_list tokens fuel) (Forall expression)
  ∧ (∀ args, Forall expression args →
       returns_only (parse_argument_list_loop tokens fuel args)
         (Forall expression)).
Proof.
  induction fuel as [|fuel (IHe & IHc & IHa & IHl)].
  { repeat split; intros; apply returns_only_raise. }
  split; [|split; [|split]].
  - cbn [parse_expression].
    eapply returns_only_bind; [apply returns_only_any|]. intros [token|] _;
      [|apply returns_only_raise].
    destruct (String.eqb (token_type token) "NUMBER").
    { eapply returns_only_bind; [apply returns_only_any|]. intros _ _.
      apply returns_only_ret. constructor. }
    destruct (String.eqb (token_type token) "IDENTIFIER");
      [|apply returns_only_raise].
    eapply returns_only_bind; [apply returns_only_any|]. intros _ _.
    eapply returns_only_bind; [apply returns_only_any|]. intros [] _.
    + apply IHc.
    + apply returns_only_ret. constructor.
  - intros v. cbn [parse_function_call].
    eapply returns_only_bind; [apply returns_only_any|]. intros _ _.
    eapply returns_only_bind; [apply IHa|]. intros args Hargs.
    eapply returns_only_bind; [apply returns_only_any|]. intros _ _.
    apply returns_only_ret. by constructor.
  - cbn [parse_argument_list].
    eapply returns_only_bind; [apply returns_only_any|]. intros [] _;
      [|apply returns_only_ret; constructor].
    eapply returns_only_bind; [apply IHe|]. intros arg Harg.
    apply IHl. by repeat constructor.
  - intros args Hargs. cbn [parse_argument_list_loop].
    eapply returns_only_bind; [apply returns_only_any|]. intros [] _;
      [|by apply returns_only_ret].
    eapply returns_only_bind; [apply returns_only_any|]. intros _ _.
    eapply returns_only_bind; [apply IHe|]. intros arg Harg.
    apply IHl. apply Forall_app. by repeat constructor.
Qed.

Lemma declarations_grammatical (fuel : nat) :
  returns_only (parse_declaration tokens fuel) declaration
  ∧ (∀ T v, T ∈ type_names →
       returns_only
         (parse_function tokens fuel (Leaf ("Type(" +:+ T +:+ ")"))
            (Leaf ("Identifier(" +:+ v +:+ ")")))
         declaration)
  ∧ returns_only (parse_declaration_list tokens fuel)
      (λ n, ∃ body, n = Node "DeclarationList" body ∧ Forall declaration body)
  ∧ (∀ children, Forall declaration children →
       returns_only (parse_declaration_list_loop tokens fuel children)
         (Forall declaration)).
Proof.
  induction fuel as [|fuel (IHd & IHf & IHl & IHll)].
  { repeat split; intros; apply returns_only_raise. }
  destruct (expressions_grammatical fuel) as (He & _).
  split; [|split; [|split]].
  - cbn [parse_declaration].
    eapply returns_only_bind; [apply returns_only_any|]. intros [token|] _;
      [|apply returns_only_raise].
    destruct (String.eqb (token_type token) "KEYWORD").
    + eapply returns_only_bind; [apply returns_only_parse_type|].
      intros type_node (T & HT & ->).
      eapply returns_only_bind; [apply returns_only_any|]. intros id_token _.
      eapply returns_only_bind; [apply returns_only_any|]. intros [] _;
        [by apply IHf|].
      eapply returns_only_bind; [apply returns_only_any|]. intros [] _.
      * eapply returns_only_bind; [apply returns_only_any|]. intros _ _.
        eapply returns_only_bind; [apply He|]. intros init Hinit.
        eapply returns_only_bind; [apply returns_only_any|]. intros _ _.
        apply returns_only_ret. by apply declaration_initialized.
      * eapply returns_only_bind; [apply returns_only_any|]. intros _ _.
        apply returns_only_ret. by apply declaration_plain.
    + eapply returns_only_bind; [apply He|]. intros e Hexpr.
      eapply returns_only_bind; [apply returns_only_any|]. intros _ _.
      apply returns_only_ret. by constructor.
  - intros T v HT. cbn [parse_function].
    do 3 (eapply returns_only_bind; [apply returns_only_any|]; intros _ _).
    eapply returns_only_bind; [apply IHl|]. intros body_node (body & -> & Hbody).
    eapply returns_only_bind; [apply returns_only_any|]. intros _ _.
    apply returns_only_ret. by constructor.
  - cbn [parse_declaration_list].
    eapply returns_only_bind; [apply IHll; constructor|]. intros body Hbody.
    apply returns_only_ret. by exists body.
  - intros children Hchildren. cbn [parse_declaration_list_loop].
    eapply returns_only_bind; [apply returns_only_any|]. intros [] _;
      [|by apply returns_only_ret].
    eapply returns_only_bind; [apply IHd|]. intros child Hchild.
    apply IHll. apply Forall_app. by repeat constructor.
Qed.

Lemma program_loop_grammatical (fuel : nat) :
  ∀ children, Forall declaration children →
    returns_only (parse_program_loop tokens fuel children) (Forall declaration).
Proof.
  induction fuel as [|fuel IH]; intros children Hchildren;
    [apply returns_only_raise|].
  destruct (declarations_grammatical fuel) as (Hd & _).
  cbn [parse_program_loop].
  eapply returns_only_bind; [apply returns_only_any|]. intros index _.
  destruct (index <? length tokens)%nat; [|by apply returns_only_ret].
  eapply returns_only_bind; [apply Hd|]. intros child Hchild.
  apply IH. apply Forall_app. by repeat constructor.
Qed.

(** The loop of [parse_program] ends only at the end of the tokens. *)
Lemma program_loop_ends (fuel : nat) :
  ∀ children index result index',
    parse_program_loop tokens fuel children index = (Return result, index') →
    length tokens ≤ index'.
Proof.
  induction fuel as [|fuel IH]; intros children index result index'; [done|].
  cbn [parse_program_loop]. intros Hrun.
  apply bind_inv in Hrun as [(i & i0 & [= <- <-] & Hrun)|(e & _ & [=])].
  destruct (Nat.ltb_spec index (length tokens)).
  - apply bind_inv in Hrun as [(child & i1 & _ & Hrun)|(e & _ & [=])].
    by eapply IH.
  - injection Hrun as _ <-. lia.
Qed.

End ParserTrees.

Lemma parse_program_grammatical (tokens : list Token) (tree : ParseNode) :
  Parser.parse_program tokens = Return tree → program tree.
Proof.
  unfold Parser.parse_program.
  destruct (Parser.parse_program_fuel tokens _ 0) as [o index] eqn:Hrun.
  cbn [fst]. intros ->. unfold Parser.parse_program_fuel in Hrun.
  apply bind_inv in Hrun as [(children & i & Hloop & [= <- _])|(e & _ & [=])].
  exists children. split; [done|].
  by eapply (program_loop_grammatical tokens _ []) in Hloop.
Qed.

(** X3. When [parse_program] returns, its tree is a [Program] node over
    declarations of the grammar (a declaration with or without initializer,
    a function over a [DeclarationList], an expression statement; types are
    the four type names), and the parser has read every token. *)
Theorem parse_program_returns_grammatical_tree
    (tokens : list Token) (tree : ParseNode) (index : nat) :
  Parser.parse_program_fuel tokens (2 * length tokens + 3) 0 = (Return tree, index) →
  program tree ∧ index = length tokens.
Proof.
  intros Hrun. split.
  - apply (parse_program_grammatical tokens). unfold Parser.parse_program.
    by rewrite Hrun.
  - unfold Parser.parse_program_fuel in Hrun.
    destruct (program_loop_advances tokens (2 * length tokens + 3) 0 [])
      as (_ & Hlen & _); [lia | lia |].
    apply bind_inv in Hrun as [(children & i & Hloop & [= _ <-])|(e & _ & [=])].
    rewrite Hloop in Hlen. cbn [snd] in Hlen.
    apply program_loop_ends in Hloop. lia.
Qed.

Lemma parse_program_returns_grammatical_tree_witness :
  program example_tree.
Proof.
  apply (parse_program_returns_grammatical_tree
           [mkToken "KEYWORD" "int"; mkToken "IDENTIFIER" "main";
            mkToken "DELIMITER" "("; mkToken "DELIMITER" ")";
            mkToken "DELIMITER" "{"; mkToken "KEYWORD" "int";
            mkToken "IDENTIFIER" "x"; mkToken "OPERATOR" "=";
            mkToken "NUMBER" "5"; mkToken "DELIMITER" ";";
            mkToken "IDENTIFIER" "printf"; mkToken "DELIMITER" "(";
            mkToken "IDENTIFIER" "x"; mkToken "DELIMITER" ")";
            mkToken "DELIMITER" ";"; mkToken "DELIMITER" "}"]
           example_tree 16).
  reflexivity.
Defined.

(* ===================================================================== *)
(** * The analysis of the trees of the parser                             *)
(* ===================================================================== *)

Section AnalysisOfParsedTrees.
Import SemanticAnalyzer.


Lemma kind_of_label (kind text : string) :
  char_in "(" kind = false →
  item (split "(" (kind +:+ "(" +:+ text)) 0 = Return kind.
Proof.
  intros Hk. change (kind +:+ "(" +:+ text) with (kind +:+ String "(" text).
  by rewrite (split_app_sep "(" kind text Hk).
Qed.


Lemma payload_Type (T : string) :
  T ∈ type_names → payload ("Type(" +:+ T +:+ ")") = Return T.
Proof.
  unfold type_names. intros HT.
  repeat (apply elem_of_cons in HT as [->|HT]; [reflexivity|]).
  by apply elem_of_nil in HT.
Qed.

Lemma analyze_node_unfold (label : string) (nodes : list ParseNode)
    (self : SemanticAnalyzer) :
  _analyze_node (Node label nodes) self
  = match item (split "(" label) 0 with
    | Return kind => analysis_method _analyze_node kind (Node label nodes) self
    | Raise e => (Raise e, self)
    end.
Proof. cbn [_analyze_node name]. unfold_method. by destruct (item _ 0). Qed.

Lemma analyze_leaf (kind text : string) (self : SemanticAnalyzer) :
  char_in "(" kind = false →
  analysis_method _analyze_node kind = _default_analysis _analyze_node →
  _analyze_node (Leaf (kind +:+ "(" +:+ text)) self = (Return tt, self).
Proof.
  intros Hk Hmethod. unfold Leaf.
  by rewrite analyze_node_unfold, (kind_of_label _ _ Hk), Hmethod.
Qed.







End AnalysisOfParsedTrees.



(* ===================================================================== *)
(** * What an analysis keeps                                              *)
(* ===================================================================== *)

(** X5. Whatever the outcome of the analysis of a node, every table that
    existed is still there with the same parent and with every entry it
    had, unchanged, and the global reference is the same; when the
    analysis returns, the current scope is the one it started in. *)
Theorem analysis_only_adds_symbols
    (node : ParseNode) (self self' : SemanticAnalyzer) (o : outcome unit) :
  wf_analyzer self →
  SemanticAnalyzer._analyze_node node self = (o, self') →
  global_symbol_table self' = global_symbol_table self
  ∧ (∀ l table, heap self !! l = Some table →
       ∃ table', heap self' !! l = Some table'
                 ∧ parent table' = parent table
                 ∧ ∀ name symbol, symbols table !! name = Some symbol →
                                  symbols table' !! name = Some symbol)
  ∧ (o = Return tt → current_symbol_table self' = current_symbol_table self).
Proof.
  intros Hwf Hrun.
  destruct (analyze_node_framed node self o self' Hwf Hrun)
    as [[_ Hglobal _ Hothers Hcurrent] Hrestored].
  split; [done|]. split; [|done].
  intros l table Ht.
  destruct (decide (l = current_symbol_table self)) as [->|Hne].
  - destruct (Hcurrent table Ht) as (table' & Ht' & Hparent & Hsub).
    exists table'. split; [done|]. split; [done|].
    intros name symbol Hname. by eapply lookup_weaken.
  - exists table. split; [|done].
    rewrite Hothers; [done | by eapply lookup_lt_Some | done].
Qed.

Lemma analysis_only_adds_symbols_witness :
  ∃ table',
    heap after_example_function !! 0 = Some table'
    ∧ parent table' = None
    ∧ symbols table' !! "printf" = Some (mkSymbol "int" true).
Proof.
  destruct (analysis_only_adds_symbols example_function initial_analyzer
              after_example_function (Return tt) initial_analyzer_wf)
    as (_ & Hkept & _); [by vm_compute|].
  destruct (Hkept 0 default_global_scope) as (table' & Ht' & Hparent & Hsymbols);
    [by vm_compute|].
  exists table'. split; [done|]. split; [done|].
  apply Hsymbols. by vm_compute.
Defined.

Section Declarations.
Import SemanticAnalyzer.

(** The analysis of [T id;] is the declaration of [id] in the current
    table. *)
Lemma analyze_plain_declaration (T v : string) (self : SemanticAnalyzer) :
  T ∈ type_names → no_bracket v = true →
  _analyze_node (plain_declaration T v) self
  = on_heap (SymbolTable.declare (current_symbol_table self) v T false) self.
Proof.
  intros HT Hv. unfold plain_declaration.
  rewrite analyze_node_unfold.
  change (item (split "(" "VariableDeclaration") 0)
    with (Return (A:=string) "VariableDeclaration"). cbv iota.
  change (analysis_method _analyze_node "VariableDeclaration")
    with _analyze_variable_declaration.
  unfold _analyze_variable_declaration, child_payload.
  cbn [children item lookup list_lookup length Nat.ltb Nat.leb].
  unfold_method. cbn [name Leaf].
  rewrite (payload_Type T HT).
  change ("Identifier(" +:+ v +:+ ")") with ("Identifier" +:+ "(" +:+ v +:+ ")").
  rewrite (payload_label "Identifier" v eq_refl Hv).
  by destruct self.
Qed.

(** The analysis of [T id = f(...);] does not look at the call. *)
Lemma analyze_call_initializer
    (T v : string) (call : list ParseNode) (self : SemanticAnalyzer) :
  T ∈ type_names → no_bracket v = true →
  _analyze_node (initialized_declaration T v (Node "FunctionCall" call)) self
  = on_heap (SymbolTable.declare (current_symbol_table self) v T false) self.
Proof.
  intros HT Hv. unfold initialized_declaration.
  rewrite analyze_node_unfold.
  change (item (split "(" "VariableDeclaration") 0)
    with (Return (A:=string) "VariableDeclaration"). cbv iota.
  change (analysis_method _analyze_node "VariableDeclaration")
    with _analyze_variable_declaration.
  rewrite (analyze_variable_declaration_unfold _ (Node "FunctionCall" call) T v);
    [done | exact (payload_Type T HT)
     | exact (payload_label "Identifier" v eq_refl Hv) | reflexivity].
Qed.

End Declarations.

(** X6. Two declarations of one name in the same scope fail with the
    duplicate-symbol error whatever their types are: at the first
    declaration when the scope has the name already, at the second
    otherwise. *)
Theorem redeclaration_fails_whatever_the_types
    (self : SemanticAnalyzer) (T T' v : string) :
  wf_analyzer self → T ∈ type_names → T' ∈ type_names → no_bracket v = true →
  (SemanticAnalyzer.for_each SemanticAnalyzer._analyze_node
     [plain_declaration T v; plain_declaration T' v] self).1
  = Raise (AlreadyDeclared v).
Proof.
  intros (_ & Hcur & _) HT HT' Hv.
  destruct (lookup_lt_is_Some_2 _ _ Hcur) as [table Ht].
  cbn [SemanticAnalyzer.for_each]. unfold mbind, M_bind.
  rewrite (analyze_plain_declaration T v self HT Hv).
  unfold SemanticAnalyzer.on_heap at 1.
  rewrite (declare_unfold _ _ _ _ _ _ Ht).
  destruct (symbols table !! v) eqn:Hfresh; [done|].
  rewrite (analyze_plain_declaration T' v _ HT' Hv).
  unfold SemanticAnalyzer.on_heap. cbn [heap current_symbol_table].
  rewrite (declare_unfold _ _ _ _ _ (declared v T false table)).
  - cbn [declared with_symbols symbols]. by rewrite lookup_insert_eq.
  - apply list_lookup_insert_eq. by eapply lookup_lt_Some.
Qed.

Lemma redeclaration_fails_whatever_the_types_witness :
  (SemanticAnalyzer.for_each SemanticAnalyzer._analyze_node
     [plain_declaration "int" "y"; plain_declaration "double" "y"]
     sample_analyzer).1
  = Raise (AlreadyDeclared "y")
  ∧ analyze_source "int x; char x;" = Raise (AlreadyDeclared "x").
Proof.
  split; [|reflexivity].
  apply (redeclaration_fails_whatever_the_types sample_analyzer "int" "double" "y"
           sample_analyzer_wf); [| |reflexivity]; unfold type_names; set_solver.
Defined.

(** X7. An initializer that is a call is not analyzed: the declaration
    [T id = f(...);] has the outcome and the effect of [T id;], also when
    [f] is declared nowhere or is not a function. *)
Theorem call_initializer_is_not_checked
    (self : SemanticAnalyzer) (T v : string) (call : list ParseNode) :
  T ∈ type_names → no_bracket v = true →
  SemanticAnalyzer._analyze_node
    (initialized_declaration T v (Node "FunctionCall" call)) self
  = SemanticAnalyzer._analyze_node (plain_declaration T v) self.
Proof.
  intros HT Hv.
  by rewrite analyze_call_initializer, analyze_plain_declaration.
Qed.

Lemma call_initializer_is_not_checked_witness :
  SemanticAnalyzer._analyze_node
    (initialized_declaration "int" "y"
       (Node "FunctionCall" [Leaf "Identifier(nowhere)"])) sample_analyzer
  = SemanticAnalyzer._analyze_node (plain_declaration "int" "y") sample_analyzer
  ∧ analyze_source "int y = nowhere();" = Return 0
  ∧ analyze_source "nowhere();"
    = Raise (CallOfUndeclared "nowhere").
Proof.
  split; [|split; reflexivity].
  apply (call_initializer_is_not_checked sample_analyzer "int" "y");
    [unfold type_names; set_solver | reflexivity].
Defined.

(** X8. The relation of [_is_compatible_type] is an order on the four type
    names: every type accepts itself, what is accepted through an
    intermediate type is accepted directly, and two different types never
    accept each other. *)
Theorem compatibility_is_an_order (type1 type2 type3 : string) :
  (type1 ∈ type_names → SemanticAnalyzer._is_compatible_type type1 type1 = true)
  ∧ (SemanticAnalyzer._is_compatible_type type1 type2 = true →
     SemanticAnalyzer._is_compatible_type type2 type3 = true →
     SemanticAnalyzer._is_compatible_type type1 type3 = true)
  ∧ (SemanticAnalyzer._is_compatible_type type1 type2 = true →
     SemanticAnalyzer._is_compatible_type type2 type1 = true →
     type1 = type2)
  ∧ (SemanticAnalyzer._is_compatible_type type1 type2 = true →
     type1 ∈ type_names ∧ type2 ∈ type_names).
Proof.
  split; [|split; [|split]].
  - unfold type_names. intros HT.
    repeat (apply elem_of_cons in HT as [->|HT]; [reflexivity|]).
    by apply elem_of_nil in HT.
  - intros H12%is_compatible_type_accepts H23%is_compatible_type_accepts.
    apply is_compatible_type_accepts.
    destruct H12; inversion H23; subst; constructor.
  - intros H12%is_compatible_type_accepts H21%is_compatible_type_accepts.
    by destruct H12; inversion H21.
  - intros H12%is_compatible_type_accepts.
    unfold type_names. destruct H12; set_solver.
Qed.

Lemma compatibility_is_an_order_witness :
  SemanticAnalyzer._is_compatible_type "double" "double" = true
  ∧ SemanticAnalyzer._is_compatible_type "double" "int" = true
  ∧ SemanticAnalyzer._is_compatible_type "int" "double" = false.
Proof.
  destruct (compatibility_is_an_order "double" "float" "int")
    as (Hrefl & Htrans & Hanti & _).
  split; [|split].
  - apply Hrefl. unfold type_names. set_solver.
  - apply Htrans; reflexivity.
  - destruct (SemanticAnalyzer._is_compatible_type "int" "double") eqn:H; [|done].
    destruct (compatibility_is_an_order "int" "double" "int") as (_ & _ & Hanti' & _).
    by specialize (Hanti' H eq_refl).
Defined.

Section DeclareAndLookup.
Import SymbolTable.

Lemma lookup_rec_declare_other (heap : list SymbolTable) (self : loc)
    (table : SymbolTable) (name type_name : string) (is_function : bool)
    (name' : string) :
  heap !! self = Some table → name' ≠ name →
  ∀ fuel l,
    lookup_rec fuel (<[self := declared name type_name is_function table]> heap)
      l name'
    = lookup_rec fuel heap l name'.
Proof.
  intros Hself Hne fuel. induction fuel as [|fuel IH]; intros l;
    cbn [lookup_rec];
    (destruct (decide (l = self)) as [->|Hl];
     [rewrite list_lookup_insert_eq by (by eapply lookup_lt_Some);
      rewrite Hself; cbn [declared with_symbols symbols parent];
      rewrite lookup_insert_ne by done
     |rewrite list_lookup_insert_ne by done]);
    try done.
  - destruct (symbols table !! name'); [done|].
    destruct (parent table); [apply IH | done].
  - destruct (heap !! l) as [t|]; [|done].
    destruct (symbols t !! name'); [done|].
    destruct (parent t); [apply IH | done].
Qed.

End DeclareAndLookup.

(** X9. When [declare] returns, a lookup of the name from the table it was
    declared in returns the new entry, and a lookup of any other name, from
    any table, has the outcome it had before. *)
Theorem declare_then_lookup
    (heap heap' : list SymbolTable) (self : loc)
    (name type_name : string) (is_function : bool) :
  SymbolTable.declare self name type_name is_function heap = (Return tt, heap') →
  (SymbolTable.lookup self name heap').1 = Return (mkSymbol type_name is_function)
  ∧ (∀ l name', name' ≠ name →
       (SymbolTable.lookup l name' heap').1 = (SymbolTable.lookup l name' heap).1)
  ∧ length heap' = length heap.
Proof.
  unfold SymbolTable.declare.
  destruct (heap !! self) as [table|] eqn:Hself; [|done].
  destruct (symbols table !! name) eqn:Hfresh; [done|].
  intros [= <-].
  fold (declared name type_name is_function table).
  pose proof (lookup_lt_Some _ _ _ Hself) as Hlt.
  split; [|split].
  - unfold SymbolTable.lookup. cbn [fst]. rewrite length_insert.
    destruct (length heap); [lia|]. cbn [SymbolTable.lookup_rec].
    rewrite list_lookup_insert_eq by (by eapply lookup_lt_Some).
    cbn [declared with_symbols symbols]. by rewrite lookup_insert_eq.
  - intros l name' Hne. unfold SymbolTable.lookup. cbn [fst].
    rewrite length_insert. by apply lookup_rec_declare_other.
  - by rewrite length_insert.
Qed.

Lemma declare_then_lookup_witness :
  (SymbolTable.lookup 1 "y"
     (SymbolTable.declare 1 "y" "char" false shadowing_heap).2).1
  = Return (mkSymbol "char" false)
  ∧ (SymbolTable.lookup 1 "x"
       (SymbolTable.declare 1 "y" "char" false shadowing_heap).2).1
    = Return (mkSymbol "int" false).
Proof.
  destruct (declare_then_lookup shadowing_heap
              (SymbolTable.declare 1 "y" "char" false shadowing_heap).2
              1 "y" "char" false eq_refl) as (Hnew & Hother & _).
  split; [exact Hnew|].
  rewrite (Hother 1 "x"); [reflexivity | discriminate].
Defined.

Section Recursion.
Import SemanticAnalyzer.

(** In the scope of its body a function resolves to its own entry. *)
Lemma sees_own_name (self : SemanticAnalyzer) (table : SymbolTable)
    (func_name return_type : string) :
  wf_analyzer self →
  heap self !! current_symbol_table self = Some table →
  symbols table !! func_name = None →
  sees (body_entry self func_name return_type table) func_name
  = Return (mkSymbol return_type true).
Proof.
  intros Hwf Ht Hfresh.
  pose proof (frame_declare_on_entry _ _ func_name return_type Hwf Ht Hfresh)
    as Hframe.
  rewrite sees_resolve by apply (frame_wf _ _ Hframe).
  destruct (visible_body_entry _ _ func_name return_type Hwf Ht Hfresh)
    as [_ ->].
  cbn [resolve declared with_symbols symbols].
  by rewrite lookup_empty, lookup_insert_eq.
Qed.

End Recursion.

(** X10. A function may call itself: the analysis of [T f() { f(); }] in a
    scope that does not declare [f] returns, and leaves [f] declared as a
    function in that scope. *)
Theorem function_may_call_itself
    (self : SemanticAnalyzer) (table : SymbolTable) (T f : string) :
  wf_analyzer self → T ∈ type_names → no_bracket f = true →
  heap self !! current_symbol_table self = Some table →
  symbols table !! f = None →
  SemanticAnalyzer._analyze_node (recursive_function T f) self
  = (Return tt, leave (current_symbol_table self) (body_entry self f T table)).
Proof.
  intros Hwf HT Hf Ht Hfresh. unfold recursive_function.
  pose proof (payload_label "Identifier" f eq_refl Hf) as Hp.
  change ("Identifier" +:+ "(" +:+ f +:+ ")") with ("Identifier(" +:+ f +:+ ")")
    in Hp.
  rewrite analyze_node_unfold.
  change (item (split "(" "Function") 0) with (Return (A:=string) "Function").
  cbv iota.
  change (SemanticAnalyzer.analysis_method SemanticAnalyzer._analyze_node "Function")
    with (SemanticAnalyzer._analyze_function SemanticAnalyzer._analyze_node).
  rewrite analyze_function_unfold.
  unfold SemanticAnalyzer.child_payload.
  cbn [children item lookup list_lookup name Leaf].
  cbn [mbind outcome_bind]. cbn [name Leaf].
  rewrite (payload_Type T HT), Hp.
  rewrite (declare_on_entry _ _ _ _ Ht), Hfresh.
  fold (body_entry self f T table).
  assert (SemanticAnalyzer._analyze_node
            (Node "DeclarationList"
               [Node "ExpressionStatement"
                  [Node "FunctionCall" [Leaf ("Identifier(" +:+ f +:+ ")")]]])
            (body_entry self f T table)
          = (Return tt, body_entry self f T table)) as ->; [|done].
  rewrite analyze_node_unfold.
  change (item (split "(" "DeclarationList") 0)
    with (Return (A:=string) "DeclarationList"). cbv iota.
  change (SemanticAnalyzer.analysis_method SemanticAnalyzer._analyze_node
            "DeclarationList" (Node "DeclarationList" ?cs))
    with (SemanticAnalyzer.for_each SemanticAnalyzer._analyze_node cs).
  cbn [SemanticAnalyzer.for_each]. unfold mbind at 1, M_bind at 1.
  rewrite analyze_node_unfold.
  change (item (split "(" "ExpressionStatement") 0)
    with (Return (A:=string) "ExpressionStatement"). cbv iota.
  change (SemanticAnalyzer.analysis_method SemanticAnalyzer._analyze_node
            "ExpressionStatement" (Node "ExpressionStatement" ?cs))
    with (SemanticAnalyzer.for_each SemanticAnalyzer._analyze_node cs).
  cbn [SemanticAnalyzer.for_each]. unfold mbind at 1, M_bind at 1.
  rewrite analyze_node_FunctionCall, analyze_function_call_unfold.
  cbn [name Leaf]. rewrite Hp.
  pose proof (sees_own_name self table f T Hwf Ht Hfresh) as Hsees.
  unfold sees, SymbolTable.lookup in Hsees. cbn [fst] in Hsees.
  by rewrite Hsees.
Qed.

Lemma function_may_call_itself_witness :
  (SemanticAnalyzer._analyze_node (recursive_function "int" "f") initial_analyzer).1
  = Return tt
  ∧ analyze_source "int f() { f(); }" = Return 0
  ∧ analyze_source "f(); int f() { }" = Raise (CallOfUndeclared "f").
Proof.
  split; [|split; reflexivity].
  rewrite (function_may_call_itself initial_analyzer default_global_scope "int" "f"
             initial_analyzer_wf); [done | | done..].
  unfold type_names. set_solver.
Defined.

Section NumbersOfText.
Import SemanticAnalyzer.




End NumbersOfText.



(* ===================================================================== *)
(** * The driver                                                          *)
(* ===================================================================== *)


(* ===================================================================== *)
(** * The scope after an error                                            *)
(* ===================================================================== *)

Section ScopeAfterError.
Import SemanticAnalyzer.

Lemma keeps_scope_ret {A} (a : A) : keeps_scope (mret a).
Proof. done. Qed.

Lemma keeps_scope_raise {A} (e : exn) : keeps_scope (raise (A:=A) e).
Proof. done. Qed.

Lemma keeps_scope_lift {A} (o : outcome A) : keeps_scope (lift o).
Proof. done. Qed.

Lemma keeps_scope_on_heap {A} (m : M (list SymbolTable) A) :
  keeps_scope (on_heap m).
Proof. intros self. unfold on_heap. by destruct (m (heap self)). Qed.

Lemma keeps_scope_get : keeps_scope get_current_symbol_table.
Proof. done. Qed.

Lemma keeps_scope_bind {A B} (m : M SemanticAnalyzer A)
    (f : A → M SemanticAnalyzer B) :
  keeps_scope m → (∀ a, keeps_scope (f a)) → keeps_scope (m ≫= f).
Proof.
  intros Hm Hf self. unfold mbind, M_bind.
  specialize (Hm self). destruct (m self) as [[a|e] self']; cbn [snd] in *.
  - by rewrite Hf.
  - done.
Qed.

Lemma keeps_scope_try {A} (body : M SemanticAnalyzer A)
    (handler : string → M SemanticAnalyzer A) :
  keeps_scope body → (∀ e, keeps_scope (handler e)) →
  keeps_scope (try_except_SemanticError body handler).
Proof.
  intros Hbody Hhandler self. unfold try_except_SemanticError.
  specialize (Hbody self). destruct (body self) as [[a|[]] self'];
    cbn [snd] in *; try done.
  by rewrite Hhandler.
Qed.

Lemma keeps_scope_type_check (T : string) (e : ParseNode) :
  keeps_scope (_type_check_assignment T e).
Proof. intros self. by rewrite type_check_assignment_state. Qed.

Lemma keeps_scope_variable_declaration (node : ParseNode) :
  keeps_scope (_analyze_variable_declaration node).
Proof.
  unfold _analyze_variable_declaration.
  apply keeps_scope_bind; [apply keeps_scope_lift|]. intros var_type.
  apply keeps_scope_bind; [apply keeps_scope_lift|]. intros var_name.
  apply keeps_scope_bind.
  - destruct (2 <? length (children node))%nat; [|apply keeps_scope_ret].
    apply keeps_scope_bind; [apply keeps_scope_lift|]. intros init.
    apply keeps_scope_type_check.
  - intros _. apply keeps_scope_bind; [apply keeps_scope_get|]. intros table.
    apply keeps_scope_on_heap.
Qed.

Lemma stays_of_keeps_scope (m : M SemanticAnalyzer unit) :
  keeps_scope m → stays_or_enters m.
Proof.
  intros Hm self o self' _ Hrun. left.
  specialize (Hm self). by rewrite Hrun in Hm.
Qed.

Lemma stays_or_enters_for_each (nodes : list ParseNode) :
  Forall (λ node, stays_or_enters (_analyze_node node)) nodes →
  stays_or_enters (for_each _analyze_node nodes).
Proof.
  induction 1 as [|node nodes Hnode _ IH]; cbn [for_each].
  { apply stays_of_keeps_scope, keeps_scope_ret. }
  intros self o self'' Hwf Hrun.
  apply bind_inv in Hrun as [([] & self' & Hrun & Hrun')|(e & Hrun & ->)].
  - destruct (analyze_node_framed node _ _ _ Hwf Hrun) as [Hframe Hsame].
    specialize (Hsame eq_refl).
    destruct (IH _ _ _ (frame_wf _ _ Hframe) Hrun') as [Hstay|Henter].
    + left. congruence.
    + right. pose proof (frame_length _ _ Hframe). lia.
  - by eapply Hnode.
Qed.

Lemma stays_or_enters_function (node : ParseNode) :
  (∀ body, children node !! 2 = Some body → stays_or_enters (_analyze_node body)) →
  stays_or_enters (_analyze_function _analyze_node node).
Proof.
  intros Hbody self o self' Hwf Hrun.
  rewrite analyze_function_unfold in Hrun.
  destruct (child_payload node 0) as [return_type|e];
    [|injection Hrun as <- <-; by left].
  destruct (child_payload node 1) as [func_name|e];
    [|injection Hrun as <- <-; by left].
  pose proof Hwf as (_ & Hcur & _).
  destruct (lookup_lt_is_Some_2 _ _ Hcur) as [table Ht].
  rewrite (declare_on_entry _ _ _ _ Ht) in Hrun.
  destruct (symbols table !! func_name) eqn:Hfresh.
  { injection Hrun as <- <-. by right. }
  pose proof (frame_declare_on_entry _ _ func_name return_type Hwf Ht Hfresh)
    as Hinside.
  destruct (children node) as [|c0 [|c1 [|body rest]]] eqn:Hchildren;
    try (injection Hrun as <- <-; by right).
  specialize (Hbody body eq_refl).
  destruct (_analyze_node body _) as [[[]|e] inside'] eqn:Hbodyrun;
    injection Hrun as <- <-; [by left|].
  right.
  destruct (Hbody _ _ _ (frame_wf _ _ Hinside) Hbodyrun) as [Hstay|Henter].
  - by rewrite Hstay.
  - cbn [heap] in Henter. rewrite length_insert in Henter.
    unfold enter in Henter. cbn [heap] in Henter.
    rewrite length_app in Henter. lia.
Qed.

Lemma analyze_node_stays_or_enters (node : ParseNode) :
  stays_or_enters (_analyze_node node).
Proof.
  induction node as [label nodes IH] using ParseNode_ind.
  intros self o self' Hwf. rewrite analyze_node_unfold.
  destruct (item (split "(" label) 0) as [kind|e];
    [|intros [= <- <-]; by left].
  revert self o self' Hwf.
  change (stays_or_enters (analysis_method _analyze_node kind (Node label nodes))).
  unfold analysis_method.
  repeat match goal with
         | |- context [String.eqb kind ?k] => destruct (String.eqb kind k)
         end.
  - by apply stays_or_enters_for_each.
  - apply stays_or_enters_function. intros body Hbody.
    cbn [children] in Hbody.
    by eapply (proj1 (Forall_lookup _ _)) in IH.
  - apply stays_of_keeps_scope, keeps_scope_variable_declaration.
  - apply stays_of_keeps_scope. intros self.
    by rewrite analyze_function_call_state.
  - by apply stays_or_enters_for_each.
  - by apply stays_or_enters_for_each.
Qed.

End ScopeAfterError.

(** X13. An error does not put the current scope back.  When
    [_analyze_function] has read the type and the name of the function and
    then fails, the analyzer is left with a table that the call created as
    its current scope; when the failure is the duplicate declaration of the
    function's name, that table is the fresh, empty scope of the body. *)
Theorem failure_in_function_leaves_its_scope
    (self self' : SemanticAnalyzer) (node : ParseNode)
    (return_type func_name : string) (e : exn) :
  wf_analyzer self →
  SemanticAnalyzer.child_payload node 0 = Return return_type →
  SemanticAnalyzer.child_payload node 1 = Return func_name →
  SemanticAnalyzer._analyze_function SemanticAnalyzer._analyze_node node self
  = (Raise e, self') →
  length (heap self) ≤ current_symbol_table self'
  ∧ current_symbol_table self' ≠ current_symbol_table self
  ∧ (∀ table, heap self !! current_symbol_table self = Some table →
       is_Some (symbols table !! func_name) →
       e = AlreadyDeclared func_name ∧ self' = enter self).
Proof.
  intros Hwf Htype Hname Hrun.
  pose proof Hwf as (_ & Hcur & _).
  assert (length (heap self) ≤ current_symbol_table self') as Hentered.
  { revert Hrun. rewrite analyze_function_unfold, Htype, Hname.
    destruct (lookup_lt_is_Some_2 _ _ Hcur) as [table Ht].
    rewrite (declare_on_entry _ _ _ _ Ht).
    destruct (symbols table !! func_name) eqn:Hfresh; [by intros [= _ <-]|].
    pose proof (frame_declare_on_entry _ _ func_name return_type Hwf Ht Hfresh)
      as Hinside.
    destruct (children node) as [|c0 [|c1 [|body rest]]];
      try by intros [= _ <-].
    destruct (SemanticAnalyzer._analyze_node body _) as [[[]|err] inside']
      eqn:Hbodyrun; [done|]. intros [= _ <-].
    destruct (analyze_node_stays_or_enters body _ _ _ (frame_wf _ _ Hinside)
                Hbodyrun) as [Hstay|Henter].
    - by rewrite Hstay.
    - cbn [heap] in Henter. rewrite length_insert in Henter.
      unfold enter in Henter. cbn [heap] in Henter.
      rewrite length_app in Henter. lia. }
  split; [done|]. split; [lia|].
  intros table Ht [symbol Hsymbol]. revert Hrun.
  rewrite analyze_function_unfold, Htype, Hname.
  rewrite (declare_on_entry _ _ _ _ Ht), Hsymbol. by intros [= <- <-].
Qed.

Lemma failure_in_function_leaves_its_scope_witness :
  length (heap after_example_function)
  ≤ current_symbol_table
      (SemanticAnalyzer._analyze_function SemanticAnalyzer._analyze_node
         example_function after_example_function).2
  ∧ (SemanticAnalyzer._analyze_function SemanticAnalyzer._analyze_node
       example_function after_example_function).2
    = enter after_example_function.
Proof.
  assert (wf_analyzer after_example_function) as Hwf
    by (vm_compute; repeat constructor).
  destruct (failure_in_function_leaves_its_scope after_example_function
              (SemanticAnalyzer._analyze_function SemanticAnalyzer._analyze_node
                 example_function after_example_function).2
              example_function "int" "main"
              (AlreadyDeclared "main") Hwf eq_refl eq_refl)
    as (Hentered & _ & Hduplicate); [by vm_compute|].
  split; [exact Hentered|].
  apply (Hduplicate (declared "main" "int" true default_global_scope));
    [by vm_compute | eexists; by vm_compute].
Defined.

Section Delimiters.
#[local] Arguments String.eqb : simpl nomatch.

Lemma parse_declaration_before_delimiter (T v d : string) :
  T ∈ type_names → String.eqb d "(" = false → String.eqb d "=" = false →
  Parser.parse_program
    [mkToken "KEYWORD" T; mkToken "IDENTIFIER" v; mkToken "DELIMITER" d]
  = Return (Node "Program" [plain_declaration T v]).
Proof.
  intros HT Hd He. unfold type_names in HT.
  unfold Parser.parse_program, Parser.parse_program_fuel.
  cbn [length Nat.mul Nat.add].
  cbn [Parser.parse_program_loop Parser.parse_declaration].
  unfold Parser.parse_type, Parser.consume, Parser.current_value_is,
    Parser.current_token.
  unfold_method.
  repeat (apply elem_of_cons in HT as [->|HT];
          [cbn; rewrite Hd; cbn; rewrite He; reflexivity|]).
  by apply elem_of_nil in HT.
Qed.

End Delimiters.

(** X14. The parser ends a declaration at any delimiter: after a type and
    an identifier, a [DELIMITER] token of any text other than the opening
    bracket and the equals sign closes the declaration [T id;], as the
    semicolon does. *)
Theorem any_delimiter_ends_a_declaration (T v d : string) :
  T ∈ type_names → String.eqb d "(" = false → String.eqb d "=" = false →
  Parser.parse_program
    [mkToken "KEYWORD" T; mkToken "IDENTIFIER" v; mkToken "DELIMITER" d]
  = Return (Node "Program" [plain_declaration T v])
  ∧ Parser.parse_program
      [mkToken "KEYWORD" T; mkToken "IDENTIFIER" v; mkToken "DELIMITER" ";"]
    = Return (Node "Program" [plain_declaration T v]).
Proof.
  intros HT Hd He. split; by apply parse_declaration_before_delimiter.
Qed.

Lemma any_delimiter_ends_a_declaration_witness :
  Parser.parse_program
    [mkToken "KEYWORD" "int"; mkToken "IDENTIFIER" "x"; mkToken "DELIMITER" "}"]
  = Return (Node "Program" [plain_declaration "int" "x"])
  ∧ parse_source "int x}" = parse_source "int x;".
Proof.
  split; [|reflexivity].
  apply (any_delimiter_ends_a_declaration "int" "x" "}");
    [unfold type_names; set_solver | reflexivity..].
Defined.

(* ===================================================================== *)
(** * Kinds of tokens                                                     *)
(* ===================================================================== *)

Section TokenKinds.

Lemma keyword_starts_with_letter (s : string) :
  is_keyword s = true → starts_with_digit s = false.
Proof.
  unfold is_keyword. intros (k & Hk & ->%String.eqb_eq)%existsb_exists.
  unfold keywords in Hk. cbn [In] in Hk.
  repeat (destruct Hk as [<-|Hk]; [reflexivity|]). done.
Qed.

Lemma valid_identifier_run (s : string) :
  all_not_punctuator s = true → String.eqb s "" = false →
  valid_identifier s = negb (starts_with_digit s).
Proof.
  destruct s as [|c s]; [done|].
  cbn [all_not_punctuator valid_identifier starts_with_digit].
  intros [Hc ->]%andb_true_iff _. apply negb_true_iff in Hc. rewrite Hc.
  rewrite orb_false_r. by destruct (str_isdigit c).
Qed.

Lemma run_token_INVALID (t : Token) :
  lexical_token t = true →
  (token_type t = "INVALID IDENTIFIER"
   ↔ starts_with_digit (value t) = true ∧ is_number (value t) = false).
Proof.
  unfold lexical_token, separator_token, run_token. intros H.
  apply orb_true_iff in H as [H|H].
  { destruct (value t) as [|ch [|]] eqn:Hvalue; try done.
    assert (is_punctuator ch = true) as Hpunct.
    { apply orb_true_iff in H as [[Hop _]%andb_true_iff|
                                  [[_ Hdel]%andb_true_iff _]%andb_true_iff].
      - unfold is_punctuator. apply orb_true_iff. left. revert Hop.
        unfold is_operator. cbn [char_in]. rewrite !orb_true_iff.
        intros Hop. decompose [or] Hop; try done;
          match goal with H : Ascii.eqb _ _ = true |- _ =>
            apply Ascii.eqb_eq in H; subst ch; reflexivity end.
      - unfold is_punctuator. apply orb_true_iff. left. revert Hdel.
        cbn [char_in]. rewrite !orb_true_iff.
        intros Hdel. decompose [or] Hdel; try done;
          match goal with H : Ascii.eqb _ _ = true |- _ =>
            apply Ascii.eqb_eq in H; subst ch; reflexivity end. }
    split.
    - intros Htype. rewrite Htype in H. cbn in H.
      by rewrite !andb_false_r in H.
    - cbn [starts_with_digit]. intros [Hdigit _]. exfalso.
      revert Hpunct Hdigit. clear.
      unfold is_punctuator, str_isdigit, isdigit, isspace, ascii_in.
      destruct ch as [[] [] [] [] [] [] [] []]; by vm_compute. }
  apply andb_true_iff in H as [[Hne Hrun]%andb_true_iff Hkind%String.eqb_eq].
  apply negb_true_iff in Hne.
  pose proof (valid_identifier_run _ Hrun Hne) as Hvalid.
  rewrite Hkind. unfold classify.
  destruct (is_keyword (value t)) eqn:Hkeyword.
  { apply keyword_starts_with_letter in Hkeyword.
    split; [done|]. intros [Hdigit _]. congruence. }
  destruct (is_number (value t)).
  { split; [done | by intros [_ ?]]. }
  rewrite Hvalid. destruct (starts_with_digit (value t)); cbn [negb].
  - done.
  - split; [done | by intros [? _]].
Qed.

End TokenKinds.

(** X15. A token of a text is an [INVALID IDENTIFIER] exactly when its text
    starts with a digit and is not a number. *)
Theorem invalid_identifiers_of_text
    (s : string) (tokens : list Token) (t : Token) :
  Lexer s = Return tokens → t ∈ tokens →
  (token_type t = "INVALID IDENTIFIER"
   ↔ starts_with_digit (value t) = true ∧ is_number (value t) = false).
Proof.
  intros Hlex Ht. apply run_token_INVALID.
  assert (Forall (λ t, lexical_token t = true) tokens) as Hlexical.
  { revert Hlex. apply Lexer_loop_lexical;
      [done | intros i c ? ?; lia | constructor]. }
  by apply (proj1 (Forall_forall _ _) Hlexical).
Qed.

Lemma invalid_identifiers_of_text_witness :
  starts_with_digit "1abc" = true ∧ is_number "1abc" = false.
Proof.
  apply (invalid_identifiers_of_text "int 1abc;"
           [mkToken "KEYWORD" "int"; mkToken "INVALID IDENTIFIER" "1abc";
            mkToken "DELIMITER" ";"] (mkToken "INVALID IDENTIFIER" "1abc"));
    [reflexivity | set_solver | reflexivity].
Defined.

Section FirstToken.
#[local] Arguments String.eqb : simpl nomatch.

Lemma parse_program_first_keyword (k : string) (rest : list Token) :
  existsb (String.eqb k) type_names = false →
  Parser.parse_program (mkToken "KEYWORD" k :: rest)
  = Raise (Exception ("Unexpected type " +:+ k)).
Proof.
  intros Hk. unfold Parser.parse_program, Parser.parse_program_fuel.
  replace (2 * length (mkToken "KEYWORD" k :: rest) + 3)
    with (S (S (S (2 * length rest + 2)))) by (cbn [length]; lia).
  cbn [length Parser.parse_program_loop Parser.parse_declaration].
  unfold Parser.parse_type, Parser.consume, Parser.current_value_is,
    Parser.current_token.
  unfold_method. unfold type_names in Hk. cbn in Hk |- *. by rewrite Hk.
Qed.

Lemma parse_program_first_other (t : Token) (rest : list Token) :
  String.eqb (token_type t) "KEYWORD" = false →
  String.eqb (token_type t) "NUMBER" = false →
  String.eqb (token_type t) "IDENTIFIER" = false →
  Parser.parse_program (t :: rest)
  = Raise (Exception ("Unexpected token in expression: " +:+ Token_repr t)).
Proof.
  intros Hk Hn Hi. unfold Parser.parse_program, Parser.parse_program_fuel.
  replace (2 * length (t :: rest) + 3)
    with (S (S (S (2 * length rest + 2)))) by (cbn [length]; lia).
  cbn [length Parser.parse_program_loop Parser.parse_declaration
       Parser.parse_expression].
  unfold Parser.consume, Parser.current_value_is, Parser.current_token.
  unfold_method. cbn. rewrite Hk. cbn. rewrite Hn. cbn. by rewrite Hi.
Qed.

End FirstToken.

(** X16. What a program may start with.  A keyword that is not one of the
    four type names ends the parse with [Unexpected type]; a first token
    that is neither a keyword, a number nor an identifier ends it with
    [Unexpected token in expression]. *)
Theorem parse_program_first_token (t : Token) (rest : list Token) :
  (token_type t = "KEYWORD" →
   existsb (String.eqb (value t)) type_names = false →
   Parser.parse_program (t :: rest)
   = Raise (Exception ("Unexpected type " +:+ value t)))
  ∧ (String.eqb (token_type t) "KEYWORD" = false →
     String.eqb (token_type t) "NUMBER" = false →
     String.eqb (token_type t) "IDENTIFIER" = false →
     Parser.parse_program (t :: rest)
     = Raise (Exception ("Unexpected token in expression: " +:+ Token_repr t))).
Proof.
  split.
  - destruct t as [kind k]. cbn [token_type value]. intros ->.
    apply parse_program_first_keyword.
  - apply parse_program_first_other.
Qed.

Lemma parse_program_first_token_witness :
  parse_source "while x" = Raise (Exception "Unexpected type while")
  ∧ parse_source "= 5" = Raise (Exception "Unexpected token in expression: = (OPERATOR)").
Proof.
  split.
  - apply (parse_program_first_token (mkToken "KEYWORD" "while")
             [mkToken "IDENTIFIER" "x"]); reflexivity.
  - apply (parse_program_first_token (mkToken "OPERATOR" "=")
             [mkToken "NUMBER" "5"]); reflexivity.
Defined.

(* ===================================================================== *)
(** * The tokenizer as one pass over the text                             *)
(* ===================================================================== *)

Section OnePass.

Lemma string_app_cons (c : ascii) (a b : string) :
  String c a +:+ b = String c (a +:+ b).
Proof. reflexivity. Qed.

Lemma string_app_nil_l (b : string) : "" +:+ b = b.
Proof. reflexivity. Qed.

Lemma string_length_app (a b : string) :
  String.length (a +:+ b) = String.length a + String.length b.
Proof.
  induction a as [|c a IH]; [done|].
  rewrite string_app_cons. cbn [String.length]. by rewrite IH.
Qed.

Lemma string_app_assoc (a b c : string) : (a +:+ b) +:+ c = a +:+ (b +:+ c).
Proof.
  induction a as [|x a IH]; [done|]. by rewrite !string_app_cons, IH.
Qed.

Lemma string_app_nil_r (a : string) : a +:+ "" = a.
Proof.
  induction a as [|x a IH]; [done|]. by rewrite string_app_cons, IH.
Qed.

Lemma get_app_length (a b : string) :
  String.get (String.length a) (a +:+ b) = String.get 0 b.
Proof.
  induction a as [|x a IH]; [done|]. rewrite string_app_cons. exact IH.
Qed.

Lemma substring_prefix (a b : string) :
  String.substring 0 (String.length a) (a +:+ b) = a.
Proof.
  induction a as [|x a IH].
  - rewrite string_app_nil_l. by destruct b.
  - rewrite string_app_cons. cbn [String.length String.substring].
    by rewrite IH.
Qed.

Lemma substring_app (p a b : string) :
  String.substring (String.length p) (String.length a) (p +:+ a +:+ b) = a.
Proof.
  induction p as [|x p IH].
  - rewrite string_app_nil_l. apply substring_prefix.
  - rewrite string_app_cons. exact IH.
Qed.

(** The token that [Lexer] adds for the run [sub]. *)
Lemma Lexer_run_token (sub : string) (tokens : list Token) :
  (if is_keyword sub then tokens ++ [mkToken "KEYWORD" sub]
   else if is_number sub then tokens ++ [mkToken "NUMBER" sub]
   else if valid_identifier sub then tokens ++ [mkToken "IDENTIFIER" sub]
   else tokens ++ [mkToken "INVALID IDENTIFIER" sub])
  = tokens ++ [mkToken (classify sub) sub].
Proof.
  unfold classify.
  by destruct (is_keyword sub), (is_number sub), (valid_identifier sub).
Qed.

(** The tokens that [Lexer] adds for the separator [ch]. *)
Lemma Lexer_separator_tokens (ch : ascii) (tokens : list Token) :
  (if is_operator ch then tokens ++ [mkToken "OPERATOR" (char_str ch)]
   else if char_in ch "(){};" then tokens ++ [mkToken "DELIMITER" (char_str ch)]
   else tokens)
  = tokens ++ separator ch.
Proof.
  unfold separator.
  destruct (is_operator ch); [done|].
  destruct (char_in ch "(){};"); [done | by rewrite app_nil_r].
Qed.

(** The loop at the end of the text, with no run open. *)
Lemma Lexer_loop_at_end (fuel : nat) (s : string) (tokens : list Token) :
  0 < fuel →
  Lexer_loop fuel s (String.length s) (String.length s) tokens = Return tokens.
Proof.
  destruct fuel as [|fuel]; [lia|]. intros _.
  cbn [Lexer_loop]. cbv zeta.
  rewrite Nat.leb_refl, Nat.ltb_irrefl, Nat.eqb_refl. cbn [andb negb orb].
  destruct fuel; cbn [Lexer_loop]; cbv zeta;
    destruct (Nat.leb_spec (String.length s + 1) (String.length s)); (lia || done).
Qed.

(** The loop with the run [run] open and the text [rest] ahead. *)
Lemma Lexer_loop_scan (rest : string) :
  ∀ fuel before run tokens,
    2 * String.length rest + 2 ≤ fuel →
    Lexer_loop fuel (before +:+ run +:+ rest)
      (String.length before) (String.length before + String.length run) tokens
    = Return (tokens ++ scan rest run).
Proof.
  induction rest as [|ch rest IH]; intros fuel before run tokens Hfuel.
  - cbn [String.length Nat.mul Nat.add] in Hfuel. rewrite string_app_nil_r.
    destruct fuel as [|fuel]; [lia|].
    cbn [Lexer_loop scan]. cbv zeta.
    rewrite string_length_app, Nat.leb_refl, Nat.ltb_irrefl, Nat.eqb_refl.
    destruct (Nat.leb_spec (String.length before)
                (String.length before + String.length run)) as [_|?]; [|lia].
    cbn [andb negb orb].
    destruct run as [|c run].
    + cbn [String.length close]. rewrite Nat.add_0_r, Nat.eqb_refl, app_nil_r.
      cbn [negb].
      destruct fuel; cbn [Lexer_loop]; cbv zeta;
        rewrite ?string_app_nil_r;
        destruct (Nat.leb_spec (String.length before + 1) (String.length before));
        (lia || done).
    + destruct (Nat.eqb_spec (String.length before)
                  (String.length before + String.length (String c run)))
        as [Heq|_]; [cbn [String.length] in Heq; lia|].
      cbn [negb]. rewrite Lexer_run_token.
      replace (String.length before + String.length (String c run) - String.length before)
        with (String.length (String c run)) by lia.
      pose proof (substring_app before (String c run) "") as Hsub.
      rewrite string_app_nil_r in Hsub. rewrite Hsub.
      rewrite <- string_length_app. rewrite Lexer_loop_at_end by lia. done.
  - cbn [String.length] in Hfuel.
    destruct fuel as [|fuel]; [lia|].
    cbn [Lexer_loop]. cbv zeta.
    rewrite !string_length_app. cbn [String.length].
    destruct (Nat.leb_spec (String.length before + String.length run)
                (String.length before + (String.length run + S (String.length rest))))
      as [_|?]; [|lia].
    destruct (Nat.leb_spec (String.length before)
                (String.length before + String.length run)) as [_|?]; [|lia].
    destruct (Nat.ltb_spec (String.length before + String.length run)
                (String.length before + (String.length run + S (String.length rest))))
      as [_|?]; [|lia].
    cbn [andb negb].
    assert (String.get (String.length before + String.length run)
              (before +:+ run +:+ String ch rest) = Some ch) as Hget.
    { rewrite <- string_app_assoc, <- string_length_app. by rewrite get_app_length. }
    rewrite Hget. cbn [from_option scan].
    destruct (is_punctuator ch) eqn:Hpunct; cbn [negb].
    + (* a separator *)
      assert (∀ fuel' tokens', 2 * String.length rest + 3 ≤ fuel' →
                Lexer_loop fuel' (before +:+ run +:+ String ch rest)
                  (String.length before + String.length run)
                  (String.length before + String.length run) tokens'
                = Return (tokens' ++ separator ch ++ scan rest "")) as Hsep.
      { intros fuel' tokens' Hfuel'. destruct fuel' as [|fuel']; [lia|].
        cbn [Lexer_loop]. cbv zeta.
        rewrite !string_length_app. cbn [String.length].
        destruct (Nat.leb_spec (String.length before + String.length run)
                    (String.length before
                     + (String.length run + S (String.length rest))))
          as [_|?]; [|lia].
        rewrite Nat.leb_refl.
        destruct (Nat.ltb_spec (String.length before + String.length run)
                    (String.length before
                     + (String.length run + S (String.length rest))))
          as [_|?]; [|lia].
        rewrite Hget, Nat.eqb_refl. cbn [from_option andb negb].
        rewrite Hpunct. cbn [andb negb].
        rewrite Lexer_separator_tokens.
        pose proof (IH fuel' (before +:+ run +:+ char_str ch) "" (tokens' ++ separator ch))
          as Hnext.
        unfold char_str in Hnext.
        rewrite !string_app_assoc, string_app_cons, !string_app_nil_l in Hnext.
        rewrite !string_length_app in Hnext. cbn [String.length] in Hnext.
        rewrite Nat.add_0_r, Nat.add_assoc in Hnext.
        rewrite Hnext by lia. by rewrite <- app_assoc. }
      destruct (Nat.eqb_spec (String.length before)
                  (String.length before + String.length run)) as [Heq|Hne].
      * assert (run = "") as -> by (destruct run; [done | cbn in Heq; lia]).
        cbn [andb close app]. rewrite Lexer_separator_tokens.
        pose proof (IH fuel (before +:+ char_str ch) "" (tokens ++ separator ch))
          as Hnext.
        unfold char_str in Hnext.
        rewrite !string_app_assoc, string_app_cons, !string_app_nil_l in Hnext.
        rewrite !string_length_app in Hnext. cbn [String.length] in Hnext.
        rewrite !Nat.add_0_r in *. rewrite !string_app_nil_l.
        rewrite Hnext by lia. by rewrite <- app_assoc.
      * cbn [andb orb negb]. rewrite orb_true_r. cbn [andb].
        rewrite Lexer_run_token.
        replace (String.length before + String.length run - String.length before)
          with (String.length run) by lia.
        rewrite substring_app.
        rewrite Hsep by lia.
        destruct run as [|c run]; [cbn in Hne; lia|].
        cbn [close]. by rewrite <- app_assoc.
    + (* a character of a run *)
      cbn [andb].
      pose proof (IH fuel before (run +:+ char_str ch) tokens) as Hnext.
      unfold char_str in Hnext.
      rewrite !string_app_assoc, string_app_cons, !string_app_nil_l in Hnext.
      rewrite !string_length_app in Hnext. cbn [String.length] in Hnext.
      rewrite Nat.add_assoc in Hnext. apply Hnext. lia.
Qed.

Lemma Lexer_scan (s : string) : Lexer s = Return (scan s "").
Proof.
  unfold Lexer.
  exact (Lexer_loop_scan s (2 * String.length s + 3) "" "" [] ltac:(lia)).
Qed.

Lemma scan_app (a : string) (ch : ascii) (b : string) :
  is_punctuator ch = true →
  ∀ run, scan (a +:+ String ch b) run = scan a run ++ separator ch ++ scan b "".
Proof.
  intros Hch. induction a as [|c a IH]; intros run.
  - rewrite string_app_nil_l. cbn [scan]. by rewrite Hch.
  - rewrite string_app_cons. cbn [scan]. destruct (is_punctuator c).
    + by rewrite IH, !app_assoc.
    + apply IH.
Qed.

End OnePass.

(** X17. The loop of [Lexer] with its two indices computes what one pass
    over the text computes: on every text it returns, and its tokens are
    those of [scan], which closes the open run at each separator and at the
    end of the text and adds the token of the separator, if it has one. *)
Theorem Lexer_is_one_pass (s : string) : Lexer s = Return (scan s "").
Proof. apply Lexer_scan. Qed.

(** X18. The tokens of a text are those of its parts: at a separator [ch]
    the tokens of [a ch b] are the tokens of [a], the token of [ch] if it
    has one, and the tokens of [b]. *)
Theorem Lexer_of_parts (a b : string) (ch : ascii)
    (tokens_a tokens_b : list Token) :
  is_punctuator ch = true →
  Lexer a = Return tokens_a → Lexer b = Return tokens_b →
  Lexer (a +:+ String ch b) = Return (tokens_a ++ separator ch ++ tokens_b).
Proof.
  rewrite !Lexer_scan. intros Hch [= <-] [= <-].
  by rewrite (scan_app a ch b Hch "").
Qed.

Lemma Lexer_of_parts_witness :
  Lexer "int x=5;"
  = Return ([mkToken "KEYWORD" "int"; mkToken "IDENTIFIER" "x"]
            ++ separator "=" ++ [mkToken "NUMBER" "5"; mkToken "DELIMITER" ";"]).
Proof.
  apply (Lexer_of_parts "int x" "5;" "="); reflexivity.
Defined.

(* ===================================================================== *)
(** * The parser reads back what is printed                               *)
(* ===================================================================== *)

Section ReadBack.
Variable tokens : list Token.

Lemma bind_run {S A B} (m : M S A) (k : A → M S B) (s s' : S) (a : A) :
  m s = (Return a, s') → (m ≫= k) s = k a s'.
Proof. intros H. unfold mbind, M_bind. by rewrite H. Qed.

Lemma lookup_head_drop (index : nat) : tokens !! index = head (drop index tokens).
Proof. by rewrite head_lookup, lookup_drop, Nat.add_0_r. Qed.

Lemma drop_skip (index : nat) (taken rest : list Token) :
  drop index tokens = taken ++ rest →
  drop (index + length taken) tokens = rest.
Proof. intros H. by rewrite <- drop_drop, H, drop_app_length. Qed.

Lemma drop_next (index : nat) (t : Token) (rest : list Token) :
  drop index tokens = t :: rest → drop (index + 1) tokens = rest.
Proof. intros H. exact (drop_skip index [t] rest H). Qed.

Lemma current_token_next (index : nat) :
  Parser.current_token tokens index = (Return (head (drop index tokens)), index).
Proof. unfold Parser.current_token. by rewrite lookup_head_drop. Qed.

Lemma current_value_is_next (v : string) (index : nat) :
  Parser.current_value_is tokens v index
  = (Return (next_is v (drop index tokens)), index).
Proof.
  unfold Parser.current_value_is.
  by rewrite (bind_run _ _ _ _ _ (current_token_next index)).
Qed.


Lemma consume_next (expected_type expected_value : option string)
    (index : nat) (t : Token) (rest : list Token) :
  drop index tokens = t :: rest →
  Parser.differs expected_type (token_type t) = false →
  Parser.differs expected_value (value t) = false →
  Parser.consume tokens expected_type expected_value index = (Return t, index + 1).
Proof.
  intros Hdrop Htype Hvalue. unfold Parser.consume.
  rewrite (bind_run _ _ _ _ _ (current_token_next index)), Hdrop.
  cbn [head]. by rewrite Htype, Hvalue.
Qed.

Lemma parse_type_next (index : nat) (T : string) (rest : list Token) :
  drop index tokens = mkToken "KEYWORD" T :: rest →
  existsb (String.eqb T) type_names = true →
  Parser.parse_type tokens index
  = (Return (Leaf ("Type(" +:+ T +:+ ")")), index + 1).
Proof.
  intros Hdrop HT. unfold Parser.parse_type.
  rewrite (bind_run _ _ _ _ _
             (consume_next (Some "KEYWORD") None index _ _ Hdrop eq_refl eq_refl)).
  cbn [value]. change ["int"; "float"; "double"; "char"] with type_names.
  by rewrite HT.
Qed.











End ReadBack.



(* ===================================================================== *)
(** * Statements                                                          *)
(* ===================================================================== *)

Section Statements.
Import SemanticAnalyzer.

Lemma analyze_statement (e : ParseNode) (self : SemanticAnalyzer) :
  _analyze_node (statement e) self
  = match _analyze_node e self with
    | (Return _, self') => (Return tt, self')
    | (Raise err, self') => (Raise err, self')
    end.
Proof.
  unfold statement. rewrite analyze_node_unfold.
  change (item (split "(" "ExpressionStatement") 0)
    with (Return (A:=string) "ExpressionStatement"). cbv iota.
  change (analysis_method _analyze_node "ExpressionStatement"
            (Node "ExpressionStatement" [e]))
    with (for_each _analyze_node [e]).
  cbn [for_each]. unfold mbind, M_bind, mret, M_ret.
  by destruct (_analyze_node e self) as [[[]|err] self'].
Qed.

Lemma analyze_program_cons (node : ParseNode) (nodes : list ParseNode)
    (self : SemanticAnalyzer) :
  _analyze_node (Node "Program" (node :: nodes)) self
  = match _analyze_node node self with
    | (Return _, self') => _analyze_node (Node "Program" nodes) self'
    | (Raise err, self') => (Raise err, self')
    end.
Proof.
  rewrite !analyze_node_unfold.
  change (item (split "(" "Program") 0) with (Return (A:=string) "Program").
  cbv iota.
  change (analysis_method _analyze_node "Program" (Node "Program" ?cs))
    with (for_each _analyze_node cs).
  cbn [for_each]. unfold mbind, M_bind.
  by destruct (_analyze_node node self) as [[[]|err] self'].
Qed.

Lemma analyze_undeclared_call (f : string) (args : list ParseNode)
    (self : SemanticAnalyzer) :
  wf_analyzer self → no_bracket f = true →
  Forall (λ t, symbols t !! f = None) (visible self) →
  _analyze_node (call f args) self = (Raise (CallOfUndeclared f), self).
Proof.
  intros (Hwf & Hcur & _) Hf Habsent. unfold call.
  pose proof (payload_label "Identifier" f eq_refl Hf) as Hp.
  change ("Identifier" +:+ "(" +:+ f +:+ ")") with ("Identifier(" +:+ f +:+ ")")
    in Hp.
  rewrite analyze_node_FunctionCall, analyze_function_call_unfold.
  cbn [name Leaf]. rewrite Hp.
  rewrite lookup_rec_chain by (done || lia).
  fold (scope_chain (heap self) (current_symbol_table self)). fold (visible self).
  apply resolve_None in Habsent. by rewrite Habsent.
Qed.

End Statements.

(** X20. The use of a name is checked only in calls and initializers: the
    statements [v;] of an identifier and of a number are accepted by every
    analyzer, also when no table declares [v], and leave it as it was. *)
Theorem name_in_statement_is_not_checked (v : string) (self : SemanticAnalyzer) :
  SemanticAnalyzer._analyze_node
    (statement (Leaf ("Identifier(" +:+ v +:+ ")"))) self = (Return tt, self)
  ∧ SemanticAnalyzer._analyze_node
      (statement (Leaf ("Number(" +:+ v +:+ ")"))) self = (Return tt, self).
Proof.
  split; rewrite analyze_statement.
  - change ("Identifier(" +:+ v +:+ ")") with ("Identifier" +:+ "(" +:+ v +:+ ")").
    by rewrite (analyze_leaf "Identifier" (v +:+ ")") self eq_refl eq_refl).
  - change ("Number(" +:+ v +:+ ")") with ("Number" +:+ "(" +:+ v +:+ ")").
    by rewrite (analyze_leaf "Number" (v +:+ ")") self eq_refl eq_refl).
Qed.

(** X21. There are no forward references: a program whose first statement
    calls a function that no visible table declares fails with the
    undeclared-symbol error of a call and leaves the analyzer as it was,
    whatever follows the statement, a declaration of the function
    included. *)
Theorem call_before_declaration_fails
    (f : string) (args rest : list ParseNode) (self : SemanticAnalyzer) :
  wf_analyzer self → no_bracket f = true →
  Forall (λ t, symbols t !! f = None) (visible self) →
  SemanticAnalyzer.analyze (Node "Program" (statement (call f args) :: rest)) self
  = (Raise (CallOfUndeclared f), self).
Proof.
  intros Hwf Hf Habsent. unfold SemanticAnalyzer.analyze.
  unfold mbind at 1, M_bind at 1.
  rewrite analyze_program_cons, analyze_statement.
  by rewrite (analyze_undeclared_call f args self Hwf Hf Habsent).
Qed.

Lemma call_before_declaration_fails_witness :
  parse_source "f(); int f() { }"
  = Return (Node "Program"
              [statement (call "f" []);
               Node "Function"
                 [Leaf "Type(int)"; Leaf "Identifier(f)";
                  Node "DeclarationList" []]])
  ∧ SemanticAnalyzer.analyze
      (Node "Program"
         [statement (call "f" []);
          Node "Function"
            [Leaf "Type(int)"; Leaf "Identifier(f)";
             Node "DeclarationList" []]])
      initial_analyzer
    = (Raise (CallOfUndeclared "f"), initial_analyzer).
Proof.
  split; [reflexivity|].
  apply (call_before_declaration_fails "f" [] _ initial_analyzer
           initial_analyzer_wf eq_refl).
  vm_compute. repeat constructor.
Defined.

Section Parameters.
Variable tokens : list Token.

Lemma bind_raise {S A B} (m : M S A) (k : A → M S B) (s s' : S) (e : exn) :
  m s = (Raise e, s') → (m ≫= k) s = (Raise e, s').
Proof. intros H. unfold mbind, M_bind. by rewrite H. Qed.

Lemma consume_closing_bracket (index : nat) (t : Token) (rest : list Token) :
  drop index tokens = t :: rest →
  String.eqb (token_type t) "DELIMITER" && String.eqb (value t) ")" = false →
  Parser.consume tokens (Some "DELIMITER") (Some ")") index
  = (Raise (expected_closing_bracket t), index).
Proof.
  intros Hdrop Ht. unfold Parser.consume, expected_closing_bracket.
  rewrite (bind_run _ _ _ _ _ (current_token_next tokens index)), Hdrop.
  cbn [head Parser.differs String.eqb negb andb default from_option].
  destruct (String.eqb (token_type t) "DELIMITER"); cbn [negb andb] in *.
  - by rewrite Ht.
  - done.
Qed.

Lemma parse_function_with_parameter
    (fuel index : nat) (T f : string) (t : Token) (rest : list Token) :
  existsb (String.eqb T) type_names = true →
  String.eqb (token_type t) "DELIMITER" && String.eqb (value t) ")" = false →
  drop index tokens
  = mkToken "KEYWORD" T :: mkToken "IDENTIFIER" f :: mkToken "DELIMITER" "("
    :: t :: rest →
  (Parser.parse_declaration tokens (S (S fuel)) index).1
  = Raise (expected_closing_bracket t).
Proof.
  intros HT Ht Hdrop. cbn [Parser.parse_declaration].
  rewrite (bind_run _ _ _ _ _ (current_token_next tokens index)), Hdrop.
  cbn [head token_type value String.eqb Ascii.eqb Bool.eqb andb].
  rewrite (bind_run _ _ _ _ _ (parse_type_next tokens index T _ Hdrop HT)).
  apply drop_next in Hdrop.
  rewrite (bind_run _ _ _ _ _
             (consume_next tokens (Some "IDENTIFIER") None (index + 1) _ _ Hdrop
                eq_refl eq_refl)).
  apply drop_next in Hdrop.
  rewrite (bind_run _ _ _ _ _ (current_value_is_next tokens "(" (index + 1 + 1))),
    Hdrop.
  cbn [next_is head from_option value String.eqb Ascii.eqb Bool.eqb andb].
  cbn [Parser.parse_function].
  rewrite (bind_run _ _ _ _ _
             (consume_next tokens (Some "DELIMITER") (Some "(") _ _ _ Hdrop
                eq_refl eq_refl)).
  apply drop_next in Hdrop.
  by rewrite (bind_raise _ _ _ _ _ (consume_closing_bracket _ _ _ Hdrop Ht)).
Qed.

End Parameters.

(** X22. A function takes no parameters: when anything but the closing
    bracket follows the opening bracket of a declaration [T f (], the parse
    ends with the error of [consume] for the closing bracket at that
    token. *)
Theorem function_with_parameter_is_rejected
    (T f : string) (t : Token) (rest : list Token) :
  existsb (String.eqb T) type_names = true →
  String.eqb (token_type t) "DELIMITER" && String.eqb (value t) ")" = false →
  Parser.parse_program
    (mkToken "KEYWORD" T :: mkToken "IDENTIFIER" f :: mkToken "DELIMITER" "("
     :: t :: rest)
  = Raise (expected_closing_bracket t).
Proof.
  intros HT Ht. unfold Parser.parse_program, Parser.parse_program_fuel.
  cbn [length].
  replace (2 * S (S (S (S (length rest)))) + 3)
    with (S (S (S (2 * length rest + 8)))) by lia.
  cbn [Parser.parse_program_loop].
  unfold mbind at 1, M_bind at 1. unfold mbind at 1, M_bind at 1.
  cbn [get length Nat.ltb Nat.leb].
  unfold mbind at 1, M_bind at 1.
  pose proof (parse_function_with_parameter _ (2 * length rest + 8) 0 T f t rest
                HT Ht eq_refl) as Hdecl.
  destruct (Parser.parse_declaration _ _ 0) as [[node|e] index];
    cbn [fst] in Hdecl; [done|].
  by injection Hdecl as ->.
Qed.

Lemma function_with_parameter_is_rejected_witness :
  parse_source "int f(int a) { }"
  = Raise (Exception "Expected DELIMITER, got KEYWORD").
Proof.
  apply (function_with_parameter_is_rejected "int" "f" (mkToken "KEYWORD" "int")
           [mkToken "IDENTIFIER" "a"; mkToken "DELIMITER" ")";
            mkToken "DELIMITER" "{"; mkToken "DELIMITER" "}"]); reflexivity.
Defined.

(* ===================================================================== *)
(** * Predefined functions                                                *)
(* ===================================================================== *)

Section PredefinedFunctions.
Import SemanticAnalyzer.

Lemma declare_items (items : list (string * Symbol)) :
  ∀ m : gmap string Symbol,
    NoDup items.*1 → (∀ k, k ∈ items.*1 → m !! k = None) →
    for_each
      (λ '(name, info),
         on_heap (SymbolTable.declare 0 name (type info) (is_function info)))
      items (mkSemanticAnalyzer [mkSymbolTable m None] 0 0)
    = (Return tt,
       mkSemanticAnalyzer [mkSymbolTable (list_to_map items ∪ m) None] 0 0).
Proof.
  induction items as [|[k [T b]] items IH]; intros m Hnodup Hfresh.
  - cbn [for_each list_to_map foldr]. by rewrite (left_id_L ∅ (∪)).
  - rewrite fmap_cons in Hnodup, Hfresh. cbn [fst] in Hnodup, Hfresh.
    apply NoDup_cons in Hnodup as [Hk Hnodup].
    cbn [for_each type is_function].
    unfold mbind at 1, M_bind at 1.
    unfold on_heap at 1, SymbolTable.declare at 1.
    cbn [heap lookup list_lookup symbols global_symbol_table current_symbol_table].
    rewrite (Hfresh k) by (apply elem_of_cons; by left).
    cbn [insert list_insert]. unfold with_symbols. cbn [parent].
    rewrite IH; [|done|].
    + do 4 f_equal. rewrite list_to_map_cons, <- insert_union_l.
      symmetry. apply insert_union_r. by apply not_elem_of_list_to_map_1.
    + intros k' Hk'. rewrite lookup_insert_ne by (by intros ->).
      apply Hfresh. apply elem_of_cons. by right.
Qed.

End PredefinedFunctions.

(** X23. A mapping of functions that is not empty replaces the default
    functions: the constructor declares its items, whose names are distinct
    as the keys of a mapping are, and nothing else, so the global table,
    which is the current one, holds exactly the items. *)
Theorem given_functions_replace_the_defaults
    (item : string * Symbol) (items : list (string * Symbol)) :
  NoDup (item :: items).*1 →
  SemanticAnalyzer.__init__ (Some (item :: items))
  = (Return tt, analyzer_with (item :: items)).
Proof.
  intros Hnodup. unfold SemanticAnalyzer.__init__, analyzer_with.
  cbn [SemanticAnalyzer.or_default global_symbol_table].
  rewrite (declare_items (item :: items) ∅ Hnodup) by (intros; apply lookup_empty).
  by rewrite (right_id_L ∅ (∪)).
Qed.

Lemma given_functions_replace_the_defaults_witness :
  SemanticAnalyzer.__init__ (Some [("print", mkSymbol "void" true)])
  = (Return tt, analyzer_with [("print", mkSymbol "void" true)])
  ∧ sees (analyzer_with [("print", mkSymbol "void" true)]) "printf"
    = Raise (Undeclared "printf").
Proof.
  split; [|reflexivity].
  apply (given_functions_replace_the_defaults ("print", mkSymbol "void" true) []).
  apply NoDup_singleton.
Defined.
